(** * RBTree.c: a generic red-black tree with insertion, lookup, traversal
    and teardown, embedded over an explicit memory of nodes.

    The C code works on heap cells linked by [left], [right] and [parent]
    pointers and mutates them in place.  The embedding keeps that shape:
    a world holds the allocated [Node] cells and [RBTree] headers, every
    field access is a load or a store that faults on a NULL or dangling
    pointer, and the recursive functions take a fuel argument. *)

From stdpp Require Import gmap list sorting.
From Stdlib Require Import ZArith Lia.
From Stdlib Require Floats Ascii.

(** ** Data model *)

Inductive Color := RED | BLACK.

#[global] Instance Color_eq_dec : EqDecision Color.
Proof. solve_decision. Defined.

(** A pointer is an address or NULL ([None]). *)
Abbreviation ptr := (option positive) (only parsing).

(** [struct Node]: element pointers ([void *]) are addresses, NULL is [0]. *)
Record Node := mkNode {
  left : ptr;
  right : ptr;
  parent : ptr;
  data : Z;
  color : Color
}.

(** [struct RBTree].  The comparator is a pure function of the two element
    pointers; the destructor is an opaque callback known by its address.
    The header that declares the struct is not part of the sources: the
    element count is taken as an unbounded integer. *)
Record RBTree := mkRBTree {
  root : ptr;
  compFunc : Z → Z → Z;
  freeFunc : Z;
  size : Z
}.

(** Calls of the caller-supplied capabilities are recorded, newest first. *)
Inductive Event :=
| EvComp (a b : Z)
| EvFree (f : Z) (d : Z)
| EvVisit (d : Z).

(** The memory and the outside world: the allocated node cells and tree
    headers, the next unused address, the number of cells [malloc] can
    still hand out, and the log of callback calls. *)
#[projections(primitive)]
Record World := mkWorld {
  nodes : gmap positive Node;
  trees : gmap positive RBTree;
  next : positive;
  cap : nat;
  log : list Event
}.

(** The constants of RBTree.c; [NULL] is the NULL element pointer. *)
Definition NULL : Z := 0.
Definition START_SIZE : Z := 0.
Definition RIGHT_CHILD : Z := 1.
Definition LEFT_CHILD : Z := -1.
Definition FAILURE : Z := 0.
Definition SUCCESS : Z := 1.

(** ** The memory monad *)

(** A computation returns a value and a new world, faults on a bad
    pointer, or stops because its fuel ran out. *)
Inductive Res (A : Type) :=
| Ok (a : A) (w : World)
| Fault
| OutOfFuel.
Arguments Ok {A} a w.
Arguments Fault {A}.
Arguments OutOfFuel {A}.

Definition M (A : Type) := World → Res A.

Definition ret {A} (a : A) : M A := fun w => Ok a w.

Definition bind {A B} (m : M A) (f : A → M B) : M B :=
  fun w => match m w with
           | Ok a w' => f a w'
           | Fault => Fault
           | OutOfFuel => OutOfFuel
           end.

Notation "'let*' x := m 'in' k" := (bind m (fun x => k))
  (at level 10, x name, m at level 200, k at level 200).
Notation "m ;;; k" := (bind m (fun _ => k))
  (at level 100, right associativity).

Definition out_of_fuel {A} : M A := fun _ => OutOfFuel.

Definition set_nodes (f : gmap positive Node → gmap positive Node) (w : World) : World :=
  mkWorld (f (nodes w)) (trees w) (next w) (cap w) (log w).

Definition set_trees (f : gmap positive RBTree → gmap positive RBTree) (w : World) : World :=
  mkWorld (nodes w) (f (trees w)) (next w) (cap w) (log w).

Definition emit (e : Event) : M unit :=
  fun w => Ok tt (mkWorld (nodes w) (trees w) (next w) (cap w) (e :: log w)).

(** [p->field] *)
Definition load {A} (f : Node → A) (p : ptr) : M A :=
  fun w => match p with
           | None => Fault
           | Some a => match nodes w !! a with
                       | Some n => Ok (f n) w
                       | None => Fault
                       end
           end.

(** [p->field = v] *)
Definition store (f : Node → Node) (p : ptr) : M unit :=
  fun w => match p with
           | None => Fault
           | Some a => match nodes w !! a with
                       | Some n => Ok tt (set_nodes (insert a (f n)) w)
                       | None => Fault
                       end
           end.

Definition with_left (v : ptr) (n : Node) := mkNode v (right n) (parent n) (data n) (color n).
Definition with_right (v : ptr) (n : Node) := mkNode (left n) v (parent n) (data n) (color n).
Definition with_parent (v : ptr) (n : Node) := mkNode (left n) (right n) v (data n) (color n).
Definition with_data (v : Z) (n : Node) := mkNode (left n) (right n) (parent n) v (color n).
Definition with_color (v : Color) (n : Node) := mkNode (left n) (right n) (parent n) (data n) v.

(** [tree->field] *)
Definition tload {A} (f : RBTree → A) (t : ptr) : M A :=
  fun w => match t with
           | None => Fault
           | Some a => match trees w !! a with
                       | Some n => Ok (f n) w
                       | None => Fault
                       end
           end.

Definition tstore (f : RBTree → RBTree) (t : ptr) : M unit :=
  fun w => match t with
           | None => Fault
           | Some a => match trees w !! a with
                       | Some n => Ok tt (set_trees (insert a (f n)) w)
                       | None => Fault
                       end
           end.

Definition with_root (v : ptr) (t : RBTree) := mkRBTree v (compFunc t) (freeFunc t) (size t).
Definition with_compFunc (v : Z → Z → Z) (t : RBTree) := mkRBTree (root t) v (freeFunc t) (size t).
Definition with_freeFunc (v : Z) (t : RBTree) := mkRBTree (root t) (compFunc t) v (size t).
Definition with_size (v : Z) (t : RBTree) := mkRBTree (root t) (compFunc t) (freeFunc t) v.

(** [malloc(sizeof(Node))]: NULL when no cell is left, else a fresh cell
    whose content the caller has to initialise (every caller overwrites
    all fields before reading any). *)
Definition malloc_Node : M ptr :=
  fun w => match cap w with
           | O => Ok None w
           | S c => Ok (Some (next w))
                       (mkWorld (<[next w := mkNode None None None 0 RED]> (nodes w))
                                (trees w) (Pos.succ (next w)) c (log w))
           end.

(** [malloc(sizeof(RBTree))] *)
Definition malloc_RBTree : M ptr :=
  fun w => match cap w with
           | O => Ok None w
           | S c => Ok (Some (next w))
                       (mkWorld (nodes w)
                                (<[next w := mkRBTree None (fun _ _ => 0%Z) 0 0]> (trees w))
                                (Pos.succ (next w)) c (log w))
           end.

(** [free(node)] *)
Definition free_Node (p : ptr) : M unit :=
  fun w => match p with
           | None => Ok tt w
           | Some a => match nodes w !! a with
                       | Some _ => Ok tt (mkWorld (delete a (nodes w)) (trees w) (next w)
                                                  (S (cap w)) (log w))
                       | None => Fault
                       end
           end.

(** [free(tree)] *)
Definition free_RBTree (p : ptr) : M unit :=
  fun w => match p with
           | None => Ok tt w
           | Some a => match trees w !! a with
                       | Some _ => Ok tt (mkWorld (nodes w) (delete a (trees w)) (next w)
                                                  (S (cap w)) (log w))
                       | None => Fault
                       end
           end.

(** Calls through the function pointers. *)
Definition call_comp (f : Z → Z → Z) (a b : Z) : M Z :=
  emit (EvComp a b) ;;; ret (f a b).

Definition call_free (f : Z) (d : Z) : M unit := emit (EvFree f d).

(** ** The functions of RBTree.c

    Each function follows its C text statement by statement; the
    diagnostic [fprintf] on a failed allocation is left out.  Locals named
    like a field carry a suffix ([par] for [parent], [data0] for [data]). *)

Definition newRBTree (compFunc0 : Z → Z → Z) (freeFunc0 : Z) : M ptr :=
  let* newTree := malloc_RBTree in
  if decide (newTree = None) then ret None
  else
    tstore (with_root None) newTree ;;;
    tstore (with_compFunc compFunc0) newTree ;;;
    tstore (with_freeFunc freeFunc0) newTree ;;;
    tstore (with_size START_SIZE) newTree ;;;
    ret newTree.

Definition isRightChild (compFunc0 : Z → Z → Z) (toCheck : ptr) : M Z :=
  let* par := load parent toCheck in
  if decide (par = None) then ret 0%Z
  else
    let* pr := load right par in
    if decide (pr ≠ None) then
      let* rd := load data pr in
      let* td := load data toCheck in
      let* c := call_comp compFunc0 rd td in
      if decide (c = 0%Z) then ret RIGHT_CHILD else ret LEFT_CHILD
    else ret LEFT_CHILD.

Definition findUncle (toFind : ptr) (tree : ptr) : M ptr :=
  let* cf := tload compFunc tree in
  let* par := load parent toFind in
  let* side := isRightChild cf par in
  if decide (side = RIGHT_CHILD) then
    let* par := load parent toFind in
    let* gp := load parent par in
    load left gp
  else
    let* par := load parent toFind in
    let* gp := load parent par in
    load right gp.

Definition leftRightSwitch (newNode par grandparent : ptr) : M unit :=
  let* nl := load left newNode in
  store (with_right nl) par ;;;
  let* nl := load left newNode in
  (if decide (nl ≠ None) then store (with_parent par) nl else ret tt) ;;;
  store (with_left par) newNode ;;;
  store (with_parent newNode) par ;;;
  store (with_parent grandparent) newNode ;;;
  store (with_left newNode) grandparent.

Definition leftLeftSwitch (par grandparent : ptr) (tree : ptr) : M unit :=
  let* gpp := load parent grandparent in
  store (with_parent gpp) par ;;;
  let* pp := load parent par in
  (if decide (pp = None) then tstore (with_root par) tree
   else
     let* cf := tload compFunc tree in
     let* side := isRightChild cf grandparent in
     let* gpp := load parent grandparent in
     if decide (side = RIGHT_CHILD) then store (with_right par) gpp
     else store (with_left par) gpp) ;;;
  let* pr := load right par in
  store (with_left pr) grandparent ;;;
  let* pr := load right par in
  (if decide (pr ≠ None) then store (with_parent grandparent) pr else ret tt) ;;;
  store (with_right grandparent) par ;;;
  store (with_parent par) grandparent.

Definition rightLeftSwitch (newNode par grandparent : ptr) : M unit :=
  let* nr := load right newNode in
  store (with_left nr) par ;;;
  let* nr := load right newNode in
  (if decide (nr ≠ None) then store (with_parent par) nr else ret tt) ;;;
  store (with_right par) newNode ;;;
  store (with_parent newNode) par ;;;
  store (with_right newNode) grandparent ;;;
  store (with_parent grandparent) newNode.

Definition rightRightSwitch (par grandparent : ptr) (tree : ptr) : M unit :=
  let* gpp := load parent grandparent in
  store (with_parent gpp) par ;;;
  let* pp := load parent par in
  (if decide (pp = None) then tstore (with_root par) tree
   else
     let* cf := tload compFunc tree in
     let* side := isRightChild cf grandparent in
     let* gpp := load parent grandparent in
     if decide (side = RIGHT_CHILD) then store (with_right par) gpp
     else store (with_left par) gpp) ;;;
  let* pl := load left par in
  store (with_right pl) grandparent ;;;
  let* pl := load left par in
  (if decide (pl ≠ None) then store (with_parent grandparent) pl else ret tt) ;;;
  store (with_left grandparent) par ;;;
  store (with_parent par) grandparent.

Definition modifyRedBlack (newNode par grandparent : ptr) (tree : ptr) : M unit :=
  let* cf := tload compFunc tree in
  let* nChildType := isRightChild cf newNode in
  let* cf := tload compFunc tree in
  let* pChildType := isRightChild cf par in
  let* par' :=
    (if decide (pChildType = LEFT_CHILD) then
       let* par1 := (if decide (nChildType = RIGHT_CHILD) then
                 leftRightSwitch newNode par grandparent ;;; ret newNode
               else ret par) in
       leftLeftSwitch par1 grandparent tree ;;; ret par1
     else if decide (pChildType = RIGHT_CHILD) then
       let* par1 := (if decide (nChildType = LEFT_CHILD) then
                 rightLeftSwitch newNode par grandparent ;;; ret newNode
               else ret par) in
       rightRightSwitch par1 grandparent tree ;;; ret par1
     else ret par) in
  store (with_color BLACK) par' ;;;
  store (with_color RED) grandparent.

Fixpoint modifyNode (fuel : nat) (toModify : ptr) (tree : ptr) : M unit :=
  match fuel with
  | O => out_of_fuel
  | S fuel' =>
    let* r := tload root tree in
    if decide (toModify = r) then store (with_color BLACK) toModify
    else
      let* par := load parent toModify in
      let* pc := load color par in
      if decide (pc = BLACK) then ret tt
      else
        let* uncle := findUncle toModify tree in
        let* grandparent := load parent par in
        if decide (uncle ≠ None) then
          let* uc := load color uncle in
          if decide (uc = RED) then
            store (with_color BLACK) par ;;;
            store (with_color BLACK) uncle ;;;
            store (with_color RED) grandparent ;;;
            modifyNode fuel' grandparent tree
          else modifyRedBlack toModify par grandparent tree
        else modifyRedBlack toModify par grandparent tree
  end.

Fixpoint addNewNode (fuel : nat) (compToNode addNode : ptr) (compFunc0 : Z → Z → Z) : M Z :=
  match fuel with
  | O => out_of_fuel
  | S fuel' =>
    let* ad := load data addNode in
    let* cd := load data compToNode in
    let* compare := call_comp compFunc0 ad cd in
    if decide (compare = 0)%Z then ret FAILURE
    else if decide (compare < 0)%Z then
      let* cl := load left compToNode in
      if decide (cl = None) then
        store (with_left addNode) compToNode ;;;
        store (with_parent compToNode) addNode ;;;
        ret SUCCESS
      else addNewNode fuel' cl addNode compFunc0
    else
      let* cr := load right compToNode in
      if decide (cr = None) then
        store (with_right addNode) compToNode ;;;
        store (with_parent compToNode) addNode ;;;
        ret SUCCESS
      else addNewNode fuel' cr addNode compFunc0
  end.

Definition makeNewNode (data0 : Z) : M ptr :=
  let* newNode := malloc_Node in
  if decide (newNode = None) then ret None
  else
    store (with_right None) newNode ;;;
    store (with_left None) newNode ;;;
    store (with_parent None) newNode ;;;
    store (with_data data0) newNode ;;;
    store (with_color RED) newNode ;;;
    ret newNode.

Fixpoint freeNodes (fuel : nat) (node : ptr) (freeFunc0 : Z) : M unit :=
  match fuel with
  | O => out_of_fuel
  | S fuel' =>
    if decide (node ≠ None) then
      let* nl := load left node in
      (if decide (nl ≠ None) then freeNodes fuel' nl freeFunc0 else ret tt) ;;;
      let* nr := load right node in
      (if decide (nr ≠ None) then freeNodes fuel' nr freeFunc0 else ret tt) ;;;
      let* nd := load data node in
      (if decide (nd ≠ NULL) then
         call_free freeFunc0 nd ;;; store (with_data NULL) node
       else ret tt) ;;;
      free_Node node
    else ret tt
  end.

(** [added] is false when the duplicate branch returned early. *)
Definition addToRBTree (fuel : nat) (tree : ptr) (data0 : Z) : M Z :=
  let* newNode := makeNewNode data0 in
  if decide (newNode = None) then ret FAILURE
  else
    let* r := tload root tree in
    let* added :=
      (if decide (r = None) then tstore (with_root newNode) tree ;;; ret true
       else
         let* r := tload root tree in
         let* cf := tload compFunc tree in
         let* res := addNewNode fuel r newNode cf in
         if decide (res = 0)%Z then free_Node newNode ;;; ret false
         else ret true) in
    if added : bool then
      modifyNode fuel newNode tree ;;;
      let* sz := tload size tree in
      tstore (with_size (sz + 1)) tree ;;;
      ret SUCCESS
    else ret FAILURE.

(** The [while] loop of [containsRBTree].  When none of the three
    comparisons of the [if]/[else if] chain holds, the loop goes round
    with the same node. *)
Fixpoint containsLoop (fuel : nat) (tree : ptr) (curNode : ptr) (data0 : Z) : M Z :=
  match fuel with
  | O => out_of_fuel
  | S fuel' =>
    if decide (curNode = None) then ret FAILURE
    else
      let* cd := load data curNode in
      if decide (cd = NULL) then ret FAILURE
      else
        let* cf := tload compFunc tree in
        let* cd := load data curNode in
        let* comp := call_comp cf cd data0 in
        if decide (comp = 0)%Z then ret SUCCESS
        else if decide (comp > 0)%Z then
          let* cl := load left curNode in containsLoop fuel' tree cl data0
        else if decide (comp < 0)%Z then
          let* cr := load right curNode in containsLoop fuel' tree cr data0
        else containsLoop fuel' tree curNode data0
  end.

Definition containsRBTree (fuel : nat) (tree : ptr) (data0 : Z) : M Z :=
  if decide (tree = None) then ret FAILURE
  else if decide (data0 = NULL) then ret FAILURE
  else
    let* r := tload root tree in
    if decide (r = None) then ret FAILURE
    else
      let* curNode := tload root tree in
      containsLoop fuel tree curNode data0.

(** The visitor reads the element and updates the caller's [args]. *)
Definition ForEachFunc (A : Type) := Z → A → Z * A.

Definition call_func {A} (func : ForEachFunc A) (d : Z) (args : A) : M (Z * A) :=
  emit (EvVisit d) ;;; ret (func d args).

(** The traversal returns its [int] result together with the state the
    visitor left in [args]. *)
Fixpoint forEachNode {A} (fuel : nat) (node : ptr) (func : ForEachFunc A) (args : A)
  : M (Z * A) :=
  match fuel with
  | O => out_of_fuel
  | S fuel' =>
    let* nl := load left node in
    let* ra := (if decide (nl ≠ None) then forEachNode fuel' nl func args
                else ret (SUCCESS, args)) in
    if decide (ra.1 = FAILURE) then ret (FAILURE, ra.2)
    else
      let* nd := load data node in
      let* rb := call_func func nd ra.2 in
      if decide (rb.1 = 0)%Z then ret (FAILURE, rb.2)
      else
        let* nr := load right node in
        let* rc := (if decide (nr ≠ None) then forEachNode fuel' nr func rb.2
                    else ret (SUCCESS, rb.2)) in
        if decide (rc.1 = FAILURE) then ret (FAILURE, rc.2)
        else ret (SUCCESS, rc.2)
  end.

Definition forEachRBTree {A} (fuel : nat) (tree : ptr) (func : option (ForEachFunc A))
    (args : A) : M (Z * A) :=
  match tree, func with
  | Some _, Some f =>
    let* r := tload root tree in
    forEachNode fuel r f args
  | _, _ => ret (FAILURE, args)
  end.

Definition freeRBTree (fuel : nat) (tree : ptr) : M unit :=
  if decide (tree ≠ None) then
    let* r := tload root tree in
    (if decide (r ≠ None) then
       let* r := tload root tree in
       let* ff := tload freeFunc tree in
       freeNodes fuel r ff
     else ret tt) ;;;
    free_RBTree tree
  else ret tt.

(** ** Abstract trees and their representation in memory *)

(** A binary tree whose nodes carry their address, element and colour. *)
Inductive tree :=
| E
| T (c : Color) (l : tree) (a : positive) (d : Z) (r : tree).

Definition root_of (t : tree) : option positive :=
  match t with E => None | T _ _ a _ _ => Some a end.

(** [heap_repr m par t]: the cells of [m] hold the tree [t], whose root has
    parent pointer [par]. *)
Fixpoint heap_repr (m : gmap positive Node) (par : option positive) (t : tree) : Prop :=
  match t with
  | E => True
  | T c l a d r =>
    m !! a = Some (mkNode (root_of l) (root_of r) par d c)
    ∧ heap_repr m (Some a) l ∧ heap_repr m (Some a) r
  end.

Fixpoint inorder {A} (f : positive → Z → A) (t : tree) : list A :=
  match t with
  | E => []
  | T _ l a d r => inorder f l ++ f a d :: inorder f r
  end.

Abbreviation addrs := (inorder (λ a _, a)).
Abbreviation elems := (inorder (λ _ d, d)).

Fixpoint height (t : tree) : nat :=
  match t with
  | E => 0
  | T _ l _ _ r => S (height l `max` height r)
  end.

(** One-hole contexts: the path from a position up to the root. *)
Inductive ctx :=
| Top
| CL (c : Color) (a : positive) (d : Z) (up : ctx) (r : tree)
| CR (c : Color) (l : tree) (a : positive) (d : Z) (up : ctx).

Fixpoint plug (k : ctx) (t : tree) : tree :=
  match k with
  | Top => t
  | CL c a d up r => plug up (T c t a d r)
  | CR c l a d up => plug up (T c l a d t)
  end.

Definition ctx_par (k : ctx) : option positive :=
  match k with
  | Top => None
  | CL _ a _ _ _ | CR _ _ a _ _ => Some a
  end.

Fixpoint ctx_depth (k : ctx) : nat :=
  match k with
  | Top => 0
  | CL _ _ _ up _ | CR _ _ _ _ up => S (ctx_depth up)
  end.

(** Elements of the context before and after the hole, in order. *)
Fixpoint ctx_before {A} (f : positive → Z → A) (k : ctx) : list A :=
  match k with
  | Top => []
  | CL _ _ _ up _ => ctx_before f up
  | CR _ l a d up => ctx_before f up ++ inorder f l ++ [f a d]
  end.

Fixpoint ctx_after {A} (f : positive → Z → A) (k : ctx) : list A :=
  match k with
  | Top => []
  | CL _ a d up r => f a d :: inorder f r ++ ctx_after f up
  | CR _ _ _ _ up => ctx_after f up
  end.

(** [ctx_repr m k h]: the cells of [m] hold the context [k], the child
    pointer at the hole being [h]. *)
Fixpoint ctx_repr (m : gmap positive Node) (k : ctx) (h : option positive) : Prop :=
  match k with
  | Top => True
  | CL c a d up r =>
    m !! a = Some (mkNode h (root_of r) (ctx_par up) d c)
    ∧ heap_repr m (Some a) r ∧ ctx_repr m up (Some a)
  | CR c l a d up =>
    m !! a = Some (mkNode (root_of l) h (ctx_par up) d c)
    ∧ heap_repr m (Some a) l ∧ ctx_repr m up (Some a)
  end.

(** The root pointer of a plugged tree whose hole holds the pointer [h]. *)
Fixpoint ctx_root (k : ctx) (h : option positive) : option positive :=
  match k with
  | Top => h
  | CL _ a _ up _ | CR _ _ a _ up => ctx_root up (Some a)
  end.

(** ** Red-black and ordering invariants on abstract trees *)

Definition root_black (t : tree) : Prop :=
  match t with E => True | T c _ _ _ _ => c = BLACK end.

(** No RED node has a RED child. *)
Fixpoint no_red_red (t : tree) : Prop :=
  match t with
  | E => True
  | T c l _ _ r =>
    (c = RED → root_black l ∧ root_black r) ∧ no_red_red l ∧ no_red_red r
  end.

(** [bh t n]: every path from the root of [t] to an absent child crosses
    exactly [n] BLACK nodes. *)
Fixpoint bh (t : tree) (n : nat) : Prop :=
  match t with
  | E => n = 0%nat
  | T RED l _ _ r => bh l n ∧ bh r n
  | T BLACK l _ _ r =>
    match n with
    | O => False
    | S n' => bh l n' ∧ bh r n'
    end
  end.

(** The number of BLACK nodes on each path from the root of [t] to an
    absent-child position, one entry per path. *)
Fixpoint black_counts (t : tree) : list nat :=
  match t with
  | E => [0%nat]
  | T c l _ _ r =>
    (λ n, match c with BLACK => S n | RED => n end) <$> (black_counts l ++ black_counts r)
  end.

(** [subtree s t]: [s] is [t] or the tree below one of the nodes of [t]. *)
Fixpoint subtree (s t : tree) : Prop :=
  s = t ∨ match t with
          | E => False
          | T _ l _ _ r => subtree s l ∨ subtree s r
          end.

Definition is_redblack (t : tree) : Prop :=
  root_black t ∧ no_red_red t ∧ ∃ n, bh t n.

(** ** The comparator contract *)

(** A consistent comparator: the sign of [cmp x y] is a strict order on the
    elements, and elements that compare equal are interchangeable. *)
Record Comparator (cmp : Z → Z → Z) : Prop := {
  cmp_antisym : ∀ x y, Z.sgn (cmp y x) = (- Z.sgn (cmp x y))%Z;
  cmp_trans : ∀ x y z, (cmp x y < 0)%Z → (cmp y z < 0)%Z → (cmp x z < 0)%Z;
  cmp_equiv : ∀ x y z, cmp x y = 0%Z → (cmp x z < 0)%Z → (cmp y z < 0)%Z
}.

Definition lt_of (cmp : Z → Z → Z) (x y : Z) : Prop := (cmp x y < 0)%Z.

(** Strictly ascending in comparator order. *)
Definition ascending (cmp : Z → Z → Z) (l : list Z) : Prop :=
  StronglySorted (lt_of cmp) l.

(** ** Functional counterparts of the pointer algorithms *)

(** The position [addNewNode] walks to: the context of the absent child
    where the new node is attached, or [None] on an equal element. *)
Fixpoint descend (cmp : Z → Z → Z) (x : Z) (k : ctx) (s : tree) : option ctx :=
  match s with
  | E => Some k
  | T c l a d r =>
    if decide (cmp x d = 0)%Z then None
    else if decide (cmp x d < 0)%Z then descend cmp x (CL c a d k r) l
    else descend cmp x (CR c l a d k) r
  end.

Definition is_red (t : tree) : bool :=
  match t with T RED _ _ _ _ => true | _ => false end.

Definition recolor (c : Color) (t : tree) : tree :=
  match t with E => E | T _ l a d r => T c l a d r end.

(** The tree [modifyNode] leaves behind when started on the root of [s]
    sitting in context [k]. *)
Fixpoint fixup (k : ctx) (s : tree) : tree :=
  match k with
  | Top => recolor BLACK s
  | CL BLACK _ _ _ _ | CR BLACK _ _ _ _ => plug k s
  | CL RED pa pd up ps =>
    match up with
    | Top => plug k s
    | CL gc ga gd up' u =>
      if is_red u then fixup up' (T RED (T BLACK s pa pd ps) ga gd (recolor BLACK u))
      else plug up' (T BLACK s pa pd (T RED ps ga gd u))
    | CR gc u ga gd up' =>
      if is_red u then fixup up' (T RED (recolor BLACK u) ga gd (T BLACK s pa pd ps))
      else match s with
           | E => plug k s
           | T _ nl na nd nr => plug up' (T BLACK (T RED u ga gd nl) na nd (T RED nr pa pd ps))
           end
    end
  | CR RED ps pa pd up =>
    match up with
    | Top => plug k s
    | CL gc ga gd up' u =>
      if is_red u then fixup up' (T RED (T BLACK ps pa pd s) ga gd (recolor BLACK u))
      else match s with
           | E => plug k s
           | T _ nl na nd nr => plug up' (T BLACK (T RED ps pa pd nl) na nd (T RED nr ga gd u))
           end
    | CR gc u ga gd up' =>
      if is_red u then fixup up' (T RED (recolor BLACK u) ga gd (T BLACK ps pa pd s))
      else plug up' (T BLACK (T RED u ga gd ps) pa pd s)
    end
  end.

(** Insertion on abstract trees: descend, attach a RED leaf at address
    [a], repair; [None] when an equal element is met. *)
Definition insert_t (cmp : Z → Z → Z) (x : Z) (a : positive) (t : tree) : option tree :=
  match descend cmp x Top t with
  | None => None
  | Some k => Some (fixup k (T RED E a x E))
  end.

(** The search of [containsRBTree] read off the abstract tree. *)
Fixpoint contains_t (cmp : Z → Z → Z) (x : Z) (t : tree) : Z :=
  match t with
  | E => FAILURE
  | T _ l _ d r =>
    if decide (d = NULL) then FAILURE
    else if decide (cmp d x = 0)%Z then SUCCESS
    else if decide (cmp d x > 0)%Z then contains_t cmp x l
    else contains_t cmp x r
  end.

(** Running a visitor over a list of elements until it asks to stop:
    the result, the final [args] and the elements it was called on. *)
Fixpoint run_visitor {A} (func : ForEachFunc A) (xs : list Z) (args : A) : Z * A * list Z :=
  match xs with
  | [] => (SUCCESS, args, [])
  | x :: xs' =>
    let ra := func x args in
    if decide (ra.1 = 0)%Z then (FAILURE, ra.2, [x])
    else let res := run_visitor func xs' ra.2 in (res.1.1, res.1.2, x :: res.2)
  end.

(** [stops_at func xs args k]: run over [xs] from [args], the visitor
    signals stop on the [k]-th element (counted from 1) and continue on
    all earlier ones. *)
Fixpoint stops_at {A} (func : ForEachFunc A) (xs : list Z) (args : A) (k : nat) : Prop :=
  match xs, k with
  | x :: xs', S k' =>
    match k' with
    | O => (func x args).1 = 0%Z
    | S _ => (func x args).1 ≠ 0%Z ∧ stops_at func xs' (func x args).2 k'
    end
  | _, _ => False
  end.

(** Elements in post-order: left subtree, right subtree, then the node. *)
Fixpoint postorder (t : tree) : list Z :=
  match t with
  | E => []
  | T _ l _ d r => postorder l ++ postorder r ++ [d]
  end.

(** The node store after every node of [t] has been released. *)
Fixpoint free_t (t : tree) (m : gmap positive Node) : gmap positive Node :=
  match t with
  | E => m
  | T _ l a _ r => delete a (free_t r (free_t l m))
  end.

(** The destructor calls of a teardown: each stored non-NULL element, in
    post-order. *)
Definition destroyed (ff : Z) (t : tree) : list Event :=
  EvFree ff <$> filter (λ d, d ≠ NULL) (postorder t).

(** ** Worlds, their invariants and the trees reached by insertions *)

Definition add_log (es : list Event) (w : World) : World :=
  mkWorld (nodes w) (trees w) (next w) (cap w) (es ++ log w).

(** The world after the visitor was called on [vs], in that order. *)
Definition visited (vs : list Z) (w : World) : World :=
  add_log (rev (EvVisit <$> vs)) w.

Definition is_comp (e : Event) : Prop :=
  match e with EvComp _ _ => True | _ => False end.

(** Every address at or above the allocation pointer is unused. *)
Definition alloc_ok (w : World) : Prop :=
  ∀ x, (next w ≤ x)%positive → nodes w !! x = None ∧ trees w !! x = None.

(** [tree_at cmp ff w tr t n]: header [tr] of world [w] describes the tree
    [t] with [n] elements, comparator [cmp] and destructor [ff]. *)
Definition tree_at (cmp : Z → Z → Z) (ff : Z) (w : World) (tr : positive) (t : tree) (n : Z)
  : Prop :=
  trees w !! tr = Some (mkRBTree (root_of t) cmp ff n)
  ∧ heap_repr (nodes w) None t
  ∧ NoDup (addrs t).

(** The invariant of a tree built by insertions. *)
Definition rbtree_inv (cmp : Z → Z → Z) (ff : Z) (w : World) (tr : positive) (t : tree) (n : Z)
  : Prop :=
  tree_at cmp ff w tr t n ∧ ascending cmp (elems t) ∧ is_redblack t ∧ alloc_ok w.

(** Worlds reached from a fresh tree by completed calls of [addToRBTree];
    the list holds the elements whose insertion succeeded, newest first. *)
Inductive built (cmp : Z → Z → Z) (ff : Z) (tr : positive) : World → list Z → Prop :=
| built_new w0 w :
    alloc_ok w0 →
    newRBTree cmp ff w0 = Ok (Some tr) w →
    built cmp ff tr w []
| built_add w xs fuel x w' :
    built cmp ff tr w xs →
    addToRBTree fuel (Some tr) x w = Ok SUCCESS w' →
    built cmp ff tr w' (x :: xs)
| built_rejected w xs fuel x w' :
    built cmp ff tr w xs →
    addToRBTree fuel (Some tr) x w = Ok FAILURE w' →
    built cmp ff tr w' xs.

(** What [addToRBTree] returns and leaves behind, started in world [w] on
    a tree [t] of [n] elements. *)
Definition addToRBTree_post (cmp : Z → Z → Z) (ff : Z) (tr : positive) (w : World)
    (t : tree) (n : Z) (x : Z) (res : Z) (w' : World) : Prop :=
  match cap w with
  | O => res = FAILURE ∧ w' = w
  | S _ =>
    match insert_t cmp x (next w) t with
    | None =>
      res = FAILURE ∧
      ∃ es, Forall is_comp es ∧
            w' = mkWorld (nodes w) (trees w) (Pos.succ (next w)) (cap w) (es ++ log w)
    | Some t' =>
      res = SUCCESS ∧ rbtree_inv cmp ff w' tr t' (n + 1)
    end
  end.

(** A chain of [n] parent pointers leads from [a] to a node without parent. *)
Inductive pchain (m : gmap positive Node) : positive → nat → Prop :=
| pchain_root a nd :
    m !! a = Some nd → parent nd = None → pchain m a 0
| pchain_step a nd p n :
    m !! a = Some nd → parent nd = Some p → pchain m p n → pchain m a (S n).

(** ** Colour rules along a context *)

(** A RED node of the context is never the root. *)
Fixpoint red_not_root (k : ctx) : Prop :=
  match k with
  | Top => True
  | CL c _ _ up _ | CR c _ _ _ up => (c = RED → up ≠ Top) ∧ red_not_root up
  end.

Definition ctx_black (k : ctx) : Prop :=
  match k with
  | Top => False
  | CL c _ _ _ _ | CR c _ _ _ _ => c = BLACK
  end.

(** [ctx_rb k n]: the context obeys the colour rules and awaits, at its
    hole, a subtree of black height [n]. *)
Fixpoint ctx_rb (k : ctx) (n : nat) : Prop :=
  match k with
  | Top => True
  | CL c _ _ up r | CR c r _ _ up =>
    bh r n ∧ no_red_red r ∧
    match c with
    | RED => root_black r ∧ ctx_black up ∧ ctx_rb up n
    | BLACK => ctx_rb up (S n)
    end
  end.

(** ** Weakest preconditions and properties of computations *)

(** Total: the computation returns, without fault and within its fuel. *)
Definition wp {A} (m : M A) (w : World) (Q : A → World → Prop) : Prop :=
  match m w with
  | Ok a w' => Q a w'
  | _ => False
  end.

(** Fault-tolerant: the computation does not run out of fuel. *)
Definition wpf {A} (m : M A) (w : World) (Q : A → World → Prop) : Prop :=
  match m w with
  | Ok a w' => Q a w'
  | Fault => True
  | OutOfFuel => False
  end.

(** Partial: whatever the computation returns satisfies [Q]. *)
Definition wlp {A} (m : M A) (w : World) (Q : A → World → Prop) : Prop :=
  match m w with
  | Ok a w' => Q a w'
  | _ => True
  end.

(** A computation that never breaks [alloc_ok]. *)
Definition keeps_alloc {A} (m : M A) : Prop :=
  ∀ w, alloc_ok w → wlp m w (λ _ w', alloc_ok w').

(** A computation that leaves the node store as it found it. *)
Definition keeps_nodes {A} (m : M A) : Prop :=
  ∀ w, wlp m w (λ _ w', nodes w' = nodes w).

(** A computation that returns or faults, but never asks for more fuel. *)
Definition never_out_of_fuel {A} (m : M A) : Prop := ∀ w, m w ≠ OutOfFuel.

(** [m1 ⊑ m2]: whatever [m1] returns, [m2] returns too. *)
Definition refines {A} (m1 m2 : M A) : Prop :=
  ∀ w a w', m1 w = Ok a w' → m2 w = Ok a w'.

(** ** Auxiliary predicates on lists *)

(** Two address lists without a common element. *)
Definition ldisj (l1 l2 : list positive) : Prop := ∀ x, x ∈ l1 → x ∉ l2.

(** [x] below every element of [l]; every element of [l] below [x];
    every element of [l1] below every element of [l2]. *)
Definition all_lt (cmp : Z → Z → Z) (x : Z) (l : list Z) : Prop :=
  Forall (lt_of cmp x) l.

Definition all_gt (cmp : Z → Z → Z) (x : Z) (l : list Z) : Prop :=
  Forall (λ y, lt_of cmp y x) l.

Definition lbelow (cmp : Z → Z → Z) (l1 l2 : list Z) : Prop :=
  ∀ x y, x ∈ l1 → y ∈ l2 → lt_of cmp x y.

(** A fact kept aside, out of reach of the normalising tactics. *)
Definition held (P : Prop) : Prop := P.

(** ** A comparator, a world and visitors to run the code on *)

(** A comparator on element addresses. *)
Definition subCompare (a b : Z) : Z := (a - b)%Z.

(** An empty memory with room for eight cells. *)
Definition world0 : World := mkWorld ∅ ∅ 1 8 [].

(** A visitor that collects what it sees and never stops. *)
Definition collect : ForEachFunc (list Z) := λ d acc, (1%Z, d :: acc).

(** A visitor that stops on the element [20]. *)
Definition until20 : ForEachFunc (list Z) :=
  λ d acc, (if decide (d = 20)%Z then 0%Z else 1%Z, d :: acc).

(** Insert a list of elements, oldest first, ignoring the results. *)
Fixpoint insert_all (fuel : nat) (tree : option positive) (xs : list Z) : M unit :=
  match xs with
  | [] => ret tt
  | x :: xs' => addToRBTree fuel tree x ;;; insert_all fuel tree xs'
  end.

(** The world reached from [world0] by creating a tree with comparator
    [subCompare] and inserting [xs]. *)
Definition world_after (xs : list Z) : World :=
  match (let* t := newRBTree subCompare 7 in insert_all 4 t xs) world0 with
  | Ok _ w => w
  | _ => world0
  end.

(** ** Relations between the worlds before and after a computation *)

(** A computation all of whose results are related to its start by [R]. *)
Definition preserves {A} (R : World → World → Prop) (m : M A) : Prop :=
  ∀ w, wlp m w (λ _ w', R w w').

(** Only comparator calls were logged. *)
Definition R_log (w w' : World) : Prop :=
  ∃ es, Forall is_comp es ∧ log w' = es ++ log w.

(** Every tree header other than [tr] is as it was. *)
Definition R_trees (tr : positive) (w w' : World) : Prop :=
  ∀ x, x ≠ tr → trees w' !! x = trees w !! x.

(** The allocation pointer did not move. *)
Definition R_next (w w' : World) : Prop := next w' = next w.

(** The cells of a world: those [malloc] can still hand out and those in
    use. *)
Definition cells (w : World) : nat := (cap w + base.size (nodes w) + base.size (trees w))%nat.

(** No cell is lost or made up. *)
Definition R_cells (w w' : World) : Prop :=
  alloc_ok w → alloc_ok w' ∧ cells w' = cells w.

(** The part of [addToRBTree] that follows the allocation of the node. *)
Definition addToRBTree_rest (fuel : nat) (tree : ptr) (newNode : ptr) : M Z :=
  let* r := tload root tree in
  let* added :=
    (if decide (r = None) then tstore (with_root newNode) tree ;;; ret true
     else
       let* r := tload root tree in
       let* cf := tload compFunc tree in
       let* res := addNewNode fuel r newNode cf in
       if decide (res = 0)%Z then free_Node newNode ;;; ret false
       else ret true) in
  if added : bool then
    modifyNode fuel newNode tree ;;;
    let* sz := tload size tree in
    tstore (with_size (sz + 1)) tree ;;;
    ret SUCCESS
  else ret FAILURE.

(** ** Memory outside the reach of a computation *)

(** The world [w] with the node cells [F] beside its own. *)
Definition frame_on (F : gmap positive Node) (w : World) : World :=
  set_nodes (λ m, F ∪ m) w.

(** The cells of [F] are none of [w], and lie below its allocation
    pointer. *)
Definition framed (F : gmap positive Node) (w : World) : Prop :=
  ∀ x, is_Some (F !! x) → nodes w !! x = None ∧ (x < next w)%positive.

(** A computation that runs the same way beside any cells it does not
    own, and leaves them alone. *)
Definition local {A} (m : M A) : Prop :=
  ∀ F w a w', framed F w → m w = Ok a w' →
    framed F w' ∧ m (frame_on F w) = Ok a (frame_on F w').

(** [apart_from w0 w tr t]: beside the header [tr] and the nodes of [t],
    the world [w] holds what [w0] held, and [w0] held neither. *)
Definition apart_from (w0 w : World) (tr : positive) (t : tree) : Prop :=
  (∀ a, a ∉ addrs t → nodes w !! a = nodes w0 !! a)
  ∧ (∀ a, a ∈ addrs t → nodes w0 !! a = None)
  ∧ (∀ b, b ≠ tr → trees w !! b = trees w0 !! b)
  ∧ trees w0 !! tr = None.

(** Two trees side by side in one memory: 10 and 30 go into the first,
    20 into the second. *)
Definition two_trees : M unit :=
  let* t1 := newRBTree subCompare 7 in
  let* t2 := newRBTree subCompare 7 in
  addToRBTree 4 t1 10 ;;; addToRBTree 4 t2 20 ;;; addToRBTree 4 t1 30 ;;; ret tt.

Definition world_two : World :=
  match two_trees world0 with
  | Ok _ w => w
  | _ => world0
  end.

(** [reach m p a]: the cell [a] is met when following child pointers of
    [m] from the pointer [p]. *)
Inductive reach (m : gmap positive Node) : ptr → positive → Prop :=
| reach_here a nd : m !! a = Some nd → reach m (Some a) a
| reach_left a nd b : m !! a = Some nd → reach m (left nd) b → reach m (Some a) b
| reach_right a nd b : m !! a = Some nd → reach m (right nd) b → reach m (Some a) b.

(** Worlds caught in the middle of an insertion, after the new node was
    attached and before the fixup: 20 below 10 below 30, and 20 below 30
    below 10. *)
Definition attach (xs : list Z) (x : Z) : World :=
  match (let* cf := tload compFunc (Some 1%positive) in
         let* r := tload root (Some 1%positive) in
         let* n := makeNewNode x in
         addNewNode 4 r n cf) (world_after xs) with
  | Ok _ w => w
  | _ => world0
  end.

Definition world_bent_left : World := attach [30; 10]%Z 20.
Definition world_bent_right : World := attach [10; 30]%Z 20.

(** The nodes of a tree with the element each holds, in order. *)
Abbreviation cells_of := (inorder (λ a d, (a, d))).

(** * Structs.c: the comparators, destructors and visitors of the clients

    The client code keeps its elements in a memory of its own, apart from
    the nodes of the tree: [Vector] structures, reached through the
    element pointers stored in the tree, and the arrays of doubles they
    own.  A double is a binary64 float, compared and added as the hardware
    does. *)

Abbreviation double := PrimFloat.float (only parsing).

(** The constants of Structs.c ([FAILURE] and [SUCCESS] are those of
    RBTree.c). *)
Definition LESS : Z := -1.
Definition EQUAL : Z := 0.
Definition GREATER : Z := 1.

(** [struct Vector].  The header that declares it is not part of the
    sources; the two fields are those the code uses: the number of
    entries and the array holding them. *)
Record Vector := mkVector {
  len : Z;
  vector : ptr
}.

(** The memory of the client: the [Vector] structures by element pointer,
    the arrays of doubles, the next unused address and the number of
    blocks [malloc] can still hand out. *)
Record Heap := mkHeap {
  vectors : gmap Z Vector;
  doubles : gmap positive (list double);
  hnext : positive;
  hcap : nat
}.

Inductive HRes (A : Type) :=
| HOk (a : A) (h : Heap)
| HFault
| HOutOfFuel.
Arguments HOk {A} a h.
Arguments HFault {A}.
Arguments HOutOfFuel {A}.

Definition HM (A : Type) := Heap → HRes A.

Definition hret {A} (a : A) : HM A := fun h => HOk a h.

Definition hbind {A B} (m : HM A) (f : A → HM B) : HM B :=
  fun h => match m h with
           | HOk a h' => f a h'
           | HFault => HFault
           | HOutOfFuel => HOutOfFuel
           end.

Notation "'let+' x := m 'in' k" := (hbind m (fun x => k))
  (at level 10, x name, m at level 200, k at level 200).
Notation "m ;;+ k" := (hbind m (fun _ => k))
  (at level 100, right associativity).

Definition hout_of_fuel {A} : HM A := fun _ => HOutOfFuel.

(** [p->field] on a [Vector *] *)
Definition vload {A} (f : Vector → A) (p : Z) : HM A :=
  fun h => match vectors h !! p with
           | Some v => HOk (f v) h
           | None => HFault
           end.

(** [p->field = x] *)
Definition vstore (f : Vector → Vector) (p : Z) : HM unit :=
  fun h => match vectors h !! p with
           | Some v => HOk tt (mkHeap (<[p := f v]> (vectors h)) (doubles h) (hnext h) (hcap h))
           | None => HFault
           end.

Definition with_len (x : Z) (v : Vector) := mkVector x (vector v).
Definition with_vector (x : ptr) (v : Vector) := mkVector (len v) x.

(** [p[i]] on a [double *]: a fault outside the block. *)
Definition dload (p : ptr) (i : Z) : HM double :=
  fun h => match p with
           | None => HFault
           | Some a =>
             match doubles h !! a with
             | Some xs =>
               if decide (0 ≤ i)%Z then
                 match xs !! Z.to_nat i with
                 | Some x => HOk x h
                 | None => HFault
                 end
               else HFault
             | None => HFault
             end
           end.

(** [p[i] = x] *)
Definition dstore (p : ptr) (i : Z) (x : double) : HM unit :=
  fun h => match p with
           | None => HFault
           | Some a =>
             match doubles h !! a with
             | Some xs =>
               if decide (0 ≤ i < Z.of_nat (length xs))%Z then
                 HOk tt (mkHeap (vectors h) (<[a := <[Z.to_nat i := x]> xs]> (doubles h))
                                (hnext h) (hcap h))
               else HFault
             | None => HFault
             end
           end.

(** [malloc(n * sizeof(double))]: NULL when no block is left or when [n]
    is negative (as a [size_t] the product is then out of reach), else a
    fresh block of [n] doubles of unspecified content, here zeros.  For
    [n = 0] the C standard leaves the choice to the implementation; the
    model hands out an empty block, as glibc does. *)
Definition malloc_doubles (n : Z) : HM ptr :=
  fun h => match hcap h with
           | O => HOk None h
           | S c =>
             if decide (n < 0)%Z then HOk None h
             else HOk (Some (hnext h))
                      (mkHeap (vectors h)
                              (<[hnext h := replicate (Z.to_nat n) PrimFloat.zero]> (doubles h))
                              (Pos.succ (hnext h)) c)
           end.

(** [realloc(p, n * sizeof(double))] on a block in use: NULL, leaving the
    block as it is, when no block is left or [n] is negative; for [n = 0]
    the block is released and NULL returned, as glibc does; else a block
    of [n] doubles that starts with the former content, the former block
    being given up. *)
Definition realloc_doubles (p : ptr) (n : Z) : HM ptr :=
  fun h => match p with
           | None => malloc_doubles n h
           | Some a =>
             match doubles h !! a with
             | None => HFault
             | Some xs =>
               match hcap h with
               | O => HOk None h
               | S _ =>
                 if decide (n < 0)%Z then HOk None h
                 else if decide (n = 0)%Z then
                   HOk None (mkHeap (vectors h) (delete a (doubles h)) (hnext h) (S (hcap h)))
                 else
                   HOk (Some (hnext h))
                       (mkHeap (vectors h)
                               (<[hnext h := take (Z.to_nat n)
                                               (xs ++ replicate (Z.to_nat n) PrimFloat.zero)]>
                                  (delete a (doubles h)))
                               (Pos.succ (hnext h)) (hcap h))
               end
             end
           end.

(** [free(p)] on a [double *] *)
Definition free_doubles (p : ptr) : HM unit :=
  fun h => match p with
           | None => HOk tt h
           | Some a =>
             match doubles h !! a with
             | Some _ => HOk tt (mkHeap (vectors h) (delete a (doubles h)) (hnext h) (S (hcap h)))
             | None => HFault
             end
           end.

(** [malloc(sizeof(Vector))]: the NULL element pointer when no block is
    left. *)
Definition malloc_Vector : HM Z :=
  fun h => match hcap h with
           | O => HOk NULL h
           | S c => HOk (Z.pos (hnext h))
                        (mkHeap (<[Z.pos (hnext h) := mkVector 0 None]> (vectors h)) (doubles h)
                                (Pos.succ (hnext h)) c)
           end.

(** [free(p)] on a [Vector *] *)
Definition free_Vector (p : Z) : HM unit :=
  fun h => if decide (p = NULL) then HOk tt h
           else match vectors h !! p with
                | Some _ => HOk tt (mkHeap (delete p (vectors h)) (doubles h) (hnext h)
                                           (S (hcap h)))
                | None => HFault
                end.

(** ** The functions of Structs.c on vectors

    [a > b] on doubles is [b < a]; the diagnostic [fprintf] on a failed
    allocation is left out. *)

(** The [while] loop of [vectorCompare1By1]: [Some r] when the loop
    returns [r], [None] when it ends. *)
Fixpoint vectorCompareLoop (fuel : nat) (a b : Z) (i : Z) : HM (option Z) :=
  match fuel with
  | O => hout_of_fuel
  | S fuel' =>
    let+ lb := vload len b in
    let+ more := (if decide (lb > i)%Z then
                    let+ la := vload len a in hret (bool_decide (la > i)%Z)
                  else hret false) in
    if more : bool then
      let+ pa := vload vector a in
      let+ vaElement := dload pa i in
      let+ pb := vload vector b in
      let+ vbElement := dload pb i in
      if PrimFloat.ltb vaElement vbElement then hret (Some LESS)
      else if PrimFloat.ltb vbElement vaElement then hret (Some GREATER)
      else vectorCompareLoop fuel' a b (i + 1)
    else hret None
  end.

Definition vectorCompare1By1 (fuel : nat) (a b : Z) : HM Z :=
  if decide (a = NULL ∨ b = NULL) then hret FAILURE
  else
    let+ pb := vload vector b in
    let+ absent := (if decide (pb = None) then hret true
                    else let+ pa := vload vector a in hret (bool_decide (pa = None))) in
    if absent : bool then hret FAILURE
    else
      let+ r := vectorCompareLoop fuel a b 0 in
      match r with
      | Some res => hret res
      | None =>
        let+ la := vload len a in
        let+ lb := vload len b in
        if decide (la < lb)%Z then hret LESS
        else
          let+ la := vload len a in
          let+ lb := vload len b in
          if decide (la > lb)%Z then hret GREATER
          else hret EQUAL
      end.

Definition freeVector (pVector : Z) : HM unit :=
  if decide (pVector ≠ NULL) then
    let+ p := vload vector pVector in
    (if decide (p ≠ None) then
       let+ p := vload vector pVector in
       free_doubles p ;;+
       vstore (with_vector None) pVector
     else hret tt) ;;+
    free_Vector pVector
  else hret tt.

(** The [for] loop of [calculateNorm]. *)
Fixpoint calculateNormLoop (fuel : nat) (pVector : Z) (i : Z) (norm : double) : HM double :=
  match fuel with
  | O => hout_of_fuel
  | S fuel' =>
    let+ l := vload len pVector in
    if decide (i < l)%Z then
      let+ p := vload vector pVector in
      let+ x := dload p i in
      let+ p := vload vector pVector in
      let+ y := dload p i in
      calculateNormLoop fuel' pVector (i + 1) (PrimFloat.add norm (PrimFloat.mul x y))
    else hret norm
  end.

Definition calculateNorm (fuel : nat) (pVector : Z) : HM double :=
  calculateNormLoop fuel pVector 0 PrimFloat.zero.

(** The [for] loop of [copyLarger]. *)
Fixpoint copyLargerLoop (fuel : nat) (curVector maxVector : Z) (i : Z) : HM unit :=
  match fuel with
  | O => hout_of_fuel
  | S fuel' =>
    let+ l := vload len curVector in
    if decide (i < l)%Z then
      let+ pc := vload vector curVector in
      let+ x := dload pc i in
      let+ pm := vload vector maxVector in
      dstore pm i x ;;+
      copyLargerLoop fuel' curVector maxVector (i + 1)
    else hret tt
  end.

Definition copyLarger (fuel : nat) (curVector maxVector : Z) : HM Z :=
  let+ l := vload len curVector in
  vstore (with_len l) maxVector ;;+
  copyLargerLoop fuel curVector maxVector 0 ;;+
  hret SUCCESS.

Definition copyIfNormIsLarger (fuel : nat) (pVector pMaxVector : Z) : HM Z :=
  if decide (pVector = NULL ∨ pMaxVector = NULL) then hret FAILURE
  else
    let+ pm := vload vector pMaxVector in
    if decide (pm = None) then
      let+ l := vload len pVector in
      let+ p := malloc_doubles l in
      vstore (with_vector p) pMaxVector ;;+
      let+ pm := vload vector pMaxVector in
      if decide (pm = None) then hret FAILURE
      else copyLarger fuel pVector pMaxVector
    else
      let+ nc := calculateNorm fuel pVector in
      let+ nm := calculateNorm fuel pMaxVector in
      if PrimFloat.ltb nm nc then
        let+ pm := vload vector pMaxVector in
        let+ l := vload len pVector in
        let+ p := realloc_doubles pm l in
        vstore (with_vector p) pMaxVector ;;+
        let+ pm := vload vector pMaxVector in
        if decide (pm = None) then hret FAILURE
        else copyLarger fuel pVector pMaxVector
      else hret SUCCESS.

(** A visitor of the client seen from the tree: its [args] pointer
    together with the memory that pointer leads into; a visitor that
    faulted or ran out of fuel stays so. *)
Definition as_visitor (f : Z → Z → HM Z) (args : Z) : ForEachFunc (HRes unit) :=
  fun d s =>
    match s with
    | HOk _ h =>
      match f d args h with
      | HOk r h' => (r, HOk tt h')
      | HFault => (0%Z, HFault)
      | HOutOfFuel => (0%Z, HOutOfFuel)
      end
    | _ => (0%Z, s)
    end.

(** What [findMaxNormVectorInTree] returns and leaves behind, in the
    memory of the tree and in that of the client. *)
Inductive FRes :=
| FOk (r : Z) (w : World) (h : Heap)
| FFault
| FOutOfFuel.

Definition findMaxNormVectorInTree (fuel : nat) (tree : ptr) (w : World) (h : Heap) : FRes :=
  if decide (tree = None) then FOk NULL w h
  else
    match malloc_Vector h with
    | HOk newVector h1 =>
      if decide (newVector = NULL) then FOk NULL w h1
      else
        match (vstore (with_len 0) newVector ;;+ vstore (with_vector None) newVector) h1 with
        | HOk _ h2 =>
          match forEachRBTree fuel tree (Some (as_visitor (copyIfNormIsLarger fuel) newVector))
                  (HOk tt h2) w with
          | Ok (r, HOk _ h3) w' =>
            if decide (r = 0)%Z then FOk NULL w' h3 else FOk newVector w' h3
          | Ok (_, HFault) _ => FFault
          | Ok (_, HOutOfFuel) _ => FOutOfFuel
          | Fault => FFault
          | OutOfFuel => FOutOfFuel
          end
        | HFault => FFault
        | HOutOfFuel => FOutOfFuel
        end
    | HFault => FFault
    | HOutOfFuel => FOutOfFuel
    end.

(** ** What the vector functions compute *)

(** The loop of [vectorCompare1By1] on the entries below both lengths. *)
Fixpoint lex_loop (xs ys : list double) : option Z :=
  match xs, ys with
  | x :: xs', y :: ys' =>
    if PrimFloat.ltb x y then Some LESS
    else if PrimFloat.ltb y x then Some GREATER
    else lex_loop xs' ys'
  | _, _ => None
  end.

(** Entry by entry, then by length. *)
Definition lex (xs ys : list double) : Z :=
  match lex_loop xs ys with
  | Some r => r
  | None =>
    if decide (length xs < length ys)%nat then LESS
    else if decide (length ys < length xs)%nat then GREATER
    else EQUAL
  end.

(** The sum of the squares, added up from the left. *)
Definition norm2_from (norm : double) (xs : list double) : double :=
  fold_left (λ n x, PrimFloat.add n (PrimFloat.mul x x)) xs norm.

Definition norm2 (xs : list double) : double := norm2_from PrimFloat.zero xs.

(** The vector kept by [copyIfNormIsLarger]: the first one, then each
    one whose norm is greater than that of the one kept. *)
Definition keep_larger (best : option (list double)) (xs : list double)
  : option (list double) :=
  match best with
  | None => Some xs
  | Some ys => if PrimFloat.ltb (norm2 ys) (norm2 xs) then Some xs else Some ys
  end.

Definition max_norm (cs : list (list double)) : option (list double) :=
  fold_left keep_larger cs None.

(** ** The memory of the client and its invariants *)

(** [vec_at h p xs]: the element pointer [p] leads to a vector with the
    entries [xs], in an array that may be longer. *)
Definition vec_at (h : Heap) (p : Z) (xs : list double) : Prop :=
  p ≠ NULL ∧
  ∃ a rest, vectors h !! p = Some (mkVector (Z.of_nat (length xs)) (Some a))
            ∧ doubles h !! a = Some (xs ++ rest).

(** Every address at or above the allocation pointer is unused. *)
Definition halloc_ok (h : Heap) : Prop :=
  ∀ x, (hnext h ≤ x)%positive → vectors h !! Z.pos x = None ∧ doubles h !! x = None.

(** Total correctness on the client memory. *)
Definition hwp {A} (m : HM A) (h : Heap) (Q : A → Heap → Prop) : Prop :=
  match m h with
  | HOk a h' => Q a h'
  | _ => False
  end.

(** ** The order of the doubles *)

(** A double that is a number: it equals itself. *)
Definition is_number (x : double) : Prop := PrimFloat.eqb x x = true.

(** The place of a double in the order of the numbers: its class (the
    infinities at both ends, zero of either sign in the middle), then its
    exponent and mantissa, counted downwards for negative numbers. *)
Definition sf_key (f : SpecFloat.spec_float) : Z * (Z * Z) :=
  match f with
  | SpecFloat.S754_infinity true => (-2, (0, 0))
  | SpecFloat.S754_finite true m e => (-1, (- e, - Z.pos m))
  | SpecFloat.S754_zero _ => (0, (0, 0))
  | SpecFloat.S754_nan => (0, (0, 0))
  | SpecFloat.S754_finite false m e => (1, (e, Z.pos m))
  | SpecFloat.S754_infinity false => (2, (0, 0))
  end%Z.

Definition key_lt (k1 k2 : Z * (Z * Z)) : Prop :=
  (k1.1 < k2.1 ∨ k1.1 = k2.1 ∧ (k1.2.1 < k2.2.1 ∨ k1.2.1 = k2.2.1 ∧ k1.2.2 < k2.2.2))%Z.

Definition fkey (x : double) : Z * (Z * Z) := sf_key (FloatOps.Prim2SF x).

(** ** Vectors to run the code on *)

(** The doubles 1, 2 and 3, and one that is not a number. *)
Definition d1 : double := PrimFloat.one.
Definition d2 : double := PrimFloat.two.
Definition d3 : double := PrimFloat.add PrimFloat.one PrimFloat.two.
Definition dnan : double := PrimFloat.nan.

(** A client memory holding the vectors [1, 1] at 10, [3] at 20 and [2]
    at 30, with room for four more blocks. *)
Definition heap0 : Heap :=
  mkHeap {[ 10%Z := mkVector 2 (Some 1%positive); 20%Z := mkVector 1 (Some 2%positive);
            30%Z := mkVector 1 (Some 3%positive) ]}
         {[ 1%positive := [d1; d1]; 2%positive := [d3]; 3%positive := [d2] ]}
         40 4.

(** [scratch h0 h mx best]: the memory [h] is [h0] with the vector [mx]
    beside it, which holds nothing yet ([best] is [None]) or a copy of
    [best] in an array of its own. *)
Definition scratch (h0 h : Heap) (mx : Z) (best : option (list double)) : Prop :=
  mx ≠ NULL ∧ vectors h0 !! mx = None ∧ (hnext h0 ≤ hnext h)%positive ∧
  match best with
  | None =>
    vectors h = <[mx := mkVector 0 None]> (vectors h0)
    ∧ doubles h = doubles h0
    ∧ S (hcap h) = hcap h0
  | Some ys =>
    ∃ am, (hnext h0 ≤ am < hnext h)%positive
          ∧ vectors h = <[mx := mkVector (Z.of_nat (length ys)) (Some am)]> (vectors h0)
          ∧ doubles h = <[am := ys]> (doubles h0)
          ∧ S (S (hcap h)) = hcap h0
  end.

(** Partial correctness on the client memory. *)
Definition hwlp {A} (m : HM A) (h : Heap) (Q : A → Heap → Prop) : Prop :=
  match m h with
  | HOk a h' => Q a h'
  | _ => True
  end.

(** Every [Vector] allocated in [h] is allocated in [h']. *)
Definition still_allocated (h h' : Heap) : Prop :=
  ∀ p, is_Some (vectors h !! p) → is_Some (vectors h' !! p).

Definition keeps_vectors {A} (m : HM A) : Prop :=
  ∀ h, hwlp m h (λ _ h', still_allocated h h').

(** [heap0] with a single block left. *)
Definition heap1 : Heap := mkHeap (vectors heap0) (doubles heap0) (hnext heap0) 1.

(** The state a visitor of the client threads through a traversal still
    has the [Vector] at [mx], unless the visitor broke off. *)
Definition allocated_in (mx : Z) (s : HRes unit) : Prop :=
  match s with
  | HOk _ h => is_Some (vectors h !! mx)
  | _ => True
  end.

(** A client memory whose first vector, at 10, has an entry that is not
    a number: [nan, 1] at 10, [3] at 20 and [2] at 30. *)
Definition heap_nan : Heap :=
  mkHeap {[ 10%Z := mkVector 2 (Some 1%positive); 20%Z := mkVector 1 (Some 2%positive);
            30%Z := mkVector 1 (Some 3%positive) ]}
         {[ 1%positive := [dnan; d1]; 2%positive := [d3]; 3%positive := [d2] ]}
         40 4.

(** ** The functions of Structs.c on strings

    The strings of the client live in blocks of characters: by address,
    the size of the block and the characters before the terminating
    NUL. *)

Abbreviation char := Ascii.ascii (only parsing).














(** ** Rules of the weakest preconditions *)

Lemma wp_ret {A} (a : A) w Q : Q a w → wp (ret a) w Q.
Proof. done. Qed.

Lemma wp_bind {A B} (m : M A) (f : A → M B) w Q :
  wp m w (λ a w', wp (f a) w' Q) → wp (bind m f) w Q.
Proof. unfold wp, bind. by destruct (m w). Qed.

Lemma wp_mono {A} (m : M A) w (Q Q' : A → World → Prop) :
  wp m w Q → (∀ a w', Q a w' → Q' a w') → wp m w Q'.
Proof. unfold wp. destruct (m w); auto. Qed.

Lemma wp_Ok {A} (m : M A) w Q :
  wp m w Q ↔ ∃ a w', m w = Ok a w' ∧ Q a w'.
Proof.
  unfold wp. split.
  - destruct (m w); [eauto | done | done].
  - by intros (a & w' & -> & ?).
Qed.

Lemma wp_load {A} (f : Node → A) a n w Q :
  nodes w !! a = Some n → Q (f n) w → wp (load f (Some a)) w Q.
Proof. unfold wp, load. by intros ->. Qed.

Lemma wp_store f a n w Q :
  nodes w !! a = Some n → Q tt (set_nodes (insert a (f n)) w) → wp (store f (Some a)) w Q.
Proof. unfold wp, store. by intros ->. Qed.

Lemma wp_tload {A} (f : RBTree → A) a t w Q :
  trees w !! a = Some t → Q (f t) w → wp (tload f (Some a)) w Q.
Proof. unfold wp, tload. by intros ->. Qed.

Lemma wp_tstore f a t w Q :
  trees w !! a = Some t → Q tt (set_trees (insert a (f t)) w) → wp (tstore f (Some a)) w Q.
Proof. unfold wp, tstore. by intros ->. Qed.

Lemma wp_call_comp f a b w Q :
  Q (f a b) (add_log [EvComp a b] w) → wp (call_comp f a b) w Q.
Proof. done. Qed.

Lemma wp_free_Node a n w Q :
  nodes w !! a = Some n →
  Q tt (mkWorld (delete a (nodes w)) (trees w) (next w) (S (cap w)) (log w)) →
  wp (free_Node (Some a)) w Q.
Proof. unfold wp, free_Node. by intros ->. Qed.

Lemma wpf_ret {A} (a : A) w Q : Q a w → wpf (ret a) w Q.
Proof. done. Qed.

Lemma wpf_bind {A B} (m : M A) (f : A → M B) w Q :
  wpf m w (λ a w', wpf (f a) w' Q) → wpf (bind m f) w Q.
Proof. unfold wpf, bind. by destruct (m w). Qed.

Lemma wpf_mono {A} (m : M A) w (Q Q' : A → World → Prop) :
  wpf m w Q → (∀ a w', Q a w' → Q' a w') → wpf m w Q'.
Proof. unfold wpf. destruct (m w); auto. Qed.

Lemma wpf_load {A} (f : Node → A) p w Q :
  (∀ a n, p = Some a → nodes w !! a = Some n → Q (f n) w) → wpf (load f p) w Q.
Proof. unfold wpf, load. destruct p as [a|]; [|done]. destruct (nodes w !! a) eqn:?; eauto. Qed.

Lemma wpf_store f p w Q :
  (∀ a n, p = Some a → nodes w !! a = Some n → Q tt (set_nodes (insert a (f n)) w)) →
  wpf (store f p) w Q.
Proof. unfold wpf, store. destruct p as [a|]; [|done]. destruct (nodes w !! a) eqn:?; eauto. Qed.

Lemma wpf_tload {A} (f : RBTree → A) p w Q :
  (∀ a t, p = Some a → trees w !! a = Some t → Q (f t) w) → wpf (tload f p) w Q.
Proof. unfold wpf, tload. destruct p as [a|]; [|done]. destruct (trees w !! a) eqn:?; eauto. Qed.

Lemma wpf_tstore f p w Q :
  (∀ a t, p = Some a → trees w !! a = Some t → Q tt (set_trees (insert a (f t)) w)) →
  wpf (tstore f p) w Q.
Proof. unfold wpf, tstore. destruct p as [a|]; [|done]. destruct (trees w !! a) eqn:?; eauto. Qed.

Lemma wpf_call_comp f a b w Q :
  Q (f a b) (add_log [EvComp a b] w) → wpf (call_comp f a b) w Q.
Proof. done. Qed.

Lemma wlp_ret {A} (a : A) w Q : Q a w → wlp (ret a) w Q.
Proof. done. Qed.

Lemma wlp_bind {A B} (m : M A) (f : A → M B) w Q :
  wlp m w (λ a w', wlp (f a) w' Q) → wlp (bind m f) w Q.
Proof. unfold wlp, bind. by destruct (m w). Qed.

Lemma wlp_mono {A} (m : M A) w (Q Q' : A → World → Prop) :
  wlp m w Q → (∀ a w', Q a w' → Q' a w') → wlp m w Q'.
Proof. unfold wlp. destruct (m w); auto. Qed.

Lemma wlp_Ok {A} (m : M A) w Q a w' : wlp m w Q → m w = Ok a w' → Q a w'.
Proof. unfold wlp. intros H Hm. by rewrite Hm in H. Qed.

Lemma wp_wlp {A} (m : M A) w (Q Q' : A → World → Prop) :
  wp m w Q → wlp m w Q' → wp m w (λ a w', Q a w' ∧ Q' a w').
Proof. unfold wp, wlp. destruct (m w); auto. Qed.

(** ** Structure of plugged trees *)

Lemma inorder_plug {A} (f : positive → Z → A) k t :
  inorder f (plug k t) = ctx_before f k ++ inorder f t ++ ctx_after f k.
Proof.
  revert t. induction k as [|c a d up IH r|c l a d up IH]; intros t; cbn.
  - by rewrite app_nil_r.
  - rewrite IH. cbn. by rewrite <- !app_assoc.
  - rewrite IH. cbn. by rewrite <- !app_assoc.
Qed.

Lemma root_of_plug k t : root_of (plug k t) = ctx_root k (root_of t).
Proof. revert t. induction k; intros t; cbn; [done|by rewrite IHk..]. Qed.

Lemma plug_repr m k t :
  heap_repr m None (plug k t) ↔ ctx_repr m k (root_of t) ∧ heap_repr m (ctx_par k) t.
Proof.
  revert t. induction k as [|c a d up IH r|c l a d up IH]; intros t; cbn.
  - tauto.
  - rewrite IH. cbn. tauto.
  - rewrite IH. cbn. tauto.
Qed.

Lemma heap_repr_frame m par t a n :
  a ∉ addrs t → heap_repr m par t → heap_repr (<[a:=n]> m) par t.
Proof.
  revert par. induction t as [|c l IHl b d r IHr]; intros par; cbn; [done|].
  rewrite !not_elem_of_app, not_elem_of_cons. intros (? & ? & ?) (? & ? & ?).
  rewrite lookup_insert_ne by done. auto.
Qed.

Lemma ctx_repr_frame m k h a n :
  a ∉ ctx_before (λ a _, a) k → a ∉ ctx_after (λ a _, a) k →
  ctx_repr m k h → ctx_repr (<[a:=n]> m) k h.
Proof.
  revert h. induction k as [|c b d up IH r|c l b d up IH]; intros h; cbn; [done|..].
  - intros ? [? [? ?]%not_elem_of_app]%not_elem_of_cons (? & ? & ?).
    rewrite lookup_insert_ne by done. auto using heap_repr_frame.
  - intros [? [? [? _]%not_elem_of_cons]%not_elem_of_app]%not_elem_of_app ? (? & ? & ?).
    rewrite lookup_insert_ne by done. auto using heap_repr_frame.
Qed.

Lemma heap_repr_allocated m par t a :
  heap_repr m par t → a ∈ addrs t → is_Some (m !! a).
Proof.
  revert par. induction t as [|c l IHl b d r IHr]; intros par; cbn.
  - by intros _ ?%elem_of_nil.
  - intros (? & ? & ?). rewrite elem_of_app, elem_of_cons. intros [?|[->|?]]; eauto.
Qed.

Lemma heap_repr_fresh m par t a :
  heap_repr m par t → m !! a = None → a ∉ addrs t.
Proof.
  intros Hr Hn Hin. destruct (heap_repr_allocated _ _ _ _ Hr Hin) as [? ?]. congruence.
Qed.

(** ** Distinct addresses *)

Lemma NoDup_app_ldisj (l1 l2 : list positive) :
  NoDup (l1 ++ l2) ↔ NoDup l1 ∧ ldisj l1 l2 ∧ NoDup l2.
Proof. apply NoDup_app. Qed.

Lemma ldisj_app_l l1 l2 k : ldisj (l1 ++ l2) k ↔ ldisj l1 k ∧ ldisj l2 k.
Proof.
  unfold ldisj. split.
  - intros H. split; intros x Hx; apply H, elem_of_app; auto.
  - intros [H1 H2] x [?|?]%elem_of_app; auto.
Qed.

Lemma ldisj_cons_l x l k : ldisj (x :: l) k ↔ (x ∉ k) ∧ ldisj l k.
Proof.
  unfold ldisj. split.
  - intros H. split; [apply H; left|intros y Hy; apply H; by right].
  - intros [H1 H2] y [->|?]%elem_of_cons; auto.
Qed.

Lemma ldisj_nil_l k : ldisj nil k ↔ True.
Proof. unfold ldisj. split; [done|]. by intros _ x ?%elem_of_nil. Qed.

Lemma ldisj_app_r l1 l2 k : ldisj k (l1 ++ l2) ↔ ldisj k l1 ∧ ldisj k l2.
Proof.
  unfold ldisj. split.
  - intros H. split; intros x Hx; specialize (H x Hx); apply not_elem_of_app in H; tauto.
  - intros [H1 H2] x Hx. apply not_elem_of_app. auto.
Qed.

Lemma ldisj_cons_r x l k : ldisj k (x :: l) ↔ (x ∉ k) ∧ ldisj k l.
Proof.
  unfold ldisj. split.
  - intros H. split.
    + intros Hx. apply (H x Hx). left.
    + intros y Hy. specialize (H y Hy). apply not_elem_of_cons in H. tauto.
  - intros [H1 H2] y Hy. apply not_elem_of_cons. split; [by intros ->|auto].
Qed.

Lemma ldisj_nil_r k : ldisj k nil ↔ True.
Proof. unfold ldisj. split; [done|]. intros _ x _. apply not_elem_of_nil. Qed.

Lemma not_elem_of_nil_iff (x : positive) : x ∉ @nil positive ↔ True.
Proof. split; [done|]. intros _. apply not_elem_of_nil. Qed.

Lemma NoDup_nil_iff : NoDup (@nil positive) ↔ True.
Proof. split; [done|]. intros _. constructor. Qed.

(** Break a [NoDup] fact on a concatenation into facts on its pieces. *)
Ltac nodup_norm H :=
  let H1 := fresh "Hn" in
  let H2 := fresh "Hn" in
  let H3 := fresh "Hn" in
  lazymatch type of H with
  | NoDup (_ ++ _) =>
    apply NoDup_app_ldisj in H as (H1 & H2 & H3); nodup_norm H1; nodup_norm H2; nodup_norm H3
  | NoDup (_ :: _) => apply NoDup_cons in H as (H1 & H2); nodup_norm H1; nodup_norm H2
  | NoDup [] => clear H
  | ldisj (_ ++ _) _ => apply ldisj_app_l in H as (H1 & H2); nodup_norm H1; nodup_norm H2
  | ldisj (_ :: _) _ => apply ldisj_cons_l in H as (H1 & H2); nodup_norm H1; nodup_norm H2
  | ldisj [] _ => clear H
  | ldisj _ (_ ++ _) => apply ldisj_app_r in H as (H1 & H2); nodup_norm H1; nodup_norm H2
  | ldisj _ (_ :: _) => apply ldisj_cons_r in H as (H1 & H2); nodup_norm H1; nodup_norm H2
  | ldisj _ [] => clear H
  | _ ∉ _ ++ _ => apply not_elem_of_app in H as (H1 & H2); nodup_norm H1; nodup_norm H2
  | _ ∉ _ :: _ => apply not_elem_of_cons in H as (H1 & H2); nodup_norm H2
  | _ ∉ [] => clear H
  | _ => idtac
  end.

Ltac neq := first [assumption | apply not_eq_sym; assumption | congruence].

Ltac wp_simpl :=
  cbn [nodes trees next cap log set_nodes set_trees add_log
       left right parent data color root compFunc freeFunc size
       with_left with_right with_parent with_data with_color
       with_root with_compFunc with_freeFunc with_size root_of ctx_par fst snd].

Ltac solve_lookup :=
  wp_simpl;
  repeat first [ rewrite lookup_insert_eq | rewrite lookup_insert_ne by neq ];
  first [ reflexivity | eassumption ].

Ltac psolve := solve [neq | done | intuition congruence].

Ltac wp_if :=
  lazymatch goal with
  | |- wp (if decide ?P then _ else _) _ _ =>
    first [ rewrite (decide_True (P:=P)) by psolve
          | rewrite (decide_False (P:=P)) by psolve ]
  end.

Ltac wp_step :=
  lazymatch goal with
  | |- wp (bind _ _) _ _ => apply wp_bind
  | |- wp (ret _) _ _ => apply wp_ret
  | |- wp (load _ _) _ _ => eapply wp_load; [solve_lookup|]
  | |- wp (store _ _) _ _ => eapply wp_store; [solve_lookup|]
  | |- wp (tload _ _) _ _ => eapply wp_tload; [solve_lookup|]
  | |- wp (tstore _ _) _ _ => eapply wp_tstore; [solve_lookup|]
  | |- wp (call_comp _ _ _) _ _ => apply wp_call_comp
  | |- wp (if decide _ then _ else _) _ _ => wp_if
  end; wp_simpl.

Ltac wp_run := repeat wp_step.

(** Discharge the representation of a tree after a sequence of stores. *)
Ltac repr_solve :=
  cbn [heap_repr ctx_repr root_of ctx_par];
  repeat match goal with
  | |- _ ∧ _ => split
  | |- True => exact I
  | |- _ !! _ = Some _ => solve [solve_lookup]
  | |- heap_repr (<[_:=_]> _) _ _ => apply heap_repr_frame; [assumption|]
  | |- ctx_repr (<[_:=_]> _) _ _ => apply ctx_repr_frame; [assumption|assumption|]
  | |- heap_repr _ _ _ => assumption
  | |- ctx_repr _ _ _ => assumption
  end.

(** ** Facts about ascending lists *)

Section ascending.
Context (cmp : Z → Z → Z).

Lemma ascending_app l1 l2 :
  ascending cmp (l1 ++ l2) ↔ ascending cmp l1 ∧ lbelow cmp l1 l2 ∧ ascending cmp l2.
Proof.
  unfold ascending, lbelow. induction l1 as [|x l1 IH]; cbn.
  - split; [intros ?; split_and!; [constructor| |done]|tauto].
    by intros x y ?%elem_of_nil.
  - split.
    + intros [Hs Hf]%StronglySorted_inv. apply IH in Hs as (? & Hb & ?).
      apply Forall_app in Hf as [? Hf2]. split_and!; [by constructor| |done].
      intros a b [->|?]%elem_of_cons ?; [|by eauto].
      by eapply (proj1 (Forall_forall _ _) Hf2).
    + intros ([Hs Hf]%StronglySorted_inv & Hb & ?). constructor.
      * apply IH. split_and!; [done| |done]. intros a b ? ?. apply Hb; [by right|done].
      * apply Forall_app. split; [done|]. apply Forall_forall. intros b ?.
        apply Hb; [by left|done].
Qed.

Lemma ascending_cons x l :
  ascending cmp (x :: l) ↔ all_lt cmp x l ∧ ascending cmp l.
Proof.
  unfold ascending, all_lt. split.
  - by intros [? ?]%StronglySorted_inv.
  - intros [? ?]. by constructor.
Qed.

Lemma ascending_nil : ascending cmp [] ↔ True.
Proof. split; [done|]. intros _. constructor. Qed.

Lemma all_lt_app x l1 l2 : all_lt cmp x (l1 ++ l2) ↔ all_lt cmp x l1 ∧ all_lt cmp x l2.
Proof. apply Forall_app. Qed.

Lemma all_lt_cons x y l : all_lt cmp x (y :: l) ↔ lt_of cmp x y ∧ all_lt cmp x l.
Proof. apply Forall_cons. Qed.

Lemma all_lt_nil x : all_lt cmp x [] ↔ True.
Proof. split; [done|]. intros _. constructor. Qed.

Lemma all_gt_app x l1 l2 : all_gt cmp x (l1 ++ l2) ↔ all_gt cmp x l1 ∧ all_gt cmp x l2.
Proof. apply Forall_app. Qed.

Lemma all_gt_cons x y l : all_gt cmp x (y :: l) ↔ lt_of cmp y x ∧ all_gt cmp x l.
Proof. unfold all_gt. by rewrite Forall_cons. Qed.

Lemma all_gt_nil x : all_gt cmp x [] ↔ True.
Proof. split; [done|]. intros _. constructor. Qed.

Lemma lbelow_app_l l1 l2 k : lbelow cmp (l1 ++ l2) k ↔ lbelow cmp l1 k ∧ lbelow cmp l2 k.
Proof.
  unfold lbelow. split.
  - intros H. split; intros x y ? ?; (apply H; [apply elem_of_app; tauto|assumption]).
  - intros [H1 H2] x y [?|?]%elem_of_app ?; eauto.
Qed.

Lemma lbelow_cons_l x l k : lbelow cmp (x :: l) k ↔ all_lt cmp x k ∧ lbelow cmp l k.
Proof.
  unfold lbelow, all_lt. rewrite Forall_forall. split.
  - intros H. split; [intros y ?; apply H; [left|done]|intros a b ? ?; apply H; [by right|done]].
  - intros [H1 H2] a b [->|?]%elem_of_cons ?; eauto.
Qed.

Lemma lbelow_nil_l k : lbelow cmp [] k ↔ True.
Proof. split; [done|]. by intros _ x y ?%elem_of_nil. Qed.

Lemma lbelow_app_r l1 l2 k : lbelow cmp k (l1 ++ l2) ↔ lbelow cmp k l1 ∧ lbelow cmp k l2.
Proof.
  unfold lbelow. split.
  - intros H. split; intros x y ? ?; (apply H; [assumption|apply elem_of_app; tauto]).
  - intros [H1 H2] x y ? [?|?]%elem_of_app; eauto.
Qed.

Lemma lbelow_cons_r x l k : lbelow cmp k (x :: l) ↔ all_gt cmp x k ∧ lbelow cmp k l.
Proof.
  unfold lbelow, all_gt. rewrite Forall_forall. split.
  - intros H. split; [intros y ?; apply H; [done|left]|intros a b ? ?; apply H; [done|by right]].
  - intros [H1 H2] a b ? [->|?]%elem_of_cons; eauto.
Qed.

Lemma lbelow_nil_r k : lbelow cmp k [] ↔ True.
Proof. split; [done|]. by intros _ x y _ ?%elem_of_nil. Qed.

Context (Hcmp : Comparator cmp).

Lemma cmp_refl x : cmp x x = 0%Z.
Proof. pose proof (cmp_antisym _ Hcmp x x). lia. Qed.

Lemma cmp_neq_gt x y : lt_of cmp x y → cmp y x ≠ 0%Z.
Proof. unfold lt_of. pose proof (cmp_antisym _ Hcmp x y). lia. Qed.

Lemma cmp_neq_lt x y : lt_of cmp x y → cmp x y ≠ 0%Z.
Proof. unfold lt_of. lia. Qed.

Lemma cmp_gt_lt x y : (cmp x y > 0)%Z ↔ lt_of cmp y x.
Proof. unfold lt_of. pose proof (cmp_antisym _ Hcmp x y). lia. Qed.

Lemma cmp_sym_0 x y : cmp x y = 0%Z → cmp y x = 0%Z.
Proof. pose proof (cmp_antisym _ Hcmp x y). lia. Qed.
End ascending.

(** Break an [ascending] fact on a concatenation into facts on its pieces. *)
Ltac asc_norm H :=
  let H1 := fresh "Ha" in
  let H2 := fresh "Ha" in
  let H3 := fresh "Ha" in
  lazymatch type of H with
  | ascending _ (_ ++ _) =>
    apply ascending_app in H as (H1 & H2 & H3); asc_norm H1; asc_norm H2; asc_norm H3
  | ascending _ (_ :: _) => apply ascending_cons in H as (H1 & H2); asc_norm H1; asc_norm H2
  | ascending _ [] => clear H
  | lbelow _ (_ ++ _) _ => apply lbelow_app_l in H as (H1 & H2); asc_norm H1; asc_norm H2
  | lbelow _ (_ :: _) _ => apply lbelow_cons_l in H as (H1 & H2); asc_norm H1; asc_norm H2
  | lbelow _ [] _ => clear H
  | lbelow _ _ (_ ++ _) => apply lbelow_app_r in H as (H1 & H2); asc_norm H1; asc_norm H2
  | lbelow _ _ (_ :: _) => apply lbelow_cons_r in H as (H1 & H2); asc_norm H1; asc_norm H2
  | lbelow _ _ [] => clear H
  | all_lt _ _ (_ ++ _) => apply all_lt_app in H as (H1 & H2); asc_norm H1; asc_norm H2
  | all_lt _ _ (_ :: _) => apply all_lt_cons in H as (H1 & H2); asc_norm H2
  | all_lt _ _ [] => clear H
  | all_gt _ _ (_ ++ _) => apply all_gt_app in H as (H1 & H2); asc_norm H1; asc_norm H2
  | all_gt _ _ (_ :: _) => apply all_gt_cons in H as (H1 & H2); asc_norm H2
  | all_gt _ _ [] => clear H
  | _ => idtac
  end.

(** After a case split on a subtree, renormalise every fact. *)
Ltac renorm :=
  cbn [heap_repr ctx_repr inorder ctx_before ctx_after root_of ctx_par] in *;
  destruct_and?;
  repeat match goal with
  | H : NoDup (_ ++ _) |- _ => nodup_norm H
  | H : NoDup (_ :: _) |- _ => nodup_norm H
  | H : ldisj (_ ++ _) _ |- _ => nodup_norm H
  | H : ldisj (_ :: _) _ |- _ => nodup_norm H
  | H : ldisj _ (_ ++ _) |- _ => nodup_norm H
  | H : ldisj _ (_ :: _) |- _ => nodup_norm H
  | H : _ ∉ _ ++ _ |- _ => nodup_norm H
  | H : _ ∉ _ :: _ |- _ => nodup_norm H
  | H : ascending _ (_ ++ _) |- _ => asc_norm H
  | H : ascending _ (_ :: _) |- _ => asc_norm H
  | H : lbelow _ (_ ++ _) _ |- _ => asc_norm H
  | H : lbelow _ (_ :: _) _ |- _ => asc_norm H
  | H : lbelow _ _ (_ ++ _) |- _ => asc_norm H
  | H : lbelow _ _ (_ :: _) |- _ => asc_norm H
  | H : all_lt _ _ (_ ++ _) |- _ => asc_norm H
  | H : all_lt _ _ (_ :: _) |- _ => asc_norm H
  | H : all_gt _ _ (_ ++ _) |- _ => asc_norm H
  | H : all_gt _ _ (_ :: _) |- _ => asc_norm H
  end.

Lemma held_intro (P : Prop) : P → held P.
Proof. done. Qed.

(** ** The rotations on the heap *)

Ltac cmp_neq :=
  wp_simpl;
  lazymatch goal with
  | Hc : Comparator ?c |- _ =>
    first [ apply (cmp_neq_gt c Hc); assumption
          | apply (cmp_neq_lt c); assumption ]
  end.

(** Unpack [tree_at] on a plugged tree. *)
Ltac open_tree H :=
  let Hroot := fresh "Hroot" in
  let Hnd := fresh "Hnd" in
  let Hkeep := fresh "Hkeep" in
  destruct H as (Hroot & H & Hnd);
  rewrite root_of_plug in Hroot; cbn [ctx_root root_of] in Hroot;
  apply plug_repr in H;
  rewrite inorder_plug in Hnd;
  pose proof (held_intro _ Hnd) as Hkeep;
  renorm.

Ltac list_norm :=
  cbn [inorder ctx_before ctx_after]; repeat (rewrite <- ?app_assoc; cbn [app]).

Ltac close_tree :=
  unfold tree_at; split; [|split];
  [ wp_simpl; rewrite ?root_of_plug; cbn [ctx_root root_of]; solve_lookup
  | wp_simpl; apply plug_repr; repr_solve
  | match goal with
    | Hkeep : held (NoDup ?l) |- NoDup ?l' =>
      replace l' with l; [exact Hkeep|rewrite inorder_plug; list_norm; reflexivity]
    end ].

(** The sibling premise of [wp_isRightChild_left]. *)
Ltac sibling :=
  lazymatch goal with
  | |- True => exact I
  | |- _ ∧ _ => split; [eexists; split; [solve_lookup|reflexivity]|cmp_neq]
  end.

Section isRightChild.
Context (cmp : Z → Z → Z) (ff : Z) (Hcmp : Comparator cmp) (tr : positive).

Lemma wp_isRightChild_root w a nd Q :
  nodes w !! a = Some nd → parent nd = None →
  Q 0%Z w → wp (isRightChild cmp (Some a)) w Q.
Proof.
  intros Ha Hp HQ. unfold isRightChild.
  apply wp_bind. eapply wp_load; [done|]. rewrite Hp. by rewrite decide_True by done.
Qed.

Lemma wp_isRightChild_left w a nd p P sib Q :
  nodes w !! a = Some nd → parent nd = Some p →
  nodes w !! p = Some P → right P = root_of sib →
  match sib with
  | E => True
  | T _ _ ra rd _ => (∃ R, nodes w !! ra = Some R ∧ data R = rd) ∧ cmp rd (data nd) ≠ 0%Z
  end →
  (∀ es, Q LEFT_CHILD (add_log es w)) →
  wp (isRightChild cmp (Some a)) w Q.
Proof.
  intros Ha Hp HP Hr Hsib HQ. unfold isRightChild.
  apply wp_bind. eapply wp_load; [done|]. rewrite Hp. rewrite decide_False by done.
  apply wp_bind. eapply wp_load; [done|]. rewrite Hr.
  destruct sib as [|sc sl sa sd sr]; cbn [root_of].
  - rewrite decide_False by (by intros []). apply (HQ []).
  - destruct Hsib as [(R & HR & <-) Hne]. rewrite decide_True by done.
    apply wp_bind. eapply wp_load; [done|].
    apply wp_bind. eapply wp_load; [done|].
    apply wp_bind, wp_call_comp. rewrite decide_False by done. apply HQ.
Qed.

Lemma wp_isRightChild_right w a nd p P Q :
  nodes w !! a = Some nd → parent nd = Some p →
  nodes w !! p = Some P → right P = Some a →
  (∀ es, Q RIGHT_CHILD (add_log es w)) →
  wp (isRightChild cmp (Some a)) w Q.
Proof.
  intros Ha Hp HP Hr HQ. unfold isRightChild.
  apply wp_bind. eapply wp_load; [done|]. rewrite Hp. rewrite decide_False by done.
  apply wp_bind. eapply wp_load; [done|]. rewrite Hr. rewrite decide_True by done.
  apply wp_bind. eapply wp_load; [done|].
  apply wp_bind. eapply wp_load; [done|].
  apply wp_bind, wp_call_comp. rewrite decide_True by apply (cmp_refl cmp Hcmp). apply HQ.
Qed.

End isRightChild.

Ltac is_left s :=
  eapply wp_isRightChild_left with (sib := s);
  [solve_lookup|reflexivity|solve_lookup|reflexivity
  |try (destruct s; renorm); sibling|intros ?; wp_simpl].

Ltac is_right :=
  eapply wp_isRightChild_right;
  [eassumption|solve_lookup|reflexivity|solve_lookup|reflexivity|intros ?; wp_simpl].

Lemma ascending_eq cmp l l' : ascending cmp l → l = l' → ascending cmp l'.
Proof. by intros ? <-. Qed.

(** The same elements in the same order, up to re-association. *)
Ltac same_order H :=
  apply (ascending_eq _ _ _ H); rewrite !inorder_plug; list_norm; reflexivity.

Section rotations.
Context (cmp : Z → Z → Z) (ff : Z) (Hcmp : Comparator cmp) (tr : positive).

Lemma leftRightSwitch_spec w n up gc pc pl pa pd nc nl na nd nr ga gd u Q :
  tree_at cmp ff w tr (plug (CL gc ga gd up u) (T pc pl pa pd (T nc nl na nd nr))) n →
  (∀ w', tree_at cmp ff w' tr (plug (CL gc ga gd up u) (T nc (T pc pl pa pd nl) na nd nr)) n →
         Q tt w') →
  wp (leftRightSwitch (Some na) (Some pa) (Some ga)) w Q.
Proof.
  intros Ht HQ. open_tree Ht. unfold leftRightSwitch.
  destruct nl as [|lc ll la ld lr]; renorm; wp_run; apply HQ; close_tree.
Qed.

Lemma rightLeftSwitch_spec w n up gc pc pr pa pd nc nl na nd nr ga gd u Q :
  tree_at cmp ff w tr (plug (CR gc u ga gd up) (T pc (T nc nl na nd nr) pa pd pr)) n →
  (∀ w', tree_at cmp ff w' tr (plug (CR gc u ga gd up) (T nc nl na nd (T pc nr pa pd pr))) n →
         Q tt w') →
  wp (rightLeftSwitch (Some na) (Some pa) (Some ga)) w Q.
Proof.
  intros Ht HQ. open_tree Ht. unfold rightLeftSwitch.
  destruct nr as [|rc rl ra rd rr]; renorm; wp_run; apply HQ; close_tree.
Qed.

Lemma leftLeftSwitch_spec w n up gc pc pl pa pd pr ga gd u Q :
  tree_at cmp ff w tr (plug up (T gc (T pc pl pa pd pr) ga gd u)) n →
  ascending cmp (elems (plug up (T gc (T pc pl pa pd pr) ga gd u))) →
  (∀ w', tree_at cmp ff w' tr (plug up (T pc pl pa pd (T gc pr ga gd u))) n → Q tt w') →
  wp (leftLeftSwitch (Some pa) (Some ga) (Some tr)) w Q.
Proof.
  intros Ht Ha HQ. rewrite inorder_plug in Ha. open_tree Ht. unfold leftLeftSwitch.
  destruct up as [|ggc gga ggd up ggr|ggc ggl gga ggd up].
  - destruct pr as [|rc rl ra rd rr]; renorm; wp_run; apply HQ; close_tree.
  - destruct pr as [|rc rl ra rd rr]; renorm; wp_run.
    + is_left ggr. wp_run. apply HQ; close_tree.
    + is_left ggr. wp_run. apply HQ; close_tree.
  - destruct pr as [|rc rl ra rd rr]; renorm; wp_run.
    + is_right. wp_run. apply HQ; close_tree.
    + is_right. wp_run. apply HQ; close_tree.
Qed.

Lemma rightRightSwitch_spec w n up gc pc pl pa pd pr ga gd u Q :
  tree_at cmp ff w tr (plug up (T gc u ga gd (T pc pl pa pd pr))) n →
  ascending cmp (elems (plug up (T gc u ga gd (T pc pl pa pd pr)))) →
  (∀ w', tree_at cmp ff w' tr (plug up (T pc (T gc u ga gd pl) pa pd pr)) n → Q tt w') →
  wp (rightRightSwitch (Some pa) (Some ga) (Some tr)) w Q.
Proof.
  intros Ht Ha HQ. rewrite inorder_plug in Ha. open_tree Ht. unfold rightRightSwitch.
  destruct up as [|ggc gga ggd up ggr|ggc ggl gga ggd up].
  - destruct pl as [|rc rl ra rd rr]; renorm; wp_run; apply HQ; close_tree.
  - destruct pl as [|rc rl ra rd rr]; renorm; wp_run.
    + is_left ggr. wp_run. apply HQ; close_tree.
    + is_left ggr. wp_run. apply HQ; close_tree.
  - destruct pl as [|rc rl ra rd rr]; renorm; wp_run.
    + is_right. wp_run. apply HQ; close_tree.
    + is_right. wp_run. apply HQ; close_tree.
Qed.

Lemma store_color_spec w n k c c' l a d r Q :
  tree_at cmp ff w tr (plug k (T c l a d r)) n →
  (∀ w', tree_at cmp ff w' tr (plug k (T c' l a d r)) n → Q tt w') →
  wp (store (with_color c') (Some a)) w Q.
Proof.
  intros Ht HQ. open_tree Ht. wp_run. apply HQ; close_tree.
Qed.

Lemma modifyRedBlack_LL w n up gc pc nc nl na nd nr pa pd ps ga gd u Q :
  tree_at cmp ff w tr (plug up (T gc (T pc (T nc nl na nd nr) pa pd ps) ga gd u)) n →
  ascending cmp (elems (plug up (T gc (T pc (T nc nl na nd nr) pa pd ps) ga gd u))) →
  (∀ w', tree_at cmp ff w' tr
           (plug up (T BLACK (T nc nl na nd nr) pa pd (T RED ps ga gd u))) n → Q tt w') →
  wp (modifyRedBlack (Some na) (Some pa) (Some ga) (Some tr)) w Q.
Proof.
  intros Ht Ha HQ. unfold modifyRedBlack.
  pose proof Ht as Ht'. pose proof Ha as Ha'. rewrite inorder_plug in Ha'. open_tree Ht'.
  wp_run. is_left ps. wp_run. is_left u. wp_run.
  eapply leftLeftSwitch_spec; [exact Ht|exact Ha|]; intros w1 Hw1; wp_run.
  eapply (store_color_spec _ _ up); [exact Hw1|]; intros w2 Hw2; wp_run.
  eapply (store_color_spec _ _ (CR _ _ _ _ _)); [exact Hw2|]; intros w3 Hw3; wp_run.
  apply HQ, Hw3.
Qed.
End rotations.

Section modifyRedBlack.
Context (cmp : Z → Z → Z) (ff : Z) (Hcmp : Comparator cmp) (tr : positive).

Lemma modifyRedBlack_RR w n up gc pc nc nl na nd nr pa pd ps ga gd u Q :
  tree_at cmp ff w tr (plug up (T gc u ga gd (T pc ps pa pd (T nc nl na nd nr)))) n →
  ascending cmp (elems (plug up (T gc u ga gd (T pc ps pa pd (T nc nl na nd nr))))) →
  (∀ w', tree_at cmp ff w' tr
           (plug up (T BLACK (T RED u ga gd ps) pa pd (T nc nl na nd nr))) n → Q tt w') →
  wp (modifyRedBlack (Some na) (Some pa) (Some ga) (Some tr)) w Q.
Proof.
  intros Ht Ha HQ. unfold modifyRedBlack.
  pose proof Ht as Ht'. pose proof Ha as Ha'. rewrite inorder_plug in Ha'. open_tree Ht'.
  wp_run. is_right. wp_run. is_right. wp_run.
  eapply rightRightSwitch_spec; [exact Hcmp|exact Ht|exact Ha|]; intros w1 Hw1; wp_run.
  eapply (store_color_spec _ _ _ _ _ up); [exact Hw1|]; intros w2 Hw2; wp_run.
  eapply (store_color_spec _ _ _ _ _ (CL _ _ _ _ _)); [exact Hw2|]; intros w3 Hw3; wp_run.
  apply HQ, Hw3.
Qed.

Lemma modifyRedBlack_LR w n up gc pc nc nl na nd nr pa pd ps ga gd u Q :
  tree_at cmp ff w tr (plug up (T gc (T pc ps pa pd (T nc nl na nd nr)) ga gd u)) n →
  ascending cmp (elems (plug up (T gc (T pc ps pa pd (T nc nl na nd nr)) ga gd u))) →
  (∀ w', tree_at cmp ff w' tr
           (plug up (T BLACK (T pc ps pa pd nl) na nd (T RED nr ga gd u))) n → Q tt w') →
  wp (modifyRedBlack (Some na) (Some pa) (Some ga) (Some tr)) w Q.
Proof.
  intros Ht Ha HQ. unfold modifyRedBlack.
  pose proof Ht as Ht'. pose proof Ha as Ha'. rewrite inorder_plug in Ha'. open_tree Ht'.
  wp_run. is_right. wp_run. is_left u. wp_run.
  eapply (leftRightSwitch_spec _ _ _ _ _ up); [exact Ht|]; intros w1 Hw1; wp_run.
  eapply leftLeftSwitch_spec; [exact Hcmp|exact Hw1|same_order Ha|]; intros w2 Hw2; wp_run.
  eapply (store_color_spec _ _ _ _ _ up); [exact Hw2|]; intros w3 Hw3; wp_run.
  eapply (store_color_spec _ _ _ _ _ (CR _ _ _ _ _)); [exact Hw3|]; intros w4 Hw4; wp_run.
  apply HQ, Hw4.
Qed.

Lemma modifyRedBlack_RL w n up gc pc nc nl na nd nr pa pd ps ga gd u Q :
  tree_at cmp ff w tr (plug up (T gc u ga gd (T pc (T nc nl na nd nr) pa pd ps))) n →
  ascending cmp (elems (plug up (T gc u ga gd (T pc (T nc nl na nd nr) pa pd ps)))) →
  (∀ w', tree_at cmp ff w' tr
           (plug up (T BLACK (T RED u ga gd nl) na nd (T pc nr pa pd ps))) n → Q tt w') →
  wp (modifyRedBlack (Some na) (Some pa) (Some ga) (Some tr)) w Q.
Proof.
  intros Ht Ha HQ. unfold modifyRedBlack.
  pose proof Ht as Ht'. pose proof Ha as Ha'. rewrite inorder_plug in Ha'. open_tree Ht'.
  wp_run. is_left ps. wp_run. is_right. wp_run.
  eapply (rightLeftSwitch_spec _ _ _ _ _ up); [exact Ht|]; intros w1 Hw1; wp_run.
  eapply rightRightSwitch_spec; [exact Hcmp|exact Hw1|same_order Ha|]; intros w2 Hw2; wp_run.
  eapply (store_color_spec _ _ _ _ _ up); [exact Hw2|]; intros w3 Hw3; wp_run.
  eapply (store_color_spec _ _ _ _ _ (CL _ _ _ _ _)); [exact Hw3|]; intros w4 Hw4; wp_run.
  apply HQ, Hw4.
Qed.
End modifyRedBlack.

Lemma ctx_root_elem k h x :
  ctx_root k h = Some x →
  h = Some x ∨ x ∈ ctx_before (λ a _, a) k ∨ x ∈ ctx_after (λ a _, a) k.
Proof.
  revert h. induction k as [|c a d up IH r|c l a d up IH]; intros h; cbn.
  - auto.
  - intros [[= ->]|[?|?]]%IH; right; [right; left|by left|right; right].
    apply elem_of_app. by right.
  - intros [[= ->]|[?|?]]%IH; right; [left|left|by right].
    + apply elem_of_app. right. apply elem_of_app. right. left.
    + apply elem_of_app. by left.
Qed.

Lemma ctx_root_neq k a b :
  a ≠ b → a ∉ ctx_before (λ a _, a) k → a ∉ ctx_after (λ a _, a) k →
  Some a ≠ ctx_root k (Some b).
Proof.
  intros Hne Hb Ha Heq. symmetry in Heq.
  apply ctx_root_elem in Heq as [[= ->]|[?|?]]; done.
Qed.

Section modifyNode.
Context (cmp : Z → Z → Z) (ff : Z) (Hcmp : Comparator cmp) (tr : positive).

Ltac not_root :=
  lazymatch goal with
  | |- wp (if decide (Some ?a = ctx_root ?k (Some ?b)) then _ else _) _ _ =>
    rewrite (decide_False (P := Some a = ctx_root k (Some b)))
      by (apply ctx_root_neq; neq)
  end.

Lemma modifyNode_spec fuel : ∀ k c l a d r w n Q,
  (ctx_depth k < fuel)%nat →
  tree_at cmp ff w tr (plug k (T c l a d r)) n →
  ascending cmp (elems (plug k (T c l a d r))) →
  red_not_root k →
  (∀ w', tree_at cmp ff w' tr (fixup k (T c l a d r)) n → Q tt w') →
  wp (modifyNode fuel (Some a) (Some tr)) w Q.
Proof.
  induction fuel as [|fuel IH]; intros k c l a d r w n Q Hfuel Ht Ha Hred HQ; [lia|].
  cbn [modifyNode].
  pose proof Ht as Ht'. pose proof Ha as Ha'. rewrite inorder_plug in Ha'.
  destruct k as [|pc pa pd up ps|pc ps pa pd up].
  - destruct Ht' as (Hroot & _ & _). cbn [plug root_of] in Hroot. wp_run.
    eapply (store_color_spec _ _ _ _ _ Top); [exact Ht|]. intros w' Hw'.
    apply HQ. exact Hw'.
  - open_tree Ht'. wp_run. not_root. wp_run. destruct pc.
    2:{ wp_run. apply HQ. exact Ht. }
    wp_run. destruct Hred as [Hup Hred].
    destruct up as [|gc ga gd up u|gc u ga gd up]; [by destruct Hup|..]; renorm.
    + (* parent is a left child, node is a left child *)
      unfold findUncle. wp_run. is_left u. wp_run.
      destruct u as [|[] ul ua ud ur]; renorm; wp_run.
      * eapply modifyRedBlack_LL; [exact Hcmp|exact Ht|exact Ha|]. intros w' Hw'.
        apply HQ. exact Hw'.
      * eapply (IH up RED (T BLACK (T c l a d r) pa pd ps) ga gd (T BLACK ul ua ud ur));
          [cbn in Hfuel; lia|close_tree|same_order Ha|apply Hred|].
        intros w' Hw'. apply HQ. exact Hw'.
      * eapply modifyRedBlack_LL; [exact Hcmp|exact Ht|exact Ha|]. intros w' Hw'.
        apply HQ. exact Hw'.
    + (* parent is a right child, node is a left child *)
      unfold findUncle. wp_run. is_right. wp_run.
      destruct u as [|[] ul ua ud ur]; renorm; wp_run.
      * eapply modifyRedBlack_RL; [exact Hcmp|exact Ht|exact Ha|]. intros w' Hw'.
        apply HQ. exact Hw'.
      * eapply (IH up RED (T BLACK ul ua ud ur) ga gd (T BLACK (T c l a d r) pa pd ps));
          [cbn in Hfuel; lia|close_tree|same_order Ha|apply Hred|].
        intros w' Hw'. apply HQ. exact Hw'.
      * eapply modifyRedBlack_RL; [exact Hcmp|exact Ht|exact Ha|]. intros w' Hw'.
        apply HQ. exact Hw'.
  - open_tree Ht'. wp_run. not_root. wp_run. destruct pc.
    2:{ wp_run. apply HQ. exact Ht. }
    wp_run. destruct Hred as [Hup Hred].
    destruct up as [|gc ga gd up u|gc u ga gd up]; [by destruct Hup|..]; renorm.
    + (* parent is a left child, node is a right child *)
      unfold findUncle. wp_run. is_left u. wp_run.
      destruct u as [|[] ul ua ud ur]; renorm; wp_run.
      * eapply modifyRedBlack_LR; [exact Hcmp|exact Ht|exact Ha|]. intros w' Hw'.
        apply HQ. exact Hw'.
      * eapply (IH up RED (T BLACK ps pa pd (T c l a d r)) ga gd (T BLACK ul ua ud ur));
          [cbn in Hfuel; lia|close_tree|same_order Ha|apply Hred|].
        intros w' Hw'. apply HQ. exact Hw'.
      * eapply modifyRedBlack_LR; [exact Hcmp|exact Ht|exact Ha|]. intros w' Hw'.
        apply HQ. exact Hw'.
    + (* parent is a right child, node is a right child *)
      unfold findUncle. wp_run. is_right. wp_run.
      destruct u as [|[] ul ua ud ur]; renorm; wp_run.
      * eapply modifyRedBlack_RR; [exact Hcmp|exact Ht|exact Ha|]. intros w' Hw'.
        apply HQ. exact Hw'.
      * eapply (IH up RED (T BLACK ul ua ud ur) ga gd (T BLACK ps pa pd (T c l a d r)));
          [cbn in Hfuel; lia|close_tree|same_order Ha|apply Hred|].
        intros w' Hw'. apply HQ. exact Hw'.
      * eapply modifyRedBlack_RR; [exact Hcmp|exact Ht|exact Ha|]. intros w' Hw'.
        apply HQ. exact Hw'.
Qed.
End modifyNode.

(** ** The descent of [addNewNode] *)

Lemma add_log_app es es' w : add_log es (add_log es' w) = add_log (es ++ es') w.
Proof. unfold add_log. cbn. by rewrite app_assoc. Qed.

Lemma NoDup_plug_leaf k c a x :
  NoDup (addrs (plug k E)) → a ∉ addrs (plug k E) →
  NoDup (addrs (plug k (T c E a x E))).
Proof.
  rewrite !inorder_plug. cbn. intros Hnd Hin.
  apply NoDup_app in Hnd as (? & Hd & ?).
  apply not_elem_of_app in Hin as [? ?].
  apply NoDup_app. split_and!; [done| |by constructor].
  intros y Hy [->|?]%elem_of_cons; [done|]. by eapply Hd.
Qed.

Section descend.
Context (cmp : Z → Z → Z) (Hcmp : Comparator cmp).

Lemma descend_plug x s : ∀ k k', descend cmp x k s = Some k' → plug k' E = plug k s.
Proof.
  induction s as [|c l IHl a d r IHr]; intros k k'; cbn.
  - by intros [= ->].
  - repeat case_decide; [done|..]; intros Hd.
    + by rewrite (IHl _ _ Hd).
    + by rewrite (IHr _ _ Hd).
Qed.

Lemma descend_depth x s : ∀ k k',
  descend cmp x k s = Some k' → (ctx_depth k' ≤ ctx_depth k + height s)%nat.
Proof.
  induction s as [|c l IHl a d r IHr]; intros k k'; cbn.
  - intros [= ->]. lia.
  - repeat case_decide; [done|..]; intros Hd.
    + apply IHl in Hd. cbn in Hd. lia.
    + apply IHr in Hd. cbn in Hd. lia.
Qed.

Lemma descend_None x s : ∀ k,
  descend cmp x k s = None → ∃ y, y ∈ elems s ∧ cmp x y = 0%Z.
Proof.
  induction s as [|c l IHl a d r IHr]; intros k; cbn; [done|].
  repeat case_decide.
  - intros _. exists d. split; [|done]. apply elem_of_app. right. left.
  - intros (y & ? & ?)%IHl. exists y. split; [|done]. apply elem_of_app. by left.
  - intros (y & ? & ?)%IHr. exists y. split; [|done]. apply elem_of_app. right. by right.
Qed.

Lemma descend_Some x s : ∀ k k',
  ascending cmp (elems s) →
  descend cmp x k s = Some k' → ∀ y, y ∈ elems s → cmp x y ≠ 0%Z.
Proof.
  induction s as [|c l IHl a d r IHr]; intros k k' Ha; cbn.
  - by intros _ y ?%elem_of_nil.
  - apply ascending_app in Ha as (Hal & Hbel & Har).
    apply ascending_cons in Har as (Hdr & Har).
    apply lbelow_cons_r in Hbel as (Hld & Hlr).
    repeat case_decide; [done|..];
      intros Hd y [Hy|[->|Hy]%elem_of_cons]%elem_of_app.
    + by eapply IHl.
    + done.
    + apply (cmp_neq_lt cmp). eapply (cmp_trans _ Hcmp); [eassumption|].
      by eapply (proj1 (Forall_forall _ _) Hdr).
    + apply (cmp_neq_gt cmp Hcmp). eapply (cmp_trans _ Hcmp).
      * by eapply (proj1 (Forall_forall _ _) Hld).
      * apply (cmp_gt_lt cmp Hcmp). lia.
    + done.
    + by eapply IHr.
Qed.

Lemma descend_ascending x a s : ∀ k k',
  ascending cmp (elems (plug k s)) →
  all_gt cmp x (ctx_before (λ _ d, d) k) →
  all_lt cmp x (ctx_after (λ _ d, d) k) →
  descend cmp x k s = Some k' →
  ascending cmp (elems (plug k' (T RED E a x E))).
Proof.
  induction s as [|c l IHl b d r IHr]; intros k k' Ha Hb Haf; cbn.
  - intros [= <-]. rewrite inorder_plug in *. cbn in *.
    apply ascending_app in Ha as (? & Hbel & ?).
    apply ascending_app. split_and!; [done| |by apply ascending_cons].
    apply lbelow_cons_r. done.
  - pose proof Ha as Ha'. rewrite inorder_plug in Ha'. cbn in Ha'.
    apply ascending_app in Ha' as (_ & _ & Ha').
    apply ascending_app in Ha' as (Ha' & _ & _).
    apply ascending_app in Ha' as (Hal & Hbel & Har).
    apply ascending_cons in Har as (Hdr & Har).
    apply lbelow_cons_r in Hbel as (Hld & Hlr).
    repeat case_decide; [done|..]; intros Hd.
    + eapply (IHl (CL c b d k r)); [exact Ha|exact Hb| |exact Hd]. cbn.
      apply all_lt_cons. split; [done|]. apply all_lt_app. split; [|done].
      eapply Forall_impl; [exact Hdr|]. intros y Hy. cbn in Hy.
      by eapply (cmp_trans _ Hcmp).
    + assert (lt_of cmp d x) by (apply (cmp_gt_lt cmp Hcmp); lia).
      eapply (IHr (CR c l b d k)); [exact Ha| |exact Haf|exact Hd]. cbn.
      apply all_gt_app. split; [done|]. apply all_gt_app.
      split; [|apply all_gt_cons; split; [done|by apply all_gt_nil]].
      eapply Forall_impl; [exact Hld|]. intros y Hy. cbn in Hy.
      by eapply (cmp_trans _ Hcmp).
Qed.
End descend.

Ltac comps := repeat (constructor; [exact I|]); try constructor.

Section addNewNode.
Context (cmp : Z → Z → Z) (ff : Z) (Hcmp : Comparator cmp) (tr : positive).

Lemma addNewNode_spec fuel : ∀ k c l b d r w n a x Q,
  (height (T c l b d r) ≤ fuel)%nat →
  tree_at cmp ff w tr (plug k (T c l b d r)) n →
  nodes w !! a = Some (mkNode None None None x RED) →
  a ∉ addrs (plug k (T c l b d r)) →
  match descend cmp x k (T c l b d r) with
  | None => ∀ es, Forall is_comp es → Q FAILURE (add_log es w)
  | Some k' =>
    ∀ es w', Forall is_comp es → log w' = es ++ log w →
             tree_at cmp ff w' tr (plug k' (T RED E a x E)) n → Q SUCCESS w'
  end →
  wp (addNewNode fuel (Some b) (Some a) cmp) w Q.
Proof.
  induction fuel as [|fuel IH]; intros k c l b d r w n a x Q Hfuel Ht Hleaf Hin HQ;
    [cbn in Hfuel; lia|].
  cbn [addNewNode]. cbn [descend] in HQ.
  pose proof Ht as Ht'. pose proof Hin as Hin'. rewrite inorder_plug in Hin'.
  open_tree Ht'. wp_run.
  revert HQ. destruct (decide (cmp x d = 0%Z)) as [Heq|Hne]; intros HQ.
  { wp_run. apply (HQ [EvComp x d]). comps. }
  revert HQ. destruct (decide (cmp x d < 0)%Z) as [Hlt|Hge]; intros HQ.
  - wp_run. destruct l as [|lc ll la ld lr]; renorm; wp_run.
    + cbn [descend] in HQ. apply (HQ [EvComp x d]); [comps|done|].
      unfold tree_at; split; [|split].
      * wp_simpl. rewrite ?root_of_plug. cbn [ctx_root root_of]. solve_lookup.
      * wp_simpl. apply plug_repr. repr_solve.
      * apply (NoDup_plug_leaf (CL c b d k r)); [apply Ht|exact Hin].
    + eapply (IH (CL c b d k r) lc ll la ld lr); [cbn [height] in *; lia|exact Ht|solve_lookup|exact Hin|].
      destruct (descend cmp x (CL c b d k r) (T lc ll la ld lr)).
      * intros es w' Hes Hlog. apply (HQ (es ++ [EvComp x d])).
        -- apply Forall_app. split; [done|comps].
        -- rewrite Hlog. cbn. by rewrite <- app_assoc.
      * intros es Hes. rewrite add_log_app. apply HQ.
        apply Forall_app. split; [done|comps].
  - wp_run. destruct r as [|rc rl ra rd rr]; renorm; wp_run.
    + cbn [descend] in HQ. apply (HQ [EvComp x d]); [comps|done|].
      unfold tree_at; split; [|split].
      * wp_simpl. rewrite ?root_of_plug. cbn [ctx_root root_of]. solve_lookup.
      * wp_simpl. apply plug_repr. repr_solve.
      * apply (NoDup_plug_leaf (CR c l b d k)); [apply Ht|exact Hin].
    + eapply (IH (CR c l b d k) rc rl ra rd rr); [cbn [height] in *; lia|exact Ht|solve_lookup|exact Hin|].
      destruct (descend cmp x (CR c l b d k) (T rc rl ra rd rr)).
      * intros es w' Hes Hlog. apply (HQ (es ++ [EvComp x d])).
        -- apply Forall_app. split; [done|comps].
        -- rewrite Hlog. cbn. by rewrite <- app_assoc.
      * intros es Hes. rewrite add_log_app. apply HQ.
        apply Forall_app. split; [done|comps].
Qed.
End addNewNode.

(** ** The fixup restores the red-black invariants *)

Lemma ctx_rb_red_not_root k n : ctx_rb k n → red_not_root k.
Proof.
  revert n. induction k as [|c a d up IH r|c l a d up IH]; intros n; cbn; [done|..].
  - intros (_ & _ & H). destruct c.
    + destruct H as (_ & Hb & ?). split; [|by eauto]. intros _ ->. done.
    + split; [done|by eauto].
  - intros (_ & _ & H). destruct c.
    + destruct H as (_ & Hb & ?). split; [|by eauto]. intros _ ->. done.
    + split; [done|by eauto].
Qed.

Lemma plug_is_redblack k : ∀ s n,
  ctx_rb k n → bh s n → no_red_red s → (¬ ctx_black k → root_black s) →
  is_redblack (plug k s).
Proof.
  induction k as [|c a d up IH r|c l a d up IH]; intros s n; cbn.
  - intros _ Hbh Hnr Hb. split_and!; [by apply Hb; intros []|done|by exists n].
  - intros (Hbr & Hnrr & Hc) Hbh Hnr Hb. destruct c.
    + destruct Hc as (Hrb & Hub & Hup).
      apply (IH _ n); cbn; [done|done| |intros Hn; by destruct Hn].
      split_and!; [|done..]. intros _. split; [|done]. apply Hb. congruence.
    + apply (IH _ (S n)); cbn; [done|done| |done].
      split_and!; [congruence|done..].
  - intros (Hbr & Hnrr & Hc) Hbh Hnr Hb. destruct c.
    + destruct Hc as (Hrb & Hub & Hup).
      apply (IH _ n); cbn; [done|done| |intros Hn; by destruct Hn].
      split_and!; [|done..]. intros _. split; [done|]. apply Hb. congruence.
    + apply (IH _ (S n)); cbn; [done|done| |done].
      split_and!; [congruence|done..].
Qed.

Lemma is_redblack_plug_inv k : ∀ s,
  is_redblack (plug k s) →
  ∃ n, bh s n ∧ no_red_red s ∧ ctx_rb k n ∧ (¬ ctx_black k → root_black s).
Proof.
  induction k as [|c a d up IH r|c l a d up IH]; intros s; cbn.
  - intros (Hb & Hnr & n & Hbh). exists n. split_and!; done.
  - intros (n & Hbh & Hnr & Hup & Hb)%IH. cbn in Hbh, Hnr.
    destruct Hnr as (Hc & Hnrs & Hnrr). destruct c.
    + destruct Hbh as [Hbs Hbr]. destruct (Hc eq_refl) as [? ?].
      exists n. split_and!; try done.
      destruct up as [|[] ? ? ? ?|[] ? ? ? ?]; cbn in *; try done;
        by (assert (RED = BLACK) by (apply Hb; first [tauto|congruence])).
    + destruct n as [|n]; [done|]. destruct Hbh as [Hbs Hbr].
      exists n. split_and!; done.
  - intros (n & Hbh & Hnr & Hup & Hb)%IH. cbn in Hbh, Hnr.
    destruct Hnr as (Hc & Hnrs & Hnrr). destruct c.
    + destruct Hbh as [Hbs Hbr]. destruct (Hc eq_refl) as [? ?].
      exists n. split_and!; try done.
      destruct up as [|[] ? ? ? ?|[] ? ? ? ?]; cbn in *; try done;
        by (assert (RED = BLACK) by (apply Hb; first [tauto|congruence])).
    + destruct n as [|n]; [done|]. destruct Hbh as [Hbs Hbr].
      exists n. split_and!; done.
Qed.

Lemma fixup_inorder {A} (f : positive → Z → A) m : ∀ k s,
  (ctx_depth k < m)%nat → inorder f (fixup k s) = inorder f (plug k s).
Proof.
  induction m as [|m IH]; intros k s Hm; [lia|].
  destruct k as [|[] pa pd [|gc ga gd up u|gc u ga gd up] ps
                 |[] ps pa pd [|gc ga gd up u|gc u ga gd up]];
    cbn [fixup]; try reflexivity;
    try (destruct s; reflexivity);
    cbn [ctx_depth] in Hm.
  - destruct (is_red u) eqn:Hu.
    + rewrite IH by lia. rewrite !inorder_plug. destruct u; cbn; by list_norm.
    + rewrite !inorder_plug. cbn. by list_norm.
  - destruct (is_red u) eqn:Hu.
    + rewrite IH by lia. rewrite !inorder_plug. destruct u; cbn; by list_norm.
    + destruct s; [done|]. rewrite !inorder_plug. cbn. by list_norm.
  - destruct (is_red u) eqn:Hu.
    + rewrite IH by lia. rewrite !inorder_plug. destruct u; cbn; by list_norm.
    + destruct s; [done|]. rewrite !inorder_plug. cbn. by list_norm.
  - destruct (is_red u) eqn:Hu.
    + rewrite IH by lia. rewrite !inorder_plug. destruct u; cbn; by list_norm.
    + rewrite !inorder_plug. cbn. by list_norm.
Qed.

Ltac rb_auto := cbn in *; intuition (try congruence).

Lemma fixup_is_redblack m : ∀ k n l a d r,
  (ctx_depth k < m)%nat →
  ctx_rb k n → bh (T RED l a d r) n → no_red_red (T RED l a d r) →
  is_redblack (fixup k (T RED l a d r)).
Proof.
  induction m as [|m IH]; intros k n l a d r Hm Hk Hbh Hnr; [lia|].
  destruct k as [|pc pa pd up ps|pc ps pa pd up]; cbn [fixup recolor].
  - split_and!; [done|rb_auto|exists (S n); rb_auto].
  - destruct pc.
    2:{ eapply plug_is_redblack; [exact Hk|done|done|]. intros []. done. }
    cbn [ctx_rb] in Hk. destruct Hk as (Hbs & Hns & Hrs & Hub & Hup).
    destruct up as [|gc ga gd up u|gc u ga gd up]; [done|..]; cbn in Hub; subst gc;
      cbn [ctx_rb] in Hup; destruct Hup as (Hbu & Hnu & Hup); cbn [ctx_depth] in Hm.
    + destruct u as [|[] ul ua ud ur]; cbn [is_red recolor].
      * eapply (plug_is_redblack _ _ (S n)); [done|rb_auto..].
      * eapply (IH up (S n)); [lia|done|rb_auto..].
      * eapply (plug_is_redblack _ _ (S n)); [done|rb_auto..].
    + destruct u as [|[] ul ua ud ur]; cbn [is_red recolor].
      * eapply (plug_is_redblack _ _ (S n)); [done|rb_auto..].
      * eapply (IH up (S n)); [lia|done|rb_auto..].
      * eapply (plug_is_redblack _ _ (S n)); [done|rb_auto..].
  - destruct pc.
    2:{ eapply plug_is_redblack; [exact Hk|done|done|]. intros []. done. }
    cbn [ctx_rb] in Hk. destruct Hk as (Hbs & Hns & Hrs & Hub & Hup).
    destruct up as [|gc ga gd up u|gc u ga gd up]; [done|..]; cbn in Hub; subst gc;
      cbn [ctx_rb] in Hup; destruct Hup as (Hbu & Hnu & Hup); cbn [ctx_depth] in Hm.
    + destruct u as [|[] ul ua ud ur]; cbn [is_red recolor].
      * eapply (plug_is_redblack _ _ (S n)); [done|rb_auto..].
      * eapply (IH up (S n)); [lia|done|rb_auto..].
      * eapply (plug_is_redblack _ _ (S n)); [done|rb_auto..].
    + destruct u as [|[] ul ua ud ur]; cbn [is_red recolor].
      * eapply (plug_is_redblack _ _ (S n)); [done|rb_auto..].
      * eapply (IH up (S n)); [lia|done|rb_auto..].
      * eapply (plug_is_redblack _ _ (S n)); [done|rb_auto..].
Qed.

(** ** Allocation discipline *)

Lemma ka_ret {A} (a : A) : keeps_alloc (ret a).
Proof. by intros w Hw. Qed.

Lemma ka_bind {A B} (m : M A) (f : A → M B) :
  keeps_alloc m → (∀ a, keeps_alloc (f a)) → keeps_alloc (bind m f).
Proof.
  intros Hm Hf w Hw. apply wlp_bind. eapply wlp_mono; [by apply Hm|].
  intros a w' Hw'. by apply Hf.
Qed.

Lemma ka_out_of_fuel {A} : keeps_alloc (@out_of_fuel A).
Proof. by intros w Hw. Qed.

Lemma ka_load {A} (f : Node → A) p : keeps_alloc (load f p).
Proof.
  intros w Hw. unfold wlp, load. destruct p as [a|]; [|done].
  by destruct (nodes w !! a).
Qed.

Lemma ka_tload {A} (f : RBTree → A) p : keeps_alloc (tload f p).
Proof.
  intros w Hw. unfold wlp, tload. destruct p as [a|]; [|done].
  by destruct (trees w !! a).
Qed.

Lemma ka_store f p : keeps_alloc (store f p).
Proof.
  intros w Hw. unfold wlp, store. destruct p as [a|]; [|done].
  destruct (nodes w !! a) eqn:Ha; [|done].
  intros x Hx. destruct (Hw x Hx) as [Hn Ht]. split; [|done]. cbn.
  rewrite lookup_insert_ne; [done|]. intros ->. congruence.
Qed.

Lemma ka_tstore f p : keeps_alloc (tstore f p).
Proof.
  intros w Hw. unfold wlp, tstore. destruct p as [a|]; [|done].
  destruct (trees w !! a) eqn:Ha; [|done].
  intros x Hx. destruct (Hw x Hx) as [Hn Ht]. split; [done|]. cbn.
  rewrite lookup_insert_ne; [done|]. intros ->. congruence.
Qed.

Lemma ka_emit e : keeps_alloc (emit e).
Proof. by intros w Hw. Qed.

Lemma ka_call_comp f a b : keeps_alloc (call_comp f a b).
Proof. by intros w Hw. Qed.

Lemma ka_malloc_Node : keeps_alloc malloc_Node.
Proof.
  intros w Hw. unfold wlp, malloc_Node. destruct (cap w); [done|].
  intros x Hx. cbn in *. destruct (Hw x ltac:(lia)) as [Hn Ht]. split; [|done].
  rewrite lookup_insert_ne; [done|lia].
Qed.

Lemma ka_malloc_RBTree : keeps_alloc malloc_RBTree.
Proof.
  intros w Hw. unfold wlp, malloc_RBTree. destruct (cap w); [done|].
  intros x Hx. cbn in *. destruct (Hw x ltac:(lia)) as [Hn Ht]. split; [done|].
  rewrite lookup_insert_ne; [done|lia].
Qed.

Lemma ka_free_Node p : keeps_alloc (free_Node p).
Proof.
  intros w Hw. unfold wlp, free_Node. destruct p as [a|]; [|done].
  destruct (nodes w !! a) eqn:Ha; [|done].
  intros x Hx. destruct (Hw x Hx) as [Hn Ht]. split; [|done]. cbn.
  rewrite lookup_delete_ne; [done|]. intros ->. congruence.
Qed.

Lemma ka_if {A} (P : Prop) `{Decision P} (m1 m2 : M A) :
  keeps_alloc m1 → keeps_alloc m2 → keeps_alloc (if decide P then m1 else m2).
Proof. by destruct (decide P). Qed.

Ltac ka_step :=
  first
    [ apply ka_ret | apply ka_load | apply ka_tload | apply ka_store | apply ka_tstore
    | apply ka_call_comp | apply ka_emit | apply ka_malloc_Node | apply ka_malloc_RBTree
    | apply ka_free_Node | apply ka_out_of_fuel
    | apply ka_bind; [|intros ?]
    | apply ka_if
    | assumption ].

Ltac ka := repeat ka_step.

Lemma ka_isRightChild cmp p : keeps_alloc (isRightChild cmp p).
Proof. unfold isRightChild. ka. Qed.

Lemma ka_findUncle p t : keeps_alloc (findUncle p t).
Proof. unfold findUncle. ka; apply ka_isRightChild. Qed.

Lemma ka_leftRightSwitch a b c : keeps_alloc (leftRightSwitch a b c).
Proof. unfold leftRightSwitch. ka. Qed.

Lemma ka_rightLeftSwitch a b c : keeps_alloc (rightLeftSwitch a b c).
Proof. unfold rightLeftSwitch. ka. Qed.

Lemma ka_leftLeftSwitch a b t : keeps_alloc (leftLeftSwitch a b t).
Proof. unfold leftLeftSwitch. ka; apply ka_isRightChild. Qed.

Lemma ka_rightRightSwitch a b t : keeps_alloc (rightRightSwitch a b t).
Proof. unfold rightRightSwitch. ka; apply ka_isRightChild. Qed.

Lemma ka_modifyRedBlack a b c t : keeps_alloc (modifyRedBlack a b c t).
Proof.
  unfold modifyRedBlack.
  ka; first [ apply ka_isRightChild | apply ka_leftRightSwitch | apply ka_rightLeftSwitch
            | apply ka_leftLeftSwitch | apply ka_rightRightSwitch ].
Qed.

Lemma ka_modifyNode fuel : ∀ a t, keeps_alloc (modifyNode fuel a t).
Proof.
  induction fuel as [|fuel IH]; intros a t; cbn [modifyNode]; [apply ka_out_of_fuel|].
  ka; first [ apply ka_findUncle | apply ka_modifyRedBlack | apply IH ].
Qed.

Lemma ka_addNewNode fuel : ∀ a b cmp, keeps_alloc (addNewNode fuel a b cmp).
Proof.
  induction fuel as [|fuel IH]; intros a b cmp; cbn [addNewNode]; [apply ka_out_of_fuel|].
  ka; apply IH.
Qed.

Lemma ka_makeNewNode x : keeps_alloc (makeNewNode x).
Proof. unfold makeNewNode. ka. Qed.

Lemma ka_addToRBTree fuel t x : keeps_alloc (addToRBTree fuel t x).
Proof.
  unfold addToRBTree. ka; try first [ apply ka_makeNewNode | apply ka_addNewNode ].
  destruct a1; ka. apply ka_modifyNode.
Qed.

Lemma ka_newRBTree cmp ff : keeps_alloc (newRBTree cmp ff).
Proof. unfold newRBTree. ka. Qed.

(** ** More fuel never changes a result *)

Lemma refines_refl {A} (m : M A) : refines m m.
Proof. by intros w a w'. Qed.

Lemma refines_bind {A B} (m1 m2 : M A) (f1 f2 : A → M B) :
  refines m1 m2 → (∀ a, refines (f1 a) (f2 a)) → refines (bind m1 f1) (bind m2 f2).
Proof.
  intros Hm Hf w b w'. unfold bind. destruct (m1 w) as [a w1| |] eqn:H1; [|done..].
  rewrite (Hm _ _ _ H1). apply Hf.
Qed.

Lemma refines_out_of_fuel {A} (m : M A) : refines out_of_fuel m.
Proof. by intros w a w'. Qed.

Lemma refines_if {A} (P : Prop) `{Decision P} (m1 m2 m1' m2' : M A) :
  refines m1 m1' → refines m2 m2' →
  refines (if decide P then m1 else m2) (if decide P then m1' else m2').
Proof. by destruct (decide P). Qed.

Ltac mono_step :=
  first
    [ apply refines_out_of_fuel
    | apply refines_bind; [|intros ?]
    | apply refines_if
    | apply refines_refl ].

Lemma modifyNode_mono fuel : ∀ fuel' a t,
  (fuel ≤ fuel')%nat → refines (modifyNode fuel a t) (modifyNode fuel' a t).
Proof.
  induction fuel as [|fuel IH]; intros [|fuel'] a t Hle; cbn [modifyNode];
    try apply refines_out_of_fuel; [lia|].
  repeat first [ apply IH; lia | mono_step ].
Qed.

Lemma addNewNode_mono fuel : ∀ fuel' a b cmp,
  (fuel ≤ fuel')%nat → refines (addNewNode fuel a b cmp) (addNewNode fuel' a b cmp).
Proof.
  induction fuel as [|fuel IH]; intros [|fuel'] a b cmp Hle; cbn [addNewNode];
    try apply refines_out_of_fuel; [lia|].
  repeat first [ apply IH; lia | mono_step ].
Qed.

Lemma addToRBTree_mono fuel fuel' t x :
  (fuel ≤ fuel')%nat → refines (addToRBTree fuel t x) (addToRBTree fuel' t x).
Proof.
  intros Hle. unfold addToRBTree.
  repeat first [ apply addNewNode_mono; lia | apply modifyNode_mono; lia | mono_step ].
  destruct a1; repeat first [ apply modifyNode_mono; lia | mono_step ].
Qed.

Lemma freeNodes_mono fuel : ∀ fuel' a f,
  (fuel ≤ fuel')%nat → refines (freeNodes fuel a f) (freeNodes fuel' a f).
Proof.
  induction fuel as [|fuel IH]; intros [|fuel'] a f Hle; cbn [freeNodes];
    try apply refines_out_of_fuel; [lia|].
  repeat first [ apply IH; lia | mono_step ].
Qed.

Lemma containsLoop_mono fuel : ∀ fuel' t a x,
  (fuel ≤ fuel')%nat → refines (containsLoop fuel t a x) (containsLoop fuel' t a x).
Proof.
  induction fuel as [|fuel IH]; intros [|fuel'] t a x Hle; cbn [containsLoop];
    try apply refines_out_of_fuel; [lia|].
  repeat first [ apply IH; lia | mono_step ].
Qed.

Lemma forEachNode_mono {A} fuel : ∀ fuel' a (f : ForEachFunc A) args,
  (fuel ≤ fuel')%nat → refines (forEachNode fuel a f args) (forEachNode fuel' a f args).
Proof.
  induction fuel as [|fuel IH]; intros [|fuel'] a f args Hle; cbn [forEachNode];
    try apply refines_out_of_fuel; [lia|].
  repeat first [ apply IH; lia | mono_step ].
Qed.

(** ** Insertion *)

Lemma wp_malloc_Node w Q :
  match cap w with
  | O => Q None w
  | S c => Q (Some (next w))
             (mkWorld (<[next w := mkNode None None None 0 RED]> (nodes w))
                      (trees w) (Pos.succ (next w)) c (log w))
  end →
  wp malloc_Node w Q.
Proof. unfold wp, malloc_Node. by destruct (cap w). Qed.

Section insert.
Context (cmp : Z → Z → Z) (ff : Z) (Hcmp : Comparator cmp) (tr : positive).

Lemma insert_t_None x a t :
  insert_t cmp x a t = None → ∃ y, y ∈ elems t ∧ cmp x y = 0%Z.
Proof.
  unfold insert_t. destruct (descend cmp x Top t) eqn:Hd; [done|].
  intros _. by eapply descend_None.
Qed.

Lemma insert_t_Some x a t t' :
  ascending cmp (elems t) →
  insert_t cmp x a t = Some t' →
  elems t' ≡ₚ x :: elems t ∧ addrs t' ≡ₚ a :: addrs t ∧
  ascending cmp (elems t') ∧ (∀ y, y ∈ elems t → cmp x y ≠ 0%Z) ∧
  (is_redblack t → is_redblack t').
Proof.
  unfold insert_t. intros Ha. destruct (descend cmp x Top t) as [k|] eqn:Hd; [|done].
  intros [= <-]. pose proof (descend_plug _ _ _ _ _ Hd) as Hp. cbn in Hp.
  split_and!.
  - rewrite (fixup_inorder _ (S (ctx_depth k))) by lia.
    rewrite <- Hp, !inorder_plug. cbn. by rewrite Permutation_middle.
  - rewrite (fixup_inorder _ (S (ctx_depth k))) by lia.
    rewrite <- Hp, !inorder_plug. cbn. by rewrite Permutation_middle.
  - rewrite (fixup_inorder _ (S (ctx_depth k))) by lia.
    eapply (descend_ascending cmp Hcmp x a _ Top); [exact Ha|..|exact Hd]; cbn; constructor.
  - by eapply descend_Some.
  - intros Hrb. rewrite <- Hp in Hrb.
    apply is_redblack_plug_inv in Hrb as (n & Hbh & _ & Hk & _). cbn in Hbh. subst n.
    eapply (fixup_is_redblack (S (ctx_depth k))); [lia|exact Hk|by cbn|by cbn].
Qed.

Lemma addToRBTree_spec fuel w t n x :
  rbtree_inv cmp ff w tr t n →
  (height t < fuel)%nat →
  wp (addToRBTree fuel (Some tr) x) w (addToRBTree_post cmp ff tr w t n x).
Proof.
  intros (Ht & Ha & Hrb & Hal) Hfuel.
  eapply wp_mono.
  { apply wp_wlp; [|apply (ka_addToRBTree fuel (Some tr) x w Hal)].
    instantiate (1 := λ res w', alloc_ok w' → addToRBTree_post cmp ff tr w t n x res w').
    unfold addToRBTree, makeNewNode, addToRBTree_post.
    apply wp_bind, wp_bind, wp_malloc_Node.
    destruct (cap w) as [|c] eqn:Hcap.
    { wp_run. by intros _. }
    set (a := next w).
    assert (nodes w !! a = None) as Hfresh by (apply Hal; subst a; lia).
    assert (a ∉ addrs t) as Hin by (eapply heap_repr_fresh; [apply Ht|done]).
    destruct Ht as (Hroot & Hr & Hnd).
    pose proof (conj Hroot (conj Hr Hnd) : tree_at cmp ff w tr t n) as Ht.
    wp_run. unfold insert_t.
    destruct t as [|tc tl ta td trr].
    - (* empty tree *)
      cbn [descend]. wp_run.
      eapply (modifyNode_spec _ _ Hcmp _ _ Top RED E a x E); [cbn [height ctx_depth] in *; lia| |cbn; apply ascending_cons; split; constructor|exact I|].
      { split_and!; [solve_lookup|cbn; split_and!; [solve_lookup|done..]|cbn; repeat constructor; by intros ?%elem_of_nil]. }
      intros w1 Hw1. pose proof Hw1 as (Hroot1 & _). wp_run.
      intros Hal1. split; [done|].
      pose proof (insert_t_Some x a E _ Ha eq_refl) as (_ & _ & ? & _ & Hrb').
      split_and!; [|done|by apply Hrb'|done].
      destruct Hw1 as (_ & ? & ?). split_and!; [solve_lookup|done|done].
    - (* descent from the root *)
      wp_run.
      eapply (addNewNode_spec cmp ff tr fuel Top tc tl ta td trr _ n a x); [cbn [height] in *; lia| |solve_lookup|exact Hin|].
      { split_and!; [solve_lookup|wp_simpl; repr_solve|exact Hnd]. }
      cbn [plug]; wp_simpl. destruct (descend cmp x Top (T tc tl ta td trr)) as [k|] eqn:Hd.
      + intros es w1 Hes Hlog Hw1. wp_run.
        pose proof (descend_plug _ _ _ _ _ Hd) as Hp. cbn in Hp.
        pose proof (descend_depth _ _ _ _ _ Hd) as Hdep. cbn [ctx_depth] in Hdep.
        pose proof (insert_t_Some x a (T tc tl ta td trr)) as Hins.
        unfold insert_t in Hins. rewrite Hd in Hins.
        destruct (Hins _ Ha eq_refl) as (_ & _ & Ha' & _ & Hrb').
        eapply (modifyNode_spec _ _ Hcmp _ _ k RED E a x E); [lia|exact Hw1| | |].
        { eapply (descend_ascending cmp Hcmp x a _ Top); [exact Ha|..|exact Hd]; cbn; constructor. }
        { rewrite <- Hp in Hrb.
          apply is_redblack_plug_inv in Hrb as (? & _ & _ & Hk & _).
          by eapply ctx_rb_red_not_root. }
        intros w2 Hw2. pose proof Hw2 as (Hroot2 & ? & ?). wp_run.
        intros Hal2. split; [done|].
        split_and!; [|exact Ha'|by apply Hrb'|done].
        split_and!; [solve_lookup|done|done].
      + intros es Hes. wp_run. eapply wp_free_Node; [solve_lookup|]. wp_run.
        intros Hal'. split; [done|]. exists es. split; [done|].
        f_equal. rewrite !delete_insert_eq. by apply delete_id. }
  intros res w' [H1 H2]. by apply H1.
Qed.
End insert.

(** ** Trees built by insertions *)

Lemma wp_malloc_RBTree w Q :
  match cap w with
  | O => Q None w
  | S c => Q (Some (next w))
             (mkWorld (nodes w)
                      (<[next w := mkRBTree None (λ _ _, 0%Z) 0 0]> (trees w))
                      (Pos.succ (next w)) c (log w))
  end →
  wp malloc_RBTree w Q.
Proof. unfold wp, malloc_RBTree. by destruct (cap w). Qed.

Section built.
Context (cmp : Z → Z → Z) (ff : Z) (Hcmp : Comparator cmp) (tr : positive).

Lemma newRBTree_spec w0 :
  alloc_ok w0 →
  wp (newRBTree cmp ff) w0 (λ r w,
    match r with
    | None => w = w0
    | Some t => rbtree_inv cmp ff w t E 0 ∧ log w = log w0
    end).
Proof.
  intros Hal. eapply wp_mono.
  { apply wp_wlp; [|apply (ka_newRBTree cmp ff w0 Hal)].
    instantiate (1 := λ r w, alloc_ok w →
      match r with
      | None => w = w0
      | Some t => rbtree_inv cmp ff w t E 0 ∧ log w = log w0
      end).
    unfold newRBTree. apply wp_bind, wp_malloc_RBTree.
    destruct (cap w0) as [|c]; wp_run; [done|].
    intros Hal'. split; [|done]. split_and!; [|constructor|..|done].
    - split_and!; [solve_lookup|done|constructor].
    - split_and!; [done..|]. by exists 0%nat. }
  intros r w [H1 H2]. by apply H1.
Qed.

Lemma rbtree_inv_log_only w w' t n :
  rbtree_inv cmp ff w tr t n →
  nodes w' = nodes w → trees w' = trees w → (next w ≤ next w')%positive →
  rbtree_inv cmp ff w' tr t n.
Proof.
  intros ((Hroot & Hr & Hnd) & Ha & Hrb & Hal) Hn Ht Hnext.
  split_and!; [|done..|].
  - unfold tree_at. rewrite Hn, Ht. done.
  - intros x Hx. rewrite Hn, Ht. apply Hal. lia.
Qed.

(** Every completed call of [addToRBTree] obeys its specification,
    whatever fuel it was given. *)
Lemma addToRBTree_complete fuel w t n x res w' :
  rbtree_inv cmp ff w tr t n →
  addToRBTree fuel (Some tr) x w = Ok res w' →
  addToRBTree_post cmp ff tr w t n x res w'.
Proof.
  intros Hinv Hrun.
  pose proof (addToRBTree_spec cmp ff Hcmp tr (fuel `max` S (height t)) w t n x Hinv
                ltac:(lia)) as Hwp.
  apply wp_Ok in Hwp as (res' & w'' & Hrun' & Hpost).
  apply (addToRBTree_mono fuel (fuel `max` S (height t))) in Hrun; [|lia].
  rewrite Hrun in Hrun'. by injection Hrun' as <- <-.
Qed.

Lemma built_inv w xs :
  built cmp ff tr w xs →
  ∃ t, rbtree_inv cmp ff w tr t (Z.of_nat (length xs)) ∧ elems t ≡ₚ xs.
Proof.
  induction 1 as [w0 w Hal Hnew|w xs fuel x w' Hb (t & Hinv & Hperm) Hadd
                 |w xs fuel x w' Hb (t & Hinv & Hperm) Hadd].
  - pose proof (newRBTree_spec w0 Hal) as Hwp.
    apply wp_Ok in Hwp as (r & w1 & Hrun & Hpost).
    rewrite Hnew in Hrun. injection Hrun as <- <-.
    exists E. split; [apply Hpost|done].
  - pose proof (addToRBTree_complete _ _ _ _ _ _ _ Hinv Hadd) as Hpost.
    unfold addToRBTree_post in Hpost.
    destruct (cap w); [by destruct Hpost|].
    destruct (insert_t cmp x (next w) t) as [t'|] eqn:Hins; [|by destruct Hpost].
    destruct Hpost as [_ Hinv'].
    destruct Hinv as (_ & Ha & _).
    destruct (insert_t_Some cmp Hcmp _ _ _ _ Ha Hins) as (Hp & _).
    exists t'. split.
    + cbn [length]. by replace (Z.of_nat (S (length xs))) with (Z.of_nat (length xs) + 1)%Z by lia.
    + by rewrite Hp, Hperm.
  - pose proof (addToRBTree_complete _ _ _ _ _ _ _ Hinv Hadd) as Hpost.
    unfold addToRBTree_post in Hpost.
    exists t. split; [|done].
    destruct (cap w); [by destruct Hpost as [_ ->]|].
    destruct (insert_t cmp x (next w) t) as [t'|] eqn:Hins; [by destruct Hpost|].
    destruct Hpost as (_ & es & _ & ->).
    eapply rbtree_inv_log_only; [exact Hinv|done|done|cbn; lia].
Qed.

(** Every insertion into a built tree completes, given enough fuel. *)
Lemma addToRBTree_total w xs x :
  built cmp ff tr w xs →
  ∃ fuel0, ∀ fuel, (fuel0 ≤ fuel)%nat →
    ∃ res w', addToRBTree fuel (Some tr) x w = Ok res w'.
Proof.
  intros (t & Hinv & _)%built_inv. exists (S (height t)). intros fuel Hfuel.
  pose proof (addToRBTree_spec cmp ff Hcmp tr fuel w t _ x Hinv ltac:(lia)) as Hwp.
  apply wp_Ok in Hwp as (res & w' & Hrun & _). eauto.
Qed.
End built.

(** ** Black heights *)

Lemma bh_black_counts t : ∀ n, bh t n → ∀ p, p ∈ black_counts t → p = n.
Proof.
  induction t as [|c l IHl a d r IHr]; intros n; cbn.
  - intros -> p ?%list_elem_of_singleton. done.
  - destruct c.
    + intros [Hl Hr] p (q & -> & [?|?]%elem_of_app)%list_elem_of_fmap; eauto.
    + destruct n as [|n]; [done|].
      intros [Hl Hr] p (q & -> & [?|?]%elem_of_app)%list_elem_of_fmap; f_equal; eauto.
Qed.

Lemma bh_subtree s t : ∀ n, bh t n → subtree s t → ∃ m, bh s m.
Proof.
  induction t as [|c l IHl a d r IHr]; intros n Hbh; cbn.
  - intros [->|[]]. eauto.
  - intros [->|[Hs|Hs]]; [eauto|..]; cbn in Hbh; destruct c; try destruct n;
      try done; destruct Hbh; eauto.
Qed.

(** ** Traversal *)

Lemma wp_call_func {A} (func : ForEachFunc A) d args w Q :
  Q (func d args) (add_log [EvVisit d] w) → wp (call_func func d args) w Q.
Proof. done. Qed.

Section forEach.
Context {A : Type} (func : ForEachFunc A).

Lemma run_visitor_result xs args :
  (run_visitor func xs args).1.1 = SUCCESS ∨ (run_visitor func xs args).1.1 = FAILURE.
Proof.
  revert args. induction xs as [|x xs IH]; intros args; cbn; [by left|].
  case_decide; cbn; [by right|apply IH].
Qed.

Lemma run_visitor_app xs ys args :
  run_visitor func (xs ++ ys) args =
    let r1 := run_visitor func xs args in
    if decide (r1.1.1 = FAILURE) then r1
    else let r2 := run_visitor func ys r1.1.2 in (r2.1.1, r2.1.2, r1.2 ++ r2.2).
Proof.
  revert args. induction xs as [|x xs IH]; intros args; cbn.
  - by destruct (run_visitor func ys args) as [[? ?] ?].
  - case_decide; cbn; [done|]. rewrite IH. cbn. by case_decide.
Qed.

Lemma run_visitor_prefix xs args : (run_visitor func xs args).2 `prefix_of` xs.
Proof.
  revert args. induction xs as [|x xs IH]; intros args; cbn; [done|].
  case_decide; cbn.
  - by apply prefix_cons, prefix_nil.
  - by apply prefix_cons.
Qed.

Lemma run_visitor_all xs args :
  (∀ d a, (func d a).1 ≠ 0%Z) →
  (run_visitor func xs args).1.1 = SUCCESS ∧ (run_visitor func xs args).2 = xs.
Proof.
  intros Hgo. revert args. induction xs as [|x xs IH]; intros args; cbn; [done|].
  rewrite decide_False by apply Hgo. cbn. destruct (IH (func x args).2) as [-> ->]. done.
Qed.

Lemma visited_app vs vs' w : visited vs' (visited vs w) = visited (vs ++ vs') w.
Proof.
  unfold visited. rewrite add_log_app. by rewrite fmap_app, rev_app_distr.
Qed.

Lemma forEachNode_spec fuel : ∀ c l a d r par w args Q,
  (height (T c l a d r) ≤ fuel)%nat →
  heap_repr (nodes w) par (T c l a d r) →
  Q (run_visitor func (elems (T c l a d r)) args).1
    (visited (run_visitor func (elems (T c l a d r)) args).2 w) →
  wp (forEachNode fuel (Some a) func args) w Q.
Proof.
  induction fuel as [|fuel IH]; intros c l a d r par w args Q Hfuel Hr HQ;
    [cbn in Hfuel; lia|].
  cbn [heap_repr] in Hr. destruct Hr as (Ha & Hl & Hr).
  cbn [forEachNode]. wp_run.
  (* the left subtree *)
  apply (wp_mono _ _ (λ ra w', ra = (run_visitor func (elems l) args).1
                               ∧ w' = visited (run_visitor func (elems l) args).2 w)).
  { destruct l as [|lc ll la ld lr]; wp_run; [done|].
    eapply (IH lc ll la ld lr (Some a)); [cbn [height] in *; lia|exact Hl|done]. }
  intros ra w1 [-> ->]. wp_simpl.
  revert HQ. cbn [inorder]. rewrite run_visitor_app. cbn zeta.
  destruct (decide ((run_visitor func (elems l) args).1.1 = FAILURE)) as [Hstop|Hgo];
    intros HQ.
  { wp_run. destruct (run_visitor func (elems l) args) as [[? ?] ?]. cbn in *.
    by subst. }
  wp_run. apply wp_call_func. wp_simpl.
  revert HQ. cbn [run_visitor]. cbn zeta.
  set (args1 := (run_visitor func (elems l) args).1.2).
  set (vs1 := (run_visitor func (elems l) args).2).
  destruct (decide ((func d args1).1 = 0%Z)) as [Hz|Hnz]; intros HQ.
  { wp_run. cbn in HQ. unfold visited in *. rewrite add_log_app.
    by rewrite fmap_app, rev_app_distr in HQ. }
  wp_run.
  (* the right subtree *)
  apply (wp_mono _ _ (λ rc w', rc = (run_visitor func (elems r) (func d args1).2).1
      ∧ w' = visited (run_visitor func (elems r) (func d args1).2).2
               (add_log [EvVisit d] (visited vs1 w)))).
  { destruct r as [|rc rl ra rd rr]; wp_run; [done|].
    eapply (IH rc rl ra rd rr (Some a)); [cbn [height] in *; lia|exact Hr|done]. }
  intros rc w2 [-> ->]. wp_simpl.
  set (res := run_visitor func (elems r) (func d args1).2) in *.
  cbn in HQ.
  assert (visited res.2 (add_log [EvVisit d] (visited vs1 w))
          = visited (vs1 ++ d :: res.2) w) as Hw.
  { change (add_log [EvVisit d] (visited vs1 w)) with (visited [d] (visited vs1 w)).
    by rewrite !visited_app. }
  rewrite Hw.
  pose proof (run_visitor_result (elems r) (func d args1).2) as Hres.
  fold res in Hres. destruct Hres as [Hs|Hf].
  - rewrite decide_False by (rewrite Hs; done). wp_run. by rewrite Hs in HQ.
  - rewrite decide_True by done. wp_run. by rewrite Hf in HQ.
Qed.
End forEach.

(** ** Lookup *)

Section contains.
Context (cmp : Z → Z → Z) (tr : positive).

Lemma contains_t_result x t : contains_t cmp x t = SUCCESS ∨ contains_t cmp x t = FAILURE.
Proof. induction t; cbn; repeat case_decide; auto. Qed.

Lemma contains_t_sound x t :
  contains_t cmp x t = SUCCESS → ∃ y, y ∈ elems t ∧ cmp y x = 0%Z.
Proof.
  induction t as [|c l IHl a d r IHr]; cbn; [done|].
  repeat case_decide; [done|..].
  - intros _. exists d. split; [|done]. apply elem_of_app. right. left.
  - intros (y & ? & ?)%IHl. exists y. split; [|done]. apply elem_of_app. by left.
  - intros (y & ? & ?)%IHr. exists y. split; [|done]. apply elem_of_app. right. by right.
Qed.

Lemma contains_t_complete (Hcmp : Comparator cmp) x t :
  ascending cmp (elems t) → NULL ∉ elems t →
  (∃ y, y ∈ elems t ∧ cmp y x = 0%Z) → contains_t cmp x t = SUCCESS.
Proof.
  induction t as [|c l IHl a d r IHr]; cbn.
  - by intros _ _ (y & ?%elem_of_nil & _).
  - intros Ha Hnull (y & Hy & Hxy).
    apply ascending_app in Ha as (Hal & Hbel & Har).
    apply ascending_cons in Har as (Hdr & Har).
    apply lbelow_cons_r in Hbel as (Hld & Hlr).
    apply not_elem_of_app in Hnull as (Hnl & (Hnd & Hnr)%not_elem_of_cons).
    rewrite decide_False by done.
    destruct (decide (cmp d x = 0%Z)) as [|Hne]; [done|].
    apply elem_of_app in Hy as [Hy|[->|Hy]%elem_of_cons]; [| done |].
    + (* the equal element is on the left: the node is greater *)
      rewrite decide_True; [apply IHl; eauto|].
      apply (cmp_gt_lt cmp Hcmp).
      apply (cmp_equiv _ Hcmp y x d Hxy).
      by eapply (proj1 (Forall_forall _ _) Hld).
    + (* the equal element is on the right: the node is smaller *)
      assert (lt_of cmp d y) as Hdy by by eapply (proj1 (Forall_forall _ _) Hdr).
      rewrite decide_False; [apply IHr; eauto|].
      intros Hgt. apply (cmp_gt_lt cmp Hcmp) in Hgt.
      apply (cmp_equiv _ Hcmp x y d (cmp_sym_0 cmp Hcmp _ _ Hxy)) in Hgt.
      pose proof (cmp_antisym _ Hcmp d y). unfold lt_of in *. lia.
Qed.

Lemma containsLoop_spec x fuel : ∀ t par w rbt Q,
  (height t < fuel)%nat →
  heap_repr (nodes w) par t →
  trees w !! tr = Some rbt → compFunc rbt = cmp →
  (∀ es, Forall is_comp es → Q (contains_t cmp x t) (add_log es w)) →
  wp (containsLoop fuel (Some tr) (root_of t) x) w Q.
Proof.
  induction fuel as [|fuel IH]; intros t par w rbt Q Hfuel Hr Htr Hcf HQ; [lia|].
  cbn [containsLoop].
  destruct t as [|c l a d r]; cbn [root_of contains_t] in *.
  { wp_run. apply (HQ []). constructor. }
  destruct Hr as (Ha & Hl & Hr). wp_run.
  revert HQ. destruct (decide (d = NULL)) as [Hd|Hd]; intros HQ.
  { wp_run. apply (HQ []). constructor. }
  wp_run. rewrite Hcf.
  revert HQ. destruct (decide (cmp d x = 0%Z)) as [H0|H0]; intros HQ.
  { wp_run. apply (HQ [EvComp d x]). comps. }
  revert HQ. destruct (decide (cmp d x > 0)%Z) as [Hgt|Hgt]; intros HQ.
  - wp_run. eapply (IH l); [cbn [height] in *; lia|exact Hl|exact Htr|exact Hcf|].
    intros es Hes. rewrite add_log_app. apply HQ.
    apply Forall_app. split; [done|comps].
  - rewrite decide_True by lia.
    wp_run. eapply (IH r); [cbn [height] in *; lia|exact Hr|exact Htr|exact Hcf|].
    intros es Hes. rewrite add_log_app. apply HQ.
    apply Forall_app. split; [done|comps].
Qed.
End contains.

(** ** Teardown *)

Lemma wp_call_free f d w Q : Q tt (add_log [EvFree f d] w) → wp (call_free f d) w Q.
Proof. done. Qed.

Lemma free_t_lookup_notin t : ∀ m x, x ∉ addrs t → free_t t m !! x = m !! x.
Proof.
  induction t as [|c l IHl a d r IHr]; intros m x; cbn; [done|].
  intros (? & (? & ?)%not_elem_of_cons)%not_elem_of_app.
  rewrite lookup_delete_ne by done. by rewrite IHr, IHl.
Qed.

Lemma free_t_lookup_in t : ∀ m x, x ∈ addrs t → free_t t m !! x = None.
Proof.
  induction t as [|c l IHl a d r IHr]; intros m x; cbn.
  - by intros ?%elem_of_nil.
  - intros Hx. destruct (decide (x = a)) as [->|Hne]; [by rewrite lookup_delete_eq|].
    rewrite lookup_delete_ne by done.
    destruct (decide (x ∈ addrs r)) as [?|Hr]; [by apply IHr|].
    rewrite free_t_lookup_notin by done. apply IHl.
    apply elem_of_app in Hx as [?|[?|?]%elem_of_cons]; done.
Qed.

Lemma heap_repr_ext m m' par t :
  (∀ x, x ∈ addrs t → m' !! x = m !! x) → heap_repr m par t → heap_repr m' par t.
Proof.
  revert par. induction t as [|c l IHl a d r IHr]; intros par Hext; cbn; [done|].
  intros (Ha & Hl & Hr). split_and!.
  - rewrite Hext; [done|]. apply elem_of_app. right. left.
  - apply IHl; [|done]. intros x ?. apply Hext, elem_of_app. by left.
  - apply IHr; [|done]. intros x ?. apply Hext, elem_of_app. right. by right.
Qed.

Lemma freeNodes_spec ff fuel : ∀ c l a d r par w Q,
  (height (T c l a d r) ≤ fuel)%nat →
  heap_repr (nodes w) par (T c l a d r) →
  NoDup (addrs (T c l a d r)) →
  (∀ w', nodes w' = free_t (T c l a d r) (nodes w) →
         trees w' = trees w → next w' = next w →
         cap w' = (cap w + length (addrs (T c l a d r)))%nat →
         log w' = rev (destroyed ff (T c l a d r)) ++ log w →
         Q tt w') →
  wp (freeNodes fuel (Some a) ff) w Q.
Proof.
  induction fuel as [|fuel IH]; intros c l a d r par w Q Hfuel Hr Hnd HQ;
    [cbn in Hfuel; lia|].
  cbn [heap_repr] in Hr. destruct Hr as (Ha & Hl & Hr).
  cbn [inorder] in Hnd. apply NoDup_app in Hnd as (Hndl & Hdisj & Hnd).
  apply NoDup_cons in Hnd as (Har & Hndr).
  assert (a ∉ addrs l) as Hal by (intros Hin; apply (Hdisj a Hin); left).
  cbn [freeNodes]. wp_run.
  (* the left subtree *)
  apply (wp_mono _ _ (λ _ w1, nodes w1 = free_t l (nodes w) ∧ trees w1 = trees w
      ∧ next w1 = next w ∧ cap w1 = (cap w + length (addrs l))%nat
      ∧ log w1 = rev (destroyed ff l) ++ log w)).
  { destruct l as [|lc ll la ld lr]; wp_run.
    - split_and!; [done..|cbn; lia|done].
    - eapply (IH lc ll la ld lr (Some a)); [cbn [height] in *; lia|exact Hl|done|].
      intros w' ? ? ? ? ?. done. }
  intros _ w1 (Hn1 & Ht1 & Hx1 & Hc1 & Hl1).
  assert (nodes w1 !! a = nodes w !! a) as Ha1
    by (rewrite Hn1; by apply free_t_lookup_notin).
  apply wp_bind. eapply wp_load; [by rewrite Ha1|]. wp_simpl. apply wp_bind.
  (* the right subtree *)
  apply (wp_mono _ _ (λ _ w2, nodes w2 = free_t r (nodes w1) ∧ trees w2 = trees w1
      ∧ next w2 = next w1 ∧ cap w2 = (cap w1 + length (addrs r))%nat
      ∧ log w2 = rev (destroyed ff r) ++ log w1)).
  { destruct r as [|rc rl ra rd rr]; wp_run.
    - split_and!; [done..|cbn; lia|done].
    - eapply (IH rc rl ra rd rr (Some a)); [cbn [height] in *; lia| |done|].
      + rewrite Hn1. eapply heap_repr_ext; [|exact Hr].
        intros x Hx. apply free_t_lookup_notin. intros Hxl.
        apply (Hdisj x Hxl). by right.
      + intros w' ? ? ? ? ?. done. }
  intros _ w2 (Hn2 & Ht2 & Hx2 & Hc2 & Hl2).
  assert (nodes w2 !! a = nodes w !! a) as Ha2
    by (rewrite Hn2, free_t_lookup_notin by done; done).
  apply wp_bind. eapply wp_load; [by rewrite Ha2|]. wp_simpl. apply wp_bind.
  assert (rev (destroyed ff (T c l a d r))
          = rev (EvFree ff <$> filter (λ d, d ≠ NULL) [d]) ++ rev (destroyed ff r)
            ++ rev (destroyed ff l)) as Hlog.
  { unfold destroyed. cbn [postorder]. rewrite !filter_app, !fmap_app, !rev_app_distr.
    by rewrite <- app_assoc. }
  assert (cap w2 = (cap w + length (addrs l) + length (addrs r))%nat) as Hcap by lia.
  destruct (decide (d ≠ NULL)) as [Hd|Hd].
  - wp_run. apply wp_call_free. wp_simpl.
    eapply wp_store; [wp_simpl; by rewrite Ha2|]. wp_simpl.
    eapply wp_free_Node; [solve_lookup|]. wp_simpl.
    apply HQ; wp_simpl; [|congruence|congruence| |].
    + rewrite delete_insert_eq. by rewrite Hn2, Hn1.
    + cbn [inorder]. rewrite length_app. cbn [length]. lia.
    + rewrite Hlog, Hl2, Hl1. rewrite filter_cons_True by done. cbn.
      by rewrite <- !app_assoc.
  - wp_run. eapply wp_free_Node; [by rewrite Ha2|]. wp_simpl.
    apply HQ; wp_simpl; [|congruence|congruence| |].
    + by rewrite Hn2, Hn1.
    + cbn [inorder]. rewrite length_app. cbn [length]. lia.
    + rewrite Hlog, Hl2, Hl1. rewrite filter_cons_False by done. cbn.
      by rewrite <- !app_assoc.
Qed.

(** ** Termination of the fixup *)

Lemma nf_ret {A} (a : A) : never_out_of_fuel (ret a).
Proof. by intros w. Qed.

Lemma nf_bind {A B} (m : M A) (f : A → M B) :
  never_out_of_fuel m → (∀ a, never_out_of_fuel (f a)) → never_out_of_fuel (bind m f).
Proof.
  intros Hm Hf w. unfold bind. specialize (Hm w).
  destruct (m w) as [a w'| |]; [apply Hf|done|done].
Qed.

Lemma nf_load {A} (f : Node → A) p : never_out_of_fuel (load f p).
Proof. intros w. unfold load. destruct p as [a|]; [|done]. by destruct (nodes w !! a). Qed.

Lemma nf_store f p : never_out_of_fuel (store f p).
Proof. intros w. unfold store. destruct p as [a|]; [|done]. by destruct (nodes w !! a). Qed.

Lemma nf_tload {A} (f : RBTree → A) p : never_out_of_fuel (tload f p).
Proof. intros w. unfold tload. destruct p as [a|]; [|done]. by destruct (trees w !! a). Qed.

Lemma nf_tstore f p : never_out_of_fuel (tstore f p).
Proof. intros w. unfold tstore. destruct p as [a|]; [|done]. by destruct (trees w !! a). Qed.

Lemma nf_call_comp f a b : never_out_of_fuel (call_comp f a b).
Proof. by intros w. Qed.

Lemma nf_if {A} (P : Prop) `{Decision P} (m1 m2 : M A) :
  never_out_of_fuel m1 → never_out_of_fuel m2 →
  never_out_of_fuel (if decide P then m1 else m2).
Proof. by destruct (decide P). Qed.

Ltac nf_step :=
  first
    [ apply nf_ret | apply nf_load | apply nf_store | apply nf_tload | apply nf_tstore
    | apply nf_call_comp
    | apply nf_bind; [|intros ?]
    | apply nf_if
    | assumption ].

Ltac nf := repeat nf_step.

Lemma nf_isRightChild cmp p : never_out_of_fuel (isRightChild cmp p).
Proof. unfold isRightChild. nf. Qed.

Lemma nf_findUncle p t : never_out_of_fuel (findUncle p t).
Proof. unfold findUncle. nf; apply nf_isRightChild. Qed.

Lemma nf_leftRightSwitch a b c : never_out_of_fuel (leftRightSwitch a b c).
Proof. unfold leftRightSwitch. nf. Qed.

Lemma nf_rightLeftSwitch a b c : never_out_of_fuel (rightLeftSwitch a b c).
Proof. unfold rightLeftSwitch. nf. Qed.

Lemma nf_leftLeftSwitch a b t : never_out_of_fuel (leftLeftSwitch a b t).
Proof. unfold leftLeftSwitch. nf; apply nf_isRightChild. Qed.

Lemma nf_rightRightSwitch a b t : never_out_of_fuel (rightRightSwitch a b t).
Proof. unfold rightRightSwitch. nf; apply nf_isRightChild. Qed.

Lemma nf_modifyRedBlack a b c t : never_out_of_fuel (modifyRedBlack a b c t).
Proof.
  unfold modifyRedBlack.
  nf; first [ apply nf_isRightChild | apply nf_leftRightSwitch | apply nf_rightLeftSwitch
            | apply nf_leftLeftSwitch | apply nf_rightRightSwitch ].
Qed.

Lemma kn_ret {A} (a : A) : keeps_nodes (ret a).
Proof. by intros w. Qed.

Lemma kn_bind {A B} (m : M A) (f : A → M B) :
  keeps_nodes m → (∀ a, keeps_nodes (f a)) → keeps_nodes (bind m f).
Proof.
  intros Hm Hf w. apply wlp_bind. eapply wlp_mono; [apply Hm|].
  intros a w' Hw'. eapply wlp_mono; [apply Hf|]. intros b w'' Hw''. congruence.
Qed.

Lemma kn_load {A} (f : Node → A) p : keeps_nodes (load f p).
Proof. intros w. unfold wlp, load. destruct p as [a|]; [|done]. by destruct (nodes w !! a). Qed.

Lemma kn_tload {A} (f : RBTree → A) p : keeps_nodes (tload f p).
Proof. intros w. unfold wlp, tload. destruct p as [a|]; [|done]. by destruct (trees w !! a). Qed.

Lemma kn_call_comp f a b : keeps_nodes (call_comp f a b).
Proof. by intros w. Qed.

Lemma kn_if {A} (P : Prop) `{Decision P} (m1 m2 : M A) :
  keeps_nodes m1 → keeps_nodes m2 → keeps_nodes (if decide P then m1 else m2).
Proof. by destruct (decide P). Qed.

Ltac kn :=
  repeat first
    [ apply kn_ret | apply kn_load | apply kn_tload | apply kn_call_comp
    | apply kn_bind; [|intros ?] | apply kn_if | assumption ].

Lemma kn_isRightChild cmp p : keeps_nodes (isRightChild cmp p).
Proof. unfold isRightChild. kn. Qed.

Lemma kn_findUncle p t : keeps_nodes (findUncle p t).
Proof. unfold findUncle. kn; apply kn_isRightChild. Qed.

Lemma wpf_never {A} (m : M A) w : wpf m w (λ _ _, True) → m w ≠ OutOfFuel.
Proof. unfold wpf. by destruct (m w). Qed.

Lemma wpf_of_never {A} (m : M A) w Q :
  never_out_of_fuel m → wlp m w Q → wpf m w Q.
Proof. intros Hm. specialize (Hm w). unfold wlp, wpf. by destruct (m w). Qed.

Lemma pchain_store_color m b nb c a n :
  m !! b = Some nb → pchain m a n → pchain (<[b:=with_color c nb]> m) a n.
Proof.
  intros Hb. induction 1 as [a nd Ha Hp|a nd p n Ha Hp _ IH].
  - destruct (decide (a = b)) as [->|Hne].
    + eapply pchain_root; [apply lookup_insert_eq|]. cbn. congruence.
    + eapply pchain_root; [by rewrite lookup_insert_ne|done].
  - destruct (decide (a = b)) as [->|Hne].
    + eapply pchain_step; [apply lookup_insert_eq| |exact IH]. cbn. congruence.
    + eapply pchain_step; [by rewrite lookup_insert_ne|done|exact IH].
Qed.

Lemma modifyNode_fuel_enough fuel : ∀ a n w t,
  pchain (nodes w) a n → (n < fuel)%nat → modifyNode fuel (Some a) t w ≠ OutOfFuel.
Proof.
  induction fuel as [|fuel IH]; intros a n w t Hch Hn; [lia|].
  apply wpf_never. cbn [modifyNode].
  apply wpf_bind, wpf_tload. intros tr rbt -> Htr.
  case_decide; [by apply wpf_store|].
  apply wpf_bind, wpf_load. intros ? nd [= <-] Hnd.
  apply wpf_bind, wpf_load. intros p np Hp Hnp.
  case_decide; [done|].
  apply wpf_bind. apply wpf_of_never; [apply nf_findUncle|].
  eapply wlp_mono; [apply kn_findUncle|]. intros uncle w1 Hw1. cbn beta.
  apply wpf_bind, wpf_load. intros p' np' Hp' Hnp'.
  rewrite Hp in Hp'. injection Hp' as <-.
  rewrite Hw1, Hnp in Hnp'. injection Hnp' as <-.
  assert (wpf (modifyRedBlack (Some a) (parent nd) (parent np) (Some tr)) w1 (λ _ _, True))
    as Hrot by (apply wpf_of_never; [apply nf_modifyRedBlack|];
                unfold wlp; by destruct (modifyRedBlack _ _ _ _ _)).
  rewrite Hp in *.
  case_decide; [|done].
  apply wpf_bind, wpf_load. intros u nu -> Hnu.
  case_decide; [|done].
  apply wpf_bind, wpf_store. intros ? np1 [= <-] Hnp1.
  apply wpf_bind, wpf_store. intros ? nu1 [= <-] Hnu1.
  apply wpf_bind, wpf_store. intros g ng Hg Hng. rewrite Hg.
  (* the chain of the grandparent is two links shorter *)
  assert (∃ n2, pchain (nodes w) g n2 ∧ n = S (S n2)) as (n2 & Hch2 & ->).
  { inversion Hch as [? nd0 Ha0 Hp0|? nd0 p0 n1 Ha0 Hp0 Hch1]; subst;
      rewrite Ha0 in Hnd; injection Hnd as <-; [congruence|].
    rewrite Hp0 in Hp. injection Hp as ->.
    inversion Hch1 as [? np0 Ha1 Hp1|? np0 g0 n2 Ha1 Hp1 Hch2]; subst;
      rewrite Ha1 in Hnp; injection Hnp as <-; [congruence|].
    rewrite Hp1 in Hg. injection Hg as ->. eauto. }
  unfold wpf.
  match goal with |- match ?m with _ => _ end => destruct m eqn:Hrun end; [done|done|].
  exfalso. revert Hrun. apply (IH g n2); [|lia].
  cbn [nodes set_nodes] in *. rewrite Hw1 in *.
  repeat (eapply pchain_store_color; [eassumption|]). exact Hch2.
Qed.

Lemma heap_repr_pchain m t : ∀ par k a,
  heap_repr m par t →
  (∀ p, par = Some p → pchain m p k) →
  a ∈ addrs t →
  ∃ n, pchain m a n ∧ (n < match par with Some _ => S k | None => 0 end + height t)%nat.
Proof.
  induction t as [|c l IHl b d r IHr]; intros par k a; cbn [heap_repr inorder height].
  - by intros _ _ ?%elem_of_nil.
  - intros (Hb & Hl & Hr) Hpar Ha.
    set (kb := match par with Some _ => S k | None => 0%nat end).
    assert (pchain m b kb) as Hcb.
    { subst kb. destruct par as [p|].
      - eapply pchain_step; [exact Hb|done|by apply Hpar].
      - eapply pchain_root; [exact Hb|done]. }
    apply elem_of_app in Ha as [Ha|[->|Ha]%elem_of_cons].
    + destruct (IHl (Some b) kb a Hl) as (n & Hn & Hlt); [by intros ? [= <-]|done|].
      exists n. split; [done|]. lia.
    + exists kb. split; [done|]. lia.
    + destruct (IHr (Some b) kb a Hr) as (n & Hn & Hlt); [by intros ? [= <-]|done|].
      exists n. split; [done|]. lia.
Qed.

(** ** Uniqueness of the represented tree, and the one recursive path *)

Lemma heap_repr_unique m t : ∀ par par' t',
  heap_repr m par t → heap_repr m par' t' → root_of t = root_of t' → t = t'.
Proof.
  induction t as [|c l IHl a d r IHr]; intros par par' [|c' l' a' d' r']; cbn; try done.
  intros (Ha & Hl & Hr) (Ha' & Hl' & Hr') [= <-].
  rewrite Ha in Ha'. injection Ha' as Hrl Hrr _ <- <-.
  f_equal; [by eapply IHl|by eapply IHr].
Qed.

Lemma tree_at_unique cmp ff w tr t n cmp' ff' t' n' :
  tree_at cmp ff w tr t n → tree_at cmp' ff' w tr t' n' → t = t'.
Proof.
  intros (Hroot & Hr & _) (Hroot' & Hr' & _).
  rewrite Hroot in Hroot'. injection Hroot' as Heq _ _ _.
  by eapply heap_repr_unique.
Qed.

Lemma bind_OutOfFuel {A B} (m : M A) (f : A → M B) w :
  bind m f w = OutOfFuel →
  m w = OutOfFuel ∨ ∃ a w', m w = Ok a w' ∧ f a w' = OutOfFuel.
Proof. unfold bind. destruct (m w) as [a w'| |]; [eauto|done|auto]. Qed.

Lemma load_Ok {A} (f : Node → A) p w v w' :
  load f p w = Ok v w' → w' = w ∧ ∃ a n, p = Some a ∧ nodes w !! a = Some n ∧ v = f n.
Proof.
  unfold load. destruct p as [a|]; [|done]. destruct (nodes w !! a) as [n|] eqn:Hn; [|done].
  intros [= <- <-]. eauto 6.
Qed.

Lemma tload_Ok {A} (f : RBTree → A) p w v w' :
  tload f p w = Ok v w' → w' = w.
Proof.
  unfold tload. destruct p as [a|]; [|done]. destruct (trees w !! a); [|done].
  by intros [= <- <-].
Qed.

Lemma store_Ok f p w v w' :
  store f p w = Ok v w' →
  ∃ a n, p = Some a ∧ nodes w !! a = Some n ∧ w' = set_nodes (insert a (f n)) w.
Proof.
  unfold store. destruct p as [a|]; [|done]. destruct (nodes w !! a) as [n|] eqn:Hn; [|done].
  intros [= <- <-]. eauto.
Qed.

(** Running out of fuel in [modifyNode] happens on one path only: the
    parent and the uncle are RED, both were recoloured, and the call on
    the grandparent ran out of fuel. *)
Lemma modifyNode_OutOfFuel fuel a tr w :
  modifyNode (S fuel) (Some a) tr w = OutOfFuel →
  ∃ nd p np u nu g w1 w',
    nodes w !! a = Some nd ∧ parent nd = Some p
    ∧ nodes w !! p = Some np ∧ color np = RED ∧ parent np = Some g
    ∧ findUncle (Some a) tr w = Ok (Some u) w1
    ∧ nodes w !! u = Some nu ∧ color nu = RED
    ∧ modifyNode fuel (Some g) tr w' = OutOfFuel.
Proof.
  cbn [modifyNode]. intros H.
  apply bind_OutOfFuel in H as [H|(r & w0 & Hr & H)]; [by apply nf_tload in H|].
  apply tload_Ok in Hr as ->.
  case_decide; [by apply nf_store in H|].
  apply bind_OutOfFuel in H as [H|(par & w0 & Hpar & H)]; [by apply nf_load in H|].
  apply load_Ok in Hpar as (-> & ? & nd & [= <-] & Hnd & ->).
  apply bind_OutOfFuel in H as [H|(pc & w0 & Hpc & H)]; [by apply nf_load in H|].
  apply load_Ok in Hpc as (-> & p & np & Hp & Hnp & ->).
  case_decide as Hc; [done|].
  apply bind_OutOfFuel in H as [H|(uncle & w1 & Hu & H)]; [by apply nf_findUncle in H|].
  pose proof (wlp_Ok _ _ _ _ _ (kn_findUncle (Some a) tr w) Hu) as Hw1. cbn beta in Hw1.
  apply bind_OutOfFuel in H as [H|(gp & w0 & Hgp & H)]; [by apply nf_load in H|].
  apply load_Ok in Hgp as (-> & p' & np' & Hp' & Hnp' & ->).
  rewrite Hp in Hp'. injection Hp' as <-. rewrite Hw1, Hnp in Hnp'. injection Hnp' as <-.
  case_decide; [|by apply nf_modifyRedBlack in H].
  apply bind_OutOfFuel in H as [H|(uc & w0 & Huc & H)]; [by apply nf_load in H|].
  apply load_Ok in Huc as (-> & u & nu & -> & Hnu & ->).
  case_decide as Hred; [|by apply nf_modifyRedBlack in H].
  apply bind_OutOfFuel in H as [H|(? & w2 & Hs1 & H)]; [by apply nf_store in H|].
  apply bind_OutOfFuel in H as [H|(? & w3 & Hs2 & H)]; [by apply nf_store in H|].
  apply bind_OutOfFuel in H as [H|(? & w4 & Hs3 & H)]; [by apply nf_store in H|].
  apply store_Ok in Hs3 as (g & ng & Hg & _ & _).
  rewrite Hg in H. rewrite Hw1 in Hnu.
  exists nd, p, np, u, nu, g, w1, w4. split_and!; try done.
  by destruct (color np).
Qed.

(** ** Concrete runs used to exercise the theorems *)

Lemma subCompare_ok : Comparator subCompare.
Proof. split; unfold subCompare; intros; lia. Defined.

Lemma alloc_ok_world0 : alloc_ok world0.
Proof. intros x _. split; apply lookup_empty. Defined.

Lemma built_empty : built subCompare 7 1 (world_after []) [].
Proof.
  eapply (built_new _ _ _ world0); [apply alloc_ok_world0|].
  vm_compute; reflexivity.
Defined.

Lemma built_10_20_30 :
  built subCompare 7 1 (world_after [10; 20; 30]%Z) [30; 20; 10]%Z.
Proof.
  eapply (built_add _ _ _ (world_after [10; 20]%Z) _ 4%nat).
  eapply (built_add _ _ _ (world_after [10]%Z) _ 4%nat).
  eapply (built_add _ _ _ (world_after []) _ 4%nat).
  apply built_empty.
  all: vm_compute; reflexivity.
Defined.

Lemma built_null_5 : built subCompare 7 1 (world_after [0; 5]%Z) [5; 0]%Z.
Proof.
  eapply (built_add _ _ _ (world_after [0]%Z) _ 4%nat).
  eapply (built_add _ _ _ (world_after []) _ 4%nat).
  apply built_empty.
  all: vm_compute; reflexivity.
Defined.

(** Inserting 10, 20, 30 runs into the right-right case: 20 becomes the
    BLACK root, with 10 and 30 as RED children. *)
Lemma tree_at_10_20_30 :
  tree_at subCompare 7 (world_after [10; 20; 30]%Z) 1
    (T BLACK (T RED E 2 10 E) 3 20 (T RED E 4 30 E)) 3.
Proof.
  split_and!; [vm_compute; reflexivity| |by apply (bool_decide_unpack _)].
  cbn. split_and!; try exact I; vm_compute; reflexivity.
Defined.

(** Inserting 30, 10, 20 runs into the right-left case, with the same
    outcome. *)
Lemma tree_at_30_10_20 :
  tree_at subCompare 7 (world_after [30; 10; 20]%Z) 1
    (T BLACK (T RED E 3 10 E) 4 20 (T RED E 2 30 E)) 3.
Proof.
  split_and!; [vm_compute; reflexivity| |by apply (bool_decide_unpack _)].
  cbn. split_and!; try exact I; vm_compute; reflexivity.
Defined.

(** A tree holding only the NULL element. *)
Lemma tree_at_null : tree_at subCompare 7 (world_after [0]%Z) 1 (T BLACK E 2 0 E) 1.
Proof.
  split_and!; [vm_compute; reflexivity| |by apply (bool_decide_unpack _)].
  cbn. split_and!; try exact I; vm_compute; reflexivity.
Defined.

(** ** The properties of the specification *)

Section traversal_runs.
Context {A : Type} (func : ForEachFunc A).

Lemma forEachRBTree_run cmp ff w tr t n fuel args :
  tree_at cmp ff w tr t n → t ≠ E → (height t ≤ fuel)%nat →
  forEachRBTree fuel (Some tr) (Some func) args w
  = Ok (run_visitor func (elems t) args).1
       (visited (run_visitor func (elems t) args).2 w).
Proof.
  intros (Hroot & Hr & _) Hne Hfuel. destruct t as [|c l a d r]; [done|].
  assert (wp (forEachRBTree fuel (Some tr) (Some func) args) w
            (λ res w', res = (run_visitor func (elems (T c l a d r)) args).1
               ∧ w' = visited (run_visitor func (elems (T c l a d r)) args).2 w)) as Hwp.
  { unfold forEachRBTree. wp_run. eapply forEachNode_spec; [exact Hfuel|exact Hr|done]. }
  apply wp_Ok in Hwp as (res & w' & -> & -> & ->). done.
Qed.

Lemma run_visitor_stop xs : ∀ args k,
  stops_at func xs args k →
  (run_visitor func xs args).1.1 = FAILURE ∧ (run_visitor func xs args).2 = take k xs.
Proof.
  induction xs as [|x xs IH]; intros args [|[|k]]; cbn; try done.
  - intros ->. rewrite decide_True by done. cbn. by rewrite take_0.
  - intros [Hnz Hk]. rewrite decide_False by done. cbn.
    destruct (IH _ _ Hk) as [-> ->]. done.
Qed.

Lemma stops_at_length xs : ∀ args k, stops_at func xs args k → (1 ≤ k ≤ length xs)%nat.
Proof.
  induction xs as [|x xs IH]; intros args [|[|k]]; cbn; try done; [lia|].
  intros [_ Hk%IH]. lia.
Qed.
End traversal_runs.

Lemma postorder_elems t : postorder t ≡ₚ elems t.
Proof.
  induction t as [|c l IHl a d r IHr]; cbn; [done|].
  rewrite IHl, IHr. rewrite (Permutation_app_comm (elems r) [d]). done.
Qed.

(** C1: in every world reached from a fresh tree by completed insertions
    with a consistent comparator, the tree satisfies the red-black
    invariants: the root is BLACK, no RED node has a RED child, and below
    every node all paths to an absent child cross the same number of BLACK
    nodes.  Every further insertion completes. *)
Theorem redblack_invariants_after_insert cmp ff tr w xs :
  Comparator cmp →
  built cmp ff tr w xs →
  (∃ t n, tree_at cmp ff w tr t n ∧ elems t ≡ₚ xs ∧
     root_black t ∧ no_red_red t ∧
     ∀ s, subtree s t → ∀ p q, p ∈ black_counts s → q ∈ black_counts s → p = q)
  ∧ ∀ x, ∃ fuel res w', addToRBTree fuel (Some tr) x w = Ok res w'.
Proof.
  intros Hcmp Hb. split.
  - destruct (built_inv cmp ff Hcmp tr w xs Hb) as (t & (Ht & _ & (Hrb & Hnr & n & Hbh) & _) & Hp).
    exists t, (Z.of_nat (length xs)). split_and!; [done..|].
    intros s Hs p q Hp' Hq.
    destruct (bh_subtree s t n Hbh Hs) as (m & Hm).
    rewrite (bh_black_counts s m Hm p Hp'), (bh_black_counts s m Hm q Hq). done.
  - intros x. destruct (addToRBTree_total cmp ff Hcmp tr w xs x Hb) as (fuel & Hf).
    exists fuel. by apply Hf.
Qed.

Lemma redblack_invariants_after_insert_witness :
  (∃ t n, tree_at subCompare 7 (world_after [10; 20; 30]%Z) 1 t n
     ∧ elems t ≡ₚ [30; 20; 10]%Z ∧ root_black t ∧ no_red_red t ∧
     ∀ s, subtree s t → ∀ p q, p ∈ black_counts s → q ∈ black_counts s → p = q)
  ∧ ∀ x, ∃ fuel res w',
      addToRBTree fuel (Some 1%positive) x (world_after [10; 20; 30]%Z) = Ok res w'.
Proof.
  exact (redblack_invariants_after_insert subCompare 7 1 _ _ subCompare_ok built_10_20_30).
Defined.

(** C2: for every tree built by insertions with a consistent comparator,
    the traversal calls the visitor on the stored elements in strictly
    ascending comparator order: on all of them when the visitor never
    stops, on a prefix of the ascending sequence otherwise. *)
Theorem traversal_is_ascending cmp ff tr w xs :
  Comparator cmp →
  built cmp ff tr w xs →
  ∃ vs, vs ≡ₚ xs ∧ ascending cmp vs ∧
    ∀ A (func : ForEachFunc A) (args : A),
      (run_visitor func vs args).2 `prefix_of` vs ∧
      ((∀ d a, (func d a).1 ≠ 0%Z) →
         (run_visitor func vs args).2 = vs ∧ (run_visitor func vs args).1.1 = SUCCESS) ∧
      (xs ≠ [] → ∃ fuel0, ∀ fuel, (fuel0 ≤ fuel)%nat →
         forEachRBTree fuel (Some tr) (Some func) args w
         = Ok (run_visitor func vs args).1 (visited (run_visitor func vs args).2 w)).
Proof.
  intros Hcmp Hb.
  destruct (built_inv cmp ff Hcmp tr w xs Hb) as (t & (Ht & Ha & _) & Hp).
  exists (elems t). split_and!; [done..|]. intros A func args. split_and!.
  - apply run_visitor_prefix.
  - intros Hgo. destruct (run_visitor_all func (elems t) args Hgo). done.
  - intros Hne. exists (height t). intros fuel Hfuel.
    eapply forEachRBTree_run; [exact Ht| |done].
    intros ->. cbn in Hp. apply Permutation_nil_l in Hp. done.
Qed.

Lemma traversal_is_ascending_witness :
  ∃ vs, vs ≡ₚ [30; 20; 10]%Z ∧ ascending subCompare vs ∧
    ∀ A (func : ForEachFunc A) (args : A),
      (run_visitor func vs args).2 `prefix_of` vs ∧
      ((∀ d a, (func d a).1 ≠ 0%Z) →
         (run_visitor func vs args).2 = vs ∧ (run_visitor func vs args).1.1 = SUCCESS) ∧
      ([30; 20; 10]%Z ≠ [] → ∃ fuel0, ∀ fuel, (fuel0 ≤ fuel)%nat →
         forEachRBTree fuel (Some 1%positive) (Some func) args (world_after [10; 20; 30]%Z)
         = Ok (run_visitor func vs args).1
              (visited (run_visitor func vs args).2 (world_after [10; 20; 30]%Z))).
Proof.
  exact (traversal_is_ascending subCompare 7 1 _ _ subCompare_ok built_10_20_30).
Defined.

(** C3: on a tree whose root is absent, [forEachRBTree] hands the NULL
    root to [forEachNode], which dereferences it: the call faults instead
    of returning success. *)
Theorem forEachRBTree_empty_tree_faults {A} w tr rbt fuel (func : ForEachFunc A) args :
  trees w !! tr = Some rbt → root rbt = None →
  forEachRBTree (S fuel) (Some tr) (Some func) args w = Fault.
Proof.
  intros Htr Hroot. unfold forEachRBTree, bind, tload. rewrite Htr, Hroot. done.
Qed.

Lemma forEachRBTree_empty_tree_faults_witness :
  newRBTree subCompare 7 world0 = Ok (Some 1%positive) (world_after [])
  ∧ forEachRBTree 1 (Some 1%positive) (Some collect) [] (world_after []) = Fault.
Proof.
  split; [vm_compute; reflexivity|].
  apply (forEachRBTree_empty_tree_faults (world_after []) 1
           (mkRBTree None subCompare 7 0) 0 collect []);
    vm_compute; reflexivity.
Defined.

Lemma containsRBTree_run cmp ff w tr t n y fuel :
  tree_at cmp ff w tr t n → (height t < fuel)%nat →
  ∃ es, Forall is_comp es ∧
    containsRBTree fuel (Some tr) y w
    = Ok (if decide (y = NULL) then FAILURE else contains_t cmp y t) (add_log es w).
Proof.
  intros (Hroot & Hr & _) Hfuel.
  assert (wp (containsRBTree fuel (Some tr) y) w
            (λ res w', ∃ es, Forall is_comp es
               ∧ res = (if decide (y = NULL) then FAILURE else contains_t cmp y t)
               ∧ w' = add_log es w)) as Hwp.
  { unfold containsRBTree. wp_run.
    destruct (decide (y = NULL)) as [Hy|Hy]; [wp_run; by exists []|].
    wp_run. destruct t as [|c l a d r]; wp_run; [by exists []|].
    eapply (containsLoop_spec cmp tr y fuel (T c l a d r) None);
      [done|exact Hr|exact Hroot|done|].
    intros es Hes. by exists es. }
  apply wp_Ok in Hwp as (res & w' & -> & es & Hes & -> & ->). eauto.
Qed.

(** C4 (amended): in a tree built by insertions with a consistent
    comparator, [containsRBTree] returns success only for an argument
    comparing equal to an inserted element; and when no NULL element was
    inserted, it returns success for every non-NULL argument comparing
    equal to an inserted element. *)
Theorem contains_after_insert_nonnull cmp ff tr w xs y :
  Comparator cmp →
  built cmp ff tr w xs →
  ∃ fuel0, ∀ fuel, (fuel0 ≤ fuel)%nat →
    ∃ res es,
      containsRBTree fuel (Some tr) y w = Ok res (add_log es w)
      ∧ Forall is_comp es
      ∧ (res = SUCCESS ∨ res = FAILURE)
      ∧ (res = SUCCESS → ∃ x, x ∈ xs ∧ cmp x y = 0%Z)
      ∧ (NULL ∉ xs → y ≠ NULL → (∃ x, x ∈ xs ∧ cmp x y = 0%Z) → res = SUCCESS).
Proof.
  intros Hcmp Hb.
  destruct (built_inv cmp ff Hcmp tr w xs Hb) as (t & (Ht & Ha & _) & Hp).
  exists (S (height t)). intros fuel Hfuel.
  destruct (containsRBTree_run cmp ff w tr t _ y fuel Ht ltac:(lia)) as (es & Hes & Hrun).
  eexists _, es. split_and!; [exact Hrun|done|..].
  - case_decide; [by right|]. apply contains_t_result.
  - case_decide; [done|]. intros (x & Hx & Hxy)%contains_t_sound.
    exists x. split; [by rewrite <- Hp|done].
  - intros Hnull Hy (x & Hx & Hxy). rewrite decide_False by done.
    apply (contains_t_complete cmp Hcmp); [done|by rewrite Hp|].
    exists x. split; [by rewrite Hp|done].
Qed.

Lemma contains_after_insert_nonnull_witness :
  ∃ fuel0, ∀ fuel, (fuel0 ≤ fuel)%nat →
    ∃ res es,
      containsRBTree fuel (Some 1%positive) 20 (world_after [10; 20; 30]%Z)
      = Ok res (add_log es (world_after [10; 20; 30]%Z))
      ∧ Forall is_comp es
      ∧ (res = SUCCESS ∨ res = FAILURE)
      ∧ (res = SUCCESS → ∃ x, x ∈ [30; 20; 10]%Z ∧ subCompare x 20 = 0%Z)
      ∧ (NULL ∉ [30; 20; 10]%Z → 20%Z ≠ NULL →
         (∃ x, x ∈ [30; 20; 10]%Z ∧ subCompare x 20 = 0%Z) → res = SUCCESS).
Proof.
  exact (contains_after_insert_nonnull subCompare 7 1 _ _ 20 subCompare_ok built_10_20_30).
Defined.

(** C4 (as stated) fails: after inserting NULL and then 5, the element 5
    sits below the node holding NULL, where the search stops, and is not
    reported although its insertion succeeded. *)
Lemma contains_misses_below_null :
  ¬ (∀ cmp ff tr w xs x y,
       Comparator cmp → built cmp ff tr w xs → x ∈ xs → cmp x y = 0%Z →
       ∃ fuel w', containsRBTree fuel (Some tr) y w = Ok SUCCESS w').
Proof.
  intros Hclaim.
  destruct (Hclaim subCompare 7%Z 1%positive _ _ 5%Z 5%Z subCompare_ok built_null_5)
    as (fuel & w' & Hrun); [by apply (bool_decide_unpack _)|done|].
  destruct fuel as [|fuel]; vm_compute in Hrun; discriminate.
Qed.

(** C5: inserting an element that compares equal to one already in the
    tree returns failure and leaves the node store, the tree header (root,
    count) and the free memory as they were: the node allocated for the
    attempt is released again, and the only callbacks made are
    comparisons, so the destructor is never invoked. *)
Theorem duplicate_insert_rejected cmp ff tr w xs x :
  Comparator cmp →
  built cmp ff tr w xs →
  (∃ y, y ∈ xs ∧ cmp x y = 0%Z) →
  ∃ fuel0, ∀ fuel, (fuel0 ≤ fuel)%nat →
    ∃ w' es,
      addToRBTree fuel (Some tr) x w = Ok FAILURE w'
      ∧ nodes w' = nodes w ∧ trees w' = trees w ∧ cap w' = cap w
      ∧ (cap w ≠ 0%nat → next w' = Pos.succ (next w) ∧ nodes w' !! next w = None)
      ∧ log w' = es ++ log w ∧ Forall is_comp es.
Proof.
  intros Hcmp Hb (y & Hy & Hxy).
  destruct (built_inv cmp ff Hcmp tr w xs Hb) as (t & Hinv & Hp).
  exists (S (height t)). intros fuel Hfuel.
  pose proof (addToRBTree_spec cmp ff Hcmp tr fuel w t _ x Hinv ltac:(lia)) as Hwp.
  apply wp_Ok in Hwp as (res & w' & Hrun & Hpost).
  unfold addToRBTree_post in Hpost.
  destruct (cap w) as [|c] eqn:Hcap.
  { destruct Hpost as [-> ->]. exists w, []. rewrite Hcap. split_and!; done. }
  destruct (insert_t cmp x (next w) t) as [t'|] eqn:Hins.
  { destruct Hinv as (_ & Ha & _).
    destruct (insert_t_Some cmp Hcmp _ _ _ _ Ha Hins) as (_ & _ & _ & Hne & _).
    destruct (Hne y); [by rewrite Hp|done]. }
  destruct Hpost as (-> & es & Hes & ->).
  eexists _, es. split_and!; [exact Hrun|done..| |done|done].
  intros _. split; [done|]. cbn. destruct Hinv as (_ & _ & _ & Hal). apply Hal. lia.
Qed.

Lemma duplicate_insert_rejected_witness :
  ∃ fuel0, ∀ fuel, (fuel0 ≤ fuel)%nat →
    ∃ w' es,
      addToRBTree fuel (Some 1%positive) 20 (world_after [10; 20; 30]%Z) = Ok FAILURE w'
      ∧ nodes w' = nodes (world_after [10; 20; 30]%Z)
      ∧ trees w' = trees (world_after [10; 20; 30]%Z)
      ∧ cap w' = cap (world_after [10; 20; 30]%Z)
      ∧ (cap (world_after [10; 20; 30]%Z) ≠ 0%nat →
         next w' = Pos.succ (next (world_after [10; 20; 30]%Z))
         ∧ nodes w' !! next (world_after [10; 20; 30]%Z) = None)
      ∧ log w' = es ++ log (world_after [10; 20; 30]%Z) ∧ Forall is_comp es.
Proof.
  apply (duplicate_insert_rejected subCompare 7 1 _ _ 20 subCompare_ok built_10_20_30).
  exists 20%Z. split; [|reflexivity]. right. left.
Defined.

(** C6: on a non-empty tree, a visitor that signals stop on the k-th
    element of the in-order sequence, and continue on all earlier ones,
    makes [forEachRBTree] return failure after exactly k visitor calls,
    made on the first k elements.  In a tree built by insertions with a
    consistent comparator the in-order sequence is the ascending one. *)
Theorem forEach_early_stop {A} cmp ff tr w t n (func : ForEachFunc A) args k :
  tree_at cmp ff w tr t n → t ≠ E →
  stops_at func (elems t) args k →
  (Comparator cmp → ∀ xs, built cmp ff tr w xs →
     ascending cmp (elems t) ∧ elems t ≡ₚ xs)
  ∧ (1 ≤ k ≤ length (elems t))%nat
  ∧ ∃ fuel0, ∀ fuel, (fuel0 ≤ fuel)%nat →
      ∃ args',
        forEachRBTree fuel (Some tr) (Some func) args w
        = Ok (FAILURE, args') (add_log (rev (EvVisit <$> take k (elems t))) w)
        ∧ length (rev (EvVisit <$> take k (elems t))) = k.
Proof.
  intros Ht Hne Hstop. pose proof (stops_at_length func _ _ _ Hstop) as Hk.
  split; [|split; [done|]].
  { intros Hcmp xs Hb.
    destruct (built_inv cmp ff Hcmp tr w xs Hb) as (t' & (Ht' & Ha & _) & Hp).
    by rewrite (tree_at_unique _ _ _ _ _ _ _ _ _ _ Ht Ht'). }
  exists (height t). intros fuel Hfuel.
  pose proof (forEachRBTree_run func cmp ff w tr t n fuel args Ht Hne Hfuel) as Hrun.
  destruct (run_visitor_stop func _ _ _ Hstop) as [Hres Hvs].
  rewrite Hvs in Hrun. unfold visited in Hrun.
  exists (run_visitor func (elems t) args).1.2. split.
  - rewrite Hrun. f_equal. rewrite <- Hres. by destruct (run_visitor func (elems t) args).1.
  - rewrite length_rev, length_fmap, length_take. lia.
Qed.

Lemma forEach_early_stop_witness :
  (Comparator subCompare → ∀ xs, built subCompare 7 1 (world_after [10; 20; 30]%Z) xs →
     ascending subCompare [10; 20; 30]%Z ∧ [10; 20; 30]%Z ≡ₚ xs)
  ∧ (1 ≤ 2 ≤ length [10; 20; 30]%Z)%nat
  ∧ ∃ fuel0, ∀ fuel, (fuel0 ≤ fuel)%nat →
      ∃ args',
        forEachRBTree fuel (Some 1%positive) (Some until20) [] (world_after [10; 20; 30]%Z)
        = Ok (FAILURE, args')
             (add_log (rev (EvVisit <$> take 2 [10; 20; 30]%Z)) (world_after [10; 20; 30]%Z))
        ∧ length (rev (EvVisit <$> take 2 [10; 20; 30]%Z)) = 2%nat.
Proof.
  apply (forEach_early_stop subCompare 7 1 (world_after [10; 20; 30]%Z)
           (T BLACK (T RED E 2 10 E) 3 20 (T RED E 4 30 E)) 3 until20 [] 2).
  - exact tree_at_10_20_30.
  - discriminate.
  - cbn. split; [discriminate|reflexivity].
Defined.

(** C7: the count stored in the tree equals the number of insertions that
    succeeded since the tree was created, and an insertion that fails
    leaves the tree header, hence the count, unchanged. *)
Theorem size_counts_successes cmp ff tr w xs :
  Comparator cmp →
  built cmp ff tr w xs →
  (∃ rbt, trees w !! tr = Some rbt ∧ size rbt = Z.of_nat (length xs))
  ∧ ∀ fuel x w', addToRBTree fuel (Some tr) x w = Ok FAILURE w' → trees w' = trees w.
Proof.
  intros Hcmp Hb.
  destruct (built_inv cmp ff Hcmp tr w xs Hb) as (t & Hinv & Hp). split.
  - destruct Hinv as ((Hroot & _) & _). eexists. split; [exact Hroot|done].
  - intros fuel x w' Hrun.
    pose proof (addToRBTree_complete cmp ff Hcmp tr _ _ _ _ _ _ _ Hinv Hrun) as Hpost.
    unfold addToRBTree_post in Hpost.
    destruct (cap w); [by destruct Hpost as [_ ->]|].
    destruct (insert_t cmp x (next w) t); [by destruct Hpost|].
    by destruct Hpost as (_ & es & _ & ->).
Qed.

Lemma size_counts_successes_witness :
  (∃ rbt, trees (world_after [10; 20; 30]%Z) !! 1%positive = Some rbt
          ∧ size rbt = Z.of_nat (length [30; 20; 10]%Z))
  ∧ ∀ fuel x w',
      addToRBTree fuel (Some 1%positive) x (world_after [10; 20; 30]%Z) = Ok FAILURE w' →
      trees w' = trees (world_after [10; 20; 30]%Z).
Proof.
  exact (size_counts_successes subCompare 7 1 _ _ subCompare_ok built_10_20_30).
Defined.

(** C8: [modifyNode] terminates on every node of every finite tree: fuel
    equal to the height of the tree is always enough, whatever the
    colours.  On the root a single step suffices, and it colours the root
    BLACK.  The only path that needs more than one step is the one where
    parent and uncle are RED, which re-runs the fixup on the grandparent. *)
Theorem modifyNode_terminates_on_tree w t a tr fuel :
  heap_repr (nodes w) None t → a ∈ addrs t → (height t ≤ fuel)%nat →
  modifyNode fuel (Some a) tr w ≠ OutOfFuel
  ∧ (∀ trp rbt nd, tr = Some trp → trees w !! trp = Some rbt → root rbt = Some a →
       nodes w !! a = Some nd →
       modifyNode 1 (Some a) tr w = Ok tt (set_nodes (insert a (with_color BLACK nd)) w))
  ∧ (∀ fuel', modifyNode (S fuel') (Some a) tr w = OutOfFuel →
       ∃ nd p np u nu g w1 w',
         nodes w !! a = Some nd ∧ parent nd = Some p
         ∧ nodes w !! p = Some np ∧ color np = RED ∧ parent np = Some g
         ∧ findUncle (Some a) tr w = Ok (Some u) w1
         ∧ nodes w !! u = Some nu ∧ color nu = RED
         ∧ modifyNode fuel' (Some g) tr w' = OutOfFuel).
Proof.
  intros Hr Ha Hfuel. split_and!.
  - destruct (heap_repr_pchain (nodes w) t None 0 a Hr) as (n & Hn & Hlt); [done..|].
    eapply modifyNode_fuel_enough; [exact Hn|lia].
  - intros trp rbt nd -> Htr Hroot Hnd. cbn. unfold bind, tload, store.
    rewrite Htr, Hroot. rewrite decide_True by done. by rewrite Hnd.
  - intros fuel'. apply modifyNode_OutOfFuel.
Qed.

Lemma modifyNode_terminates_on_tree_witness :
  modifyNode 2 (Some 4%positive) (Some 1%positive) (world_after [10; 20; 30]%Z) ≠ OutOfFuel
  ∧ (∀ trp rbt nd, Some 1%positive = Some trp →
       trees (world_after [10; 20; 30]%Z) !! trp = Some rbt →
       root rbt = Some 4%positive →
       nodes (world_after [10; 20; 30]%Z) !! 4%positive = Some nd →
       modifyNode 1 (Some 4%positive) (Some 1%positive) (world_after [10; 20; 30]%Z)
       = Ok tt (set_nodes (insert 4%positive (with_color BLACK nd))
                  (world_after [10; 20; 30]%Z)))
  ∧ (∀ fuel',
       modifyNode (S fuel') (Some 4%positive) (Some 1%positive) (world_after [10; 20; 30]%Z)
       = OutOfFuel →
       ∃ nd p np u nu g w1 w',
         nodes (world_after [10; 20; 30]%Z) !! 4%positive = Some nd ∧ parent nd = Some p
         ∧ nodes (world_after [10; 20; 30]%Z) !! p = Some np
         ∧ color np = RED ∧ parent np = Some g
         ∧ findUncle (Some 4%positive) (Some 1%positive) (world_after [10; 20; 30]%Z)
           = Ok (Some u) w1
         ∧ nodes (world_after [10; 20; 30]%Z) !! u = Some nu ∧ color nu = RED
         ∧ modifyNode fuel' (Some g) (Some 1%positive) w' = OutOfFuel).
Proof.
  apply (modifyNode_terminates_on_tree (world_after [10; 20; 30]%Z)
           (T BLACK (T RED E 2 10 E) 3 20 (T RED E 4 30 E)) 4 (Some 1%positive) 2).
  - apply tree_at_10_20_30.
  - by apply (bool_decide_unpack _).
  - cbn. lia.
Defined.

Lemma freeRBTree_run cmp ff w tr t n fuel :
  tree_at cmp ff w tr t n → (height t ≤ fuel)%nat →
  ∃ w', freeRBTree fuel (Some tr) w = Ok tt w'
        ∧ log w' = rev (destroyed ff t) ++ log w
        ∧ nodes w' = free_t t (nodes w)
        ∧ trees w' = delete tr (trees w).
Proof.
  intros (Hroot & Hr & Hnd) Hfuel.
  assert (wp (freeRBTree fuel (Some tr)) w
            (λ _ w', log w' = rev (destroyed ff t) ++ log w
                     ∧ nodes w' = free_t t (nodes w)
                     ∧ trees w' = delete tr (trees w))) as Hwp.
  { unfold freeRBTree. wp_run. destruct t as [|c l a d r]; wp_run.
    - unfold wp, free_RBTree. rewrite Hroot. done.
    - eapply freeNodes_spec; [exact Hfuel|exact Hr|exact Hnd|].
      intros w1 Hn1 Ht1 _ _ Hl1. wp_simpl.
      unfold wp, free_RBTree. rewrite Ht1, Hroot. cbn. done. }
  apply wp_Ok in Hwp as ([] & w' & Hrun & ?). eauto.
Qed.

(** C9 (amended): [freeRBTree] invokes the destructor exactly once on each
    stored element that is not NULL, in post-order (left subtree, right
    subtree, then the node), and on nothing else; it releases every node
    and the header.  On an empty tree the destructor is not invoked. *)
Theorem teardown_destroys_nonnull_postorder cmp ff w tr t n :
  tree_at cmp ff w tr t n →
  postorder t ≡ₚ elems t
  ∧ destroyed ff E = []
  ∧ ∃ fuel0, ∀ fuel, (fuel0 ≤ fuel)%nat →
      ∃ w', freeRBTree fuel (Some tr) w = Ok tt w'
            ∧ log w' = rev (EvFree ff <$> filter (λ d, d ≠ NULL) (postorder t)) ++ log w
            ∧ (∀ a, a ∈ addrs t → nodes w' !! a = None)
            ∧ trees w' !! tr = None.
Proof.
  intros Ht. split_and!; [apply postorder_elems|done|].
  exists (height t). intros fuel Hfuel.
  destruct (freeRBTree_run cmp ff w tr t n fuel Ht Hfuel) as (w' & Hrun & Hl & Hn & Htr).
  exists w'. split_and!; [done|done| |].
  - intros a Ha. rewrite Hn. by apply free_t_lookup_in.
  - rewrite Htr. apply lookup_delete_eq.
Qed.

Lemma teardown_destroys_nonnull_postorder_witness :
  postorder (T BLACK (T RED E 2 10 E) 3 20 (T RED E 4 30 E)) ≡ₚ [10; 20; 30]%Z
  ∧ destroyed 7 E = []
  ∧ ∃ fuel0, ∀ fuel, (fuel0 ≤ fuel)%nat →
      ∃ w', freeRBTree fuel (Some 1%positive) (world_after [10; 20; 30]%Z) = Ok tt w'
            ∧ log w' = rev (EvFree 7 <$> filter (λ d, d ≠ NULL)
                              (postorder (T BLACK (T RED E 2 10 E) 3 20 (T RED E 4 30 E))))
                       ++ log (world_after [10; 20; 30]%Z)
            ∧ (∀ a, a ∈ addrs (T BLACK (T RED E 2 10 E) 3 20 (T RED E 4 30 E)) →
                    nodes w' !! a = None)
            ∧ trees w' !! 1%positive = None.
Proof.
  apply (teardown_destroys_nonnull_postorder subCompare 7 (world_after [10; 20; 30]%Z) 1
           (T BLACK (T RED E 2 10 E) 3 20 (T RED E 4 30 E)) 3).
  exact tree_at_10_20_30.
Defined.

(** C9 (as stated) fails: a tree holding the NULL element is torn down
    without any destructor call, although it stores one element. *)
Lemma teardown_skips_null :
  ¬ (∀ cmp ff w tr t n fuel w',
       tree_at cmp ff w tr t n →
       freeRBTree fuel (Some tr) w = Ok tt w' →
       log w' = rev (EvFree ff <$> postorder t) ++ log w).
Proof.
  intros Hclaim.
  specialize (Hclaim subCompare 7%Z (world_after [0]%Z) 1%positive (T BLACK E 2 0 E) 1%Z 2%nat
                (match freeRBTree 2 (Some 1%positive) (world_after [0]%Z) with
                 | Ok _ w' => w'
                 | _ => world0
                 end)).
  specialize (Hclaim tree_at_null ltac:(vm_compute; reflexivity)).
  vm_compute in Hclaim. discriminate.
Qed.

(** C10: [addToRBTree] does not inspect its element: inserting NULL into
    an empty tree succeeds and increments the count.  [containsRBTree]
    returns failure for a NULL argument on every tree and in every world,
    leaving the world, and so the log of comparator calls, untouched; in
    particular it does so after NULL has been stored. *)
Theorem null_element_insert_then_lookup w tr rbt fuel :
  trees w !! tr = Some rbt → root rbt = None → cap w ≠ 0%nat →
  (∀ fuel' tree' w0, containsRBTree fuel' tree' NULL w0 = Ok FAILURE w0)
  ∧ ∃ w', addToRBTree (S fuel) (Some tr) NULL w = Ok SUCCESS w'
          ∧ trees w' !! tr
            = Some (mkRBTree (Some (next w)) (compFunc rbt) (freeFunc rbt) (size rbt + 1))
          ∧ nodes w' !! next w = Some (mkNode None None None NULL BLACK)
          ∧ log w' = log w
          ∧ ∀ fuel', containsRBTree fuel' (Some tr) NULL w' = Ok FAILURE w'.
Proof.
  intros Htr Hroot Hcap.
  assert (∀ fuel' tree' w0, containsRBTree fuel' tree' NULL w0 = Ok FAILURE w0) as Hnull.
  { intros fuel' tree' w0. unfold containsRBTree. by repeat case_decide. }
  split; [done|].
  assert (wp (addToRBTree (S fuel) (Some tr) NULL) w
            (λ res w', res = SUCCESS
               ∧ trees w' !! tr
                 = Some (mkRBTree (Some (next w)) (compFunc rbt) (freeFunc rbt) (size rbt + 1))
               ∧ nodes w' !! next w = Some (mkNode None None None NULL BLACK)
               ∧ log w' = log w)) as Hwp.
  { destruct rbt as [r cf fr sz]. cbn in Hroot. subst r.
    unfold addToRBTree, makeNewNode. apply wp_bind, wp_bind, wp_malloc_Node.
    destruct (cap w); [done|]. cbn [modifyNode]. wp_run.
    split_and!; [done|solve_lookup|solve_lookup|done]. }
  apply wp_Ok in Hwp as (res & w' & Hrun & -> & ? & ? & ?).
  exists w'. split_and!; done.
Qed.

Lemma null_element_insert_then_lookup_witness :
  (∀ fuel' tree' w0, containsRBTree fuel' tree' NULL w0 = Ok FAILURE w0)
  ∧ ∃ w', addToRBTree 1 (Some 1%positive) NULL (world_after []) = Ok SUCCESS w'
          ∧ trees w' !! 1%positive
            = Some (mkRBTree (Some (next (world_after []))) subCompare 7 (0 + 1))
          ∧ nodes w' !! next (world_after []) = Some (mkNode None None None NULL BLACK)
          ∧ log w' = log (world_after [])
          ∧ ∀ fuel', containsRBTree fuel' (Some 1%positive) NULL w' = Ok FAILURE w'.
Proof.
  apply (null_element_insert_then_lookup (world_after []) 1
           (mkRBTree None subCompare 7 0) 0).
  - vm_compute; reflexivity.
  - reflexivity.
  - vm_compute. discriminate.
Defined.

(** * Further properties of RBTree.c *)

(** ** Relations kept by every step of an insertion *)

Lemma preserves_Ok {A} R (m : M A) w a w' : preserves R m → m w = Ok a w' → R w w'.
Proof. intros H Hm. specialize (H w). unfold wlp in H. by rewrite Hm in H. Qed.

Section preserves.
Context (R : World → World → Prop) (tree : ptr).
Context (R_refl : ∀ w, R w w).
Context (R_trans : ∀ w1 w2 w3, R w1 w2 → R w2 w3 → R w1 w3).
Context (R_store : ∀ f a n w, nodes w !! a = Some n → R w (set_nodes (insert a (f n)) w)).
Context (R_tstore : ∀ f a n w,
  tree = Some a → trees w !! a = Some n → R w (set_trees (insert a (f n)) w)).
Context (R_free : ∀ a n w,
  nodes w !! a = Some n →
  R w (mkWorld (delete a (nodes w)) (trees w) (next w) (S (cap w)) (log w))).
Context (R_comp : ∀ e w, is_comp e → R w (add_log [e] w)).
Context (R_malloc : ∀ w c,
  cap w = S c →
  R w (mkWorld (<[next w := mkNode None None None 0 RED]> (nodes w))
               (trees w) (Pos.succ (next w)) c (log w))).

Context (R_destroy : ∀ f d w, R w (add_log [EvFree f d] w)).
Context (R_tfree : ∀ a n w,
  trees w !! a = Some n →
  R w (mkWorld (nodes w) (delete a (trees w)) (next w) (S (cap w)) (log w))).
Context (R_tmalloc : ∀ w c,
  cap w = S c →
  R w (mkWorld (nodes w) (<[next w := mkRBTree None (λ _ _, 0%Z) 0 0]> (trees w))
               (Pos.succ (next w)) c (log w))).

Lemma pr_ret {A} (a : A) : preserves R (ret a).
Proof. intros w. apply R_refl. Qed.

Lemma pr_bind {A B} (m : M A) (f : A → M B) :
  preserves R m → (∀ a, preserves R (f a)) → preserves R (bind m f).
Proof.
  intros Hm Hf w. apply wlp_bind. eapply wlp_mono; [apply Hm|].
  intros a w1 H1. cbn beta. eapply wlp_mono; [apply Hf|]. intros b w2 H2. cbn beta in *. eauto.
Qed.

Lemma pr_out_of_fuel {A} : preserves R (@out_of_fuel A).
Proof. by intros w. Qed.

Lemma pr_load {A} (f : Node → A) p : preserves R (load f p).
Proof.
  intros w. unfold wlp, load. destruct p as [a|]; [|done].
  destruct (nodes w !! a); [apply R_refl|done].
Qed.

Lemma pr_tload {A} (f : RBTree → A) p : preserves R (tload f p).
Proof.
  intros w. unfold wlp, tload. destruct p as [a|]; [|done].
  destruct (trees w !! a); [apply R_refl|done].
Qed.

Lemma pr_store f p : preserves R (store f p).
Proof.
  intros w. unfold wlp, store. destruct p as [a|]; [|done].
  destruct (nodes w !! a) eqn:Ha; [by apply R_store|done].
Qed.

Lemma pr_tstore f : preserves R (tstore f tree).
Proof.
  intros w. unfold wlp, tstore. destruct tree as [a|] eqn:Ht; [|done].
  destruct (trees w !! a) eqn:Ha; [by apply R_tstore|done].
Qed.

Lemma pr_call_comp f a b : preserves R (call_comp f a b).
Proof. intros w. by apply (R_comp (EvComp a b)). Qed.

Lemma pr_free_Node p : preserves R (free_Node p).
Proof.
  intros w. unfold wlp, free_Node. destruct p as [a|]; [|apply R_refl].
  destruct (nodes w !! a) eqn:Ha; [by eapply R_free|done].
Qed.

Lemma pr_malloc_Node : preserves R malloc_Node.
Proof.
  intros w. unfold wlp, malloc_Node. destruct (cap w) eqn:Hc; [apply R_refl|].
  by apply R_malloc.
Qed.

Lemma pr_if {A} (P : Prop) `{Decision P} (m1 m2 : M A) :
  preserves R m1 → preserves R m2 → preserves R (if decide P then m1 else m2).
Proof. by destruct (decide P). Qed.

Ltac pr_step :=
  first
    [ apply pr_ret | apply pr_load | apply pr_tload | apply pr_store | apply pr_tstore
    | apply pr_call_comp | apply pr_free_Node | apply pr_out_of_fuel
    | apply pr_bind; [|intros ?]
    | apply pr_if
    | assumption ].

Ltac pr := repeat pr_step.

Lemma pr_isRightChild cmp p : preserves R (isRightChild cmp p).
Proof. unfold isRightChild. pr. Qed.

Lemma pr_findUncle p : preserves R (findUncle p tree).
Proof. unfold findUncle. pr; apply pr_isRightChild. Qed.

Lemma pr_leftRightSwitch a b c : preserves R (leftRightSwitch a b c).
Proof. unfold leftRightSwitch. pr. Qed.

Lemma pr_rightLeftSwitch a b c : preserves R (rightLeftSwitch a b c).
Proof. unfold rightLeftSwitch. pr. Qed.

Lemma pr_leftLeftSwitch a b : preserves R (leftLeftSwitch a b tree).
Proof. unfold leftLeftSwitch. pr; apply pr_isRightChild. Qed.

Lemma pr_rightRightSwitch a b : preserves R (rightRightSwitch a b tree).
Proof. unfold rightRightSwitch. pr; apply pr_isRightChild. Qed.

Lemma pr_modifyRedBlack a b c : preserves R (modifyRedBlack a b c tree).
Proof.
  unfold modifyRedBlack.
  pr; first [ apply pr_isRightChild | apply pr_leftRightSwitch | apply pr_rightLeftSwitch
            | apply pr_leftLeftSwitch | apply pr_rightRightSwitch ].
Qed.

Lemma pr_modifyNode fuel : ∀ a, preserves R (modifyNode fuel a tree).
Proof.
  induction fuel as [|fuel IH]; intros a; cbn [modifyNode]; [apply pr_out_of_fuel|].
  pr; first [ apply pr_findUncle | apply pr_modifyRedBlack | apply IH ].
Qed.

Lemma pr_addNewNode fuel : ∀ a b cmp, preserves R (addNewNode fuel a b cmp).
Proof.
  induction fuel as [|fuel IH]; intros a b cmp; cbn [addNewNode]; [apply pr_out_of_fuel|].
  pr; apply IH.
Qed.

Lemma pr_addToRBTree_rest fuel p : preserves R (addToRBTree_rest fuel tree p).
Proof.
  unfold addToRBTree_rest. pr; try apply pr_addNewNode.
  destruct a0; pr. apply pr_modifyNode.
Qed.

Lemma pr_makeNewNode x : preserves R (makeNewNode x).
Proof. unfold makeNewNode. pr. apply pr_malloc_Node. Qed.

Lemma pr_addToRBTree fuel x : preserves R (addToRBTree fuel tree x).
Proof.
  change (addToRBTree fuel tree x)
    with (let* newNode := makeNewNode x in
          if decide (newNode = None) then ret FAILURE
          else addToRBTree_rest fuel tree newNode).
  apply pr_bind; [apply pr_makeNewNode|].
  intros p. apply pr_if; [apply pr_ret|apply pr_addToRBTree_rest].
Qed.
Lemma pr_call_free f d : preserves R (call_free f d).
Proof. intros w. apply R_destroy. Qed.

Lemma pr_free_RBTree : preserves R (free_RBTree tree).
Proof.
  intros w. unfold wlp, free_RBTree. destruct tree as [a|]; [|apply R_refl].
  destruct (trees w !! a) eqn:Ha; [by eapply R_tfree|done].
Qed.

Lemma pr_freeNodes fuel : ∀ a f, preserves R (freeNodes fuel a f).
Proof.
  induction fuel as [|fuel IH]; intros a f; cbn [freeNodes]; [apply pr_out_of_fuel|].
  pr; first [ apply IH | apply pr_call_free ].
Qed.

Lemma pr_freeRBTree fuel : preserves R (freeRBTree fuel tree).
Proof.
  unfold freeRBTree. pr; first [ apply pr_freeNodes | apply pr_free_RBTree ].
Qed.
End preserves.

Lemma pr_insert_all R fuel tree xs :
  (∀ w, R w w) → (∀ w1 w2 w3, R w1 w2 → R w2 w3 → R w1 w3) →
  (∀ x, preserves R (addToRBTree fuel tree x)) →
  preserves R (insert_all fuel tree xs).
Proof.
  intros Hrefl Htrans Hadd. induction xs as [|x xs IH]; cbn [insert_all].
  - by apply pr_ret.
  - apply pr_bind; [done|done|]. intros _. exact IH.
Qed.

Lemma R_log_refl w : R_log w w.
Proof. by exists []. Qed.

Lemma R_log_trans w1 w2 w3 : R_log w1 w2 → R_log w2 w3 → R_log w1 w3.
Proof.
  intros (es & Hes & H1) (es' & Hes' & H2). exists (es' ++ es). split.
  - by apply Forall_app.
  - by rewrite H2, H1, app_assoc.
Qed.

(** Insertion calls the comparator and nothing else. *)
Lemma addToRBTree_log fuel tree x : preserves R_log (addToRBTree fuel tree x).
Proof.
  apply pr_addToRBTree.
  - apply R_log_refl.
  - apply R_log_trans.
  - intros; by exists [].
  - intros; by exists [].
  - intros; by exists [].
  - intros e w He. exists [e]. split; [by constructor|done].
  - intros; by exists [].
Qed.

(** Insertion writes to no header but that of its tree. *)
Lemma addToRBTree_trees fuel tr x : preserves (R_trees tr) (addToRBTree fuel (Some tr) x).
Proof.
  apply pr_addToRBTree; try (by intros; intros ? ?).
  - intros w1 w2 w3 H1 H2 y Hy. by rewrite H2, H1.
  - intros f a n w [= <-] Ha y Hy. cbn. by rewrite lookup_insert_ne.
Qed.

(** Once its node is allocated, insertion allocates nothing more. *)
Lemma addToRBTree_rest_next fuel tree p : preserves R_next (addToRBTree_rest fuel tree p).
Proof.
  apply pr_addToRBTree_rest; try done.
  intros w1 w2 w3. unfold R_next. congruence.
Qed.

Lemma alloc_ok_nodes_dom w m :
  alloc_ok w → (∀ x, m !! x = None ↔ nodes w !! x = None) →
  alloc_ok (mkWorld m (trees w) (next w) (cap w) (log w)).
Proof.
  intros Hal Hm x Hx. destruct (Hal x Hx). split; [by apply Hm|done].
Qed.

Lemma R_cells_refl w : R_cells w w.
Proof. by intros Hw. Qed.

Lemma R_cells_trans w1 w2 w3 : R_cells w1 w2 → R_cells w2 w3 → R_cells w1 w3.
Proof.
  intros H1 H2 Hw. destruct (H1 Hw) as [Hw2 E1].
  destruct (H2 Hw2) as [Hw3 E2]. split; [done|congruence].
Qed.

Lemma R_cells_store f a n w :
  nodes w !! a = Some n → R_cells w (set_nodes (insert a (f n)) w).
Proof.
  intros Ha Hw. split.
  - intros y Hy. destruct (Hw y Hy). split; [|done]. cbn.
    rewrite lookup_insert_ne; [done|congruence].
  - unfold cells. cbn. by rewrite map_size_insert_Some.
Qed.

Lemma R_cells_tstore f a n w :
  trees w !! a = Some n → R_cells w (set_trees (insert a (f n)) w).
Proof.
  intros Ha Hw. split.
  - intros y Hy. destruct (Hw y Hy). split; [done|]. cbn.
    rewrite lookup_insert_ne; [done|congruence].
  - unfold cells. cbn. by rewrite map_size_insert_Some.
Qed.

Lemma map_size_pos {V} (m : gmap positive V) a v : m !! a = Some v → base.size m ≠ 0%nat.
Proof.
  intros Ha Hz. apply map_size_empty_inv in Hz. rewrite Hz in Ha. by rewrite lookup_empty in Ha.
Qed.

Lemma R_cells_free a n w :
  nodes w !! a = Some n →
  R_cells w (mkWorld (delete a (nodes w)) (trees w) (next w) (S (cap w)) (log w)).
Proof.
  intros Ha Hw. split.
  - intros y Hy. destruct (Hw y Hy). split; [|done]. cbn.
    rewrite lookup_delete_ne; [done|congruence].
  - unfold cells. cbn. rewrite map_size_delete_Some by done.
    pose proof (map_size_pos _ _ _ Ha). lia.
Qed.

Lemma R_cells_tfree a n w :
  trees w !! a = Some n →
  R_cells w (mkWorld (nodes w) (delete a (trees w)) (next w) (S (cap w)) (log w)).
Proof.
  intros Ha Hw. split.
  - intros y Hy. destruct (Hw y Hy). split; [done|]. cbn.
    rewrite lookup_delete_ne; [done|congruence].
  - unfold cells. cbn. rewrite map_size_delete_Some by done.
    pose proof (map_size_pos _ _ _ Ha). lia.
Qed.

Lemma R_cells_malloc w c :
  cap w = S c →
  R_cells w (mkWorld (<[next w := mkNode None None None 0 RED]> (nodes w))
                     (trees w) (Pos.succ (next w)) c (log w)).
Proof.
  intros Hc Hw. split.
  - intros y Hy. cbn in *. destruct (Hw y ltac:(lia)). split; [|done].
    rewrite lookup_insert_ne; [done|lia].
  - unfold cells. cbn. rewrite map_size_insert_None by (apply Hw; lia). lia.
Qed.

Lemma R_cells_tmalloc w c :
  cap w = S c →
  R_cells w (mkWorld (nodes w) (<[next w := mkRBTree None (λ _ _, 0%Z) 0 0]> (trees w))
                     (Pos.succ (next w)) c (log w)).
Proof.
  intros Hc Hw. split.
  - intros y Hy. cbn in *. destruct (Hw y ltac:(lia)). split; [done|].
    rewrite lookup_insert_ne; [done|lia].
  - unfold cells. cbn. rewrite map_size_insert_None by (apply Hw; lia). lia.
Qed.

(** Insertion neither loses a cell nor makes one up. *)
Lemma addToRBTree_cells fuel tree x : preserves R_cells (addToRBTree fuel tree x).
Proof.
  apply pr_addToRBTree.
  - apply R_cells_refl.
  - apply R_cells_trans.
  - apply R_cells_store.
  - intros f a n w _. apply R_cells_tstore.
  - apply R_cells_free.
  - intros e w _. by intros Hw.
  - apply R_cells_malloc.
Qed.

(** Nor does the teardown. *)
Lemma freeRBTree_cells fuel tree : preserves R_cells (freeRBTree fuel tree).
Proof.
  apply pr_freeRBTree.
  - apply R_cells_refl.
  - apply R_cells_trans.
  - apply R_cells_store.
  - intros f a n w _. apply R_cells_tstore.
  - apply R_cells_free.
  - intros f d w. by intros Hw.
  - apply R_cells_tfree.
Qed.

Lemma insert_all_cells fuel tree xs : preserves R_cells (insert_all fuel tree xs).
Proof.
  apply pr_insert_all; [apply R_cells_refl|apply R_cells_trans|]. apply addToRBTree_cells.
Qed.

(** ** Cells outside the reach of an insertion *)

Lemma framed_None F w x : framed F w → is_Some (nodes w !! x) → F !! x = None.
Proof.
  intros HF [n Hn]. destruct (F !! x) eqn:HFx; [|done].
  destruct (HF x ltac:(by eexists)). congruence.
Qed.

Lemma local_ret {A} (a : A) : local (ret a).
Proof. intros F w b w' HF [= <- <-]. done. Qed.

Lemma local_bind {A B} (m : M A) (f : A → M B) :
  local m → (∀ a, local (f a)) → local (bind m f).
Proof.
  intros Hm Hf F w b w2 HF. unfold bind.
  destruct (m w) as [a w1| |] eqn:H1; [|done..]. intros H2.
  destruct (Hm F w a w1 HF H1) as [HF1 ->]. by apply Hf.
Qed.

Lemma local_out_of_fuel {A} : local (@out_of_fuel A).
Proof. by intros F w a w' HF. Qed.

Lemma local_load {A} (f : Node → A) p : local (load f p).
Proof.
  intros F w v w' HF. unfold load. destruct p as [a|]; [|done].
  destruct (nodes w !! a) as [n|] eqn:Ha; [|done]. intros [= <- <-]. split; [done|].
  cbn. rewrite lookup_union_r by (apply (framed_None F w); eauto). by rewrite Ha.
Qed.

Lemma local_store f p : local (store f p).
Proof.
  intros F w v w' HF. unfold store. destruct p as [a|]; [|done].
  destruct (nodes w !! a) as [n|] eqn:Ha; [|done]. intros [= <- <-].
  assert (F !! a = None) as HFa by (apply (framed_None F w); eauto). split.
  - intros x Hx. destruct (HF x Hx). split; [|done]. cbn.
    rewrite lookup_insert_ne; [done|]. intros ->. destruct Hx. congruence.
  - cbn. rewrite lookup_union_r by done. rewrite Ha.
    unfold frame_on, set_nodes. cbn. by rewrite insert_union_r.
Qed.

Lemma local_tload {A} (f : RBTree → A) p : local (tload f p).
Proof.
  intros F w v w' HF. unfold tload. destruct p as [a|]; [|done]. cbn.
  destruct (trees w !! a) as [n|] eqn:Ha; [|done]. by intros [= <- <-].
Qed.

Lemma local_tstore f p : local (tstore f p).
Proof.
  intros F w v w' HF. unfold tstore. destruct p as [a|]; [|done]. cbn.
  destruct (trees w !! a) as [n|] eqn:Ha; [|done]. by intros [= <- <-].
Qed.

Lemma local_call_comp f a b : local (call_comp f a b).
Proof. by intros F w v w' HF [= <- <-]. Qed.

Lemma local_malloc_Node : local malloc_Node.
Proof.
  intros F w v w' HF. unfold malloc_Node. destruct (cap w) as [|c] eqn:Hc.
  { intros [= <- <-]. split; [done|]. cbn. by rewrite Hc. }
  intros [= <- <-].
  assert (F !! next w = None) as HFn.
  { destruct (F !! next w) eqn:HFx; [|done].
    destruct (HF (next w) ltac:(by eexists)). lia. }
  split.
  - intros x Hx. destruct (HF x Hx). cbn. split; [|lia].
    rewrite lookup_insert_ne; [done|]. intros <-. destruct Hx. congruence.
  - cbn. rewrite Hc. unfold frame_on, set_nodes. cbn. by rewrite insert_union_r.
Qed.

Lemma local_free_Node p : local (free_Node p).
Proof.
  intros F w v w' HF. unfold free_Node. destruct p as [a|]; [|by intros [= <- <-]].
  destruct (nodes w !! a) as [n|] eqn:Ha; [|done]. intros [= <- <-].
  assert (F !! a = None) as HFa by (apply (framed_None F w); eauto). split.
  - intros x Hx. destruct (HF x Hx). split; [|done]. cbn.
    rewrite lookup_delete_ne; [done|]. intros ->. destruct Hx. congruence.
  - cbn. rewrite lookup_union_r by done. rewrite Ha.
    unfold frame_on, set_nodes. cbn. by rewrite delete_union, (delete_id F).
Qed.

Lemma local_if {A} (P : Prop) `{Decision P} (m1 m2 : M A) :
  local m1 → local m2 → local (if decide P then m1 else m2).
Proof. by destruct (decide P). Qed.

Ltac local_step :=
  first
    [ apply local_ret | apply local_load | apply local_tload | apply local_store
    | apply local_tstore | apply local_call_comp | apply local_free_Node
    | apply local_out_of_fuel
    | apply local_bind; [|intros ?]
    | apply local_if
    | assumption ].

Ltac local_run := repeat local_step.

Lemma local_isRightChild cmp p : local (isRightChild cmp p).
Proof. unfold isRightChild. local_run. Qed.

Lemma local_findUncle p t : local (findUncle p t).
Proof. unfold findUncle. local_run; apply local_isRightChild. Qed.

Lemma local_leftRightSwitch a b c : local (leftRightSwitch a b c).
Proof. unfold leftRightSwitch. local_run. Qed.

Lemma local_rightLeftSwitch a b c : local (rightLeftSwitch a b c).
Proof. unfold rightLeftSwitch. local_run. Qed.

Lemma local_leftLeftSwitch a b t : local (leftLeftSwitch a b t).
Proof. unfold leftLeftSwitch. local_run; apply local_isRightChild. Qed.

Lemma local_rightRightSwitch a b t : local (rightRightSwitch a b t).
Proof. unfold rightRightSwitch. local_run; apply local_isRightChild. Qed.

Lemma local_modifyRedBlack a b c t : local (modifyRedBlack a b c t).
Proof.
  unfold modifyRedBlack.
  local_run; first [ apply local_isRightChild | apply local_leftRightSwitch
                   | apply local_rightLeftSwitch | apply local_leftLeftSwitch
                   | apply local_rightRightSwitch ].
Qed.

Lemma local_modifyNode fuel : ∀ a t, local (modifyNode fuel a t).
Proof.
  induction fuel as [|fuel IH]; intros a t; cbn [modifyNode]; [apply local_out_of_fuel|].
  local_run; first [ apply local_findUncle | apply local_modifyRedBlack | apply IH ].
Qed.

Lemma local_addNewNode fuel : ∀ a b cmp, local (addNewNode fuel a b cmp).
Proof.
  induction fuel as [|fuel IH]; intros a b cmp; cbn [addNewNode]; [apply local_out_of_fuel|].
  local_run; apply IH.
Qed.

Lemma local_makeNewNode x : local (makeNewNode x).
Proof. unfold makeNewNode. local_run. apply local_malloc_Node. Qed.

Lemma local_addToRBTree fuel t x : local (addToRBTree fuel t x).
Proof.
  unfold addToRBTree. apply local_bind; [apply local_makeNewNode|]. intros p.
  local_run; try apply local_addNewNode.
  destruct a0; local_run. apply local_modifyNode.
Qed.

Lemma wp_eq {A} (m : M A) w a w' : wp m w (λ b w1, b = a ∧ w1 = w') → m w = Ok a w'.
Proof. unfold wp. destruct (m w); [|done..]. by intros [-> ->]. Qed.

Lemma makeNewNode_run x w :
  makeNewNode x w =
  match cap w with
  | O => Ok None w
  | S c => Ok (Some (next w))
              (mkWorld (<[next w := mkNode None None None x RED]> (nodes w))
                       (trees w) (Pos.succ (next w)) c (log w))
  end.
Proof.
  destruct (cap w) as [|c] eqn:Hc.
  - apply wp_eq. unfold makeNewNode. apply wp_bind, wp_malloc_Node. rewrite Hc. by wp_run.
  - apply wp_eq. unfold makeNewNode. apply wp_bind, wp_malloc_Node. rewrite Hc. wp_run.
    split; [done|]. unfold set_nodes. cbn. by rewrite !insert_insert_eq.
Qed.

Lemma addToRBTree_unfold fuel tree x :
  addToRBTree fuel tree x
  = (let* newNode := makeNewNode x in
     if decide (newNode = None) then ret FAILURE
     else addToRBTree_rest fuel tree newNode).
Proof. reflexivity. Qed.

(** An insertion moves the allocation pointer by one cell, or not at all
    when no cell is left. *)
Lemma addToRBTree_next fuel tree x w res w' :
  addToRBTree fuel tree x w = Ok res w' →
  next w' = match cap w with O => next w | S _ => Pos.succ (next w) end.
Proof.
  rewrite addToRBTree_unfold. unfold bind. rewrite makeNewNode_run.
  destruct (cap w) as [|c]; cbn.
  - by intros [= <- <-].
  - intros Hrun. by rewrite (preserves_Ok _ _ _ _ _ (addToRBTree_rest_next _ _ _) Hrun).
Qed.

Lemma alloc_ok_lt w a : alloc_ok w → is_Some (nodes w !! a) → (a < next w)%positive.
Proof.
  intros Hal [n Hn]. destruct (decide (a < next w)%positive) as [|Hge]; [done|].
  destruct (Hal a ltac:(lia)). congruence.
Qed.

Section frame.
Context (cmp : Z → Z → Z) (ff : Z) (Hcmp : Comparator cmp) (tr : positive).

Lemma rbtree_inv_delete w t n a :
  rbtree_inv cmp ff w tr t n → a ∉ addrs t →
  rbtree_inv cmp ff (set_nodes (delete a) w) tr t n.
Proof.
  intros ((Hroot & Hr & Hnd) & Ha & Hrb & Hal) Hin. split_and!; [|done..|].
  - split_and!; [done| |done]. cbn. eapply heap_repr_ext; [|exact Hr].
    intros x Hx. rewrite lookup_delete_ne; [done|]. by intros ->.
  - intros x Hx. destruct (Hal x Hx). split; [|done]. cbn.
    destruct (decide (x = a)) as [->|]; [apply lookup_delete_eq|by rewrite lookup_delete_ne].
Qed.

(** An insertion leaves alone every cell that is neither a node of its
    tree nor the one it allocates. *)
Lemma addToRBTree_frame fuel w t n x res w' :
  rbtree_inv cmp ff w tr t n →
  addToRBTree fuel (Some tr) x w = Ok res w' →
  ∀ a, a ∉ addrs t → a ≠ next w → nodes w' !! a = nodes w !! a.
Proof.
  intros Hinv Hrun a Hin Hne.
  pose proof Hinv as (_ & _ & _ & Hal).
  destruct (nodes w !! a) as [nd|] eqn:Ha.
  - (* a cell in use: run the insertion without it *)
    set (ws := set_nodes (delete a) w).
    pose proof (rbtree_inv_delete w t n a Hinv Hin) as Hinvs. fold ws in Hinvs.
    pose proof (addToRBTree_spec cmp ff Hcmp tr (fuel `max` S (height t)) ws t n x Hinvs
                  ltac:(lia)) as Hwp.
    apply wp_Ok in Hwp as (res1 & ws' & Hruns & _).
    assert (framed {[a := nd]} ws) as HF.
    { intros y [v Hy]. apply lookup_singleton_Some in Hy as [<- _]. split.
      - apply lookup_delete_eq.
      - apply (alloc_ok_lt w); [done|by eexists]. }
    destruct (local_addToRBTree _ _ _ _ _ _ _ HF Hruns) as [_ Hrunf].
    assert (frame_on {[a := nd]} ws = w) as Hw.
    { unfold frame_on, ws, set_nodes. cbn.
      rewrite <- insert_union_singleton_l, insert_delete_eq, insert_id by done. done. }
    rewrite Hw in Hrunf.
    apply (addToRBTree_mono fuel (fuel `max` S (height t))) in Hrun; [|lia].
    rewrite Hrun in Hrunf. injection Hrunf as -> ->. cbn.
    apply lookup_union_Some_l. apply lookup_singleton_eq.
  - destruct (decide (a < next w)%positive) as [Hlt|Hge].
    + (* a free cell below the allocation pointer stays free *)
      assert (framed {[a := mkNode None None None 0 RED]} w) as HF.
      { intros y [v Hy]. apply lookup_singleton_Some in Hy as [<- _]. done. }
      destruct (local_addToRBTree _ _ _ _ _ _ _ HF Hrun) as [HF' _].
      apply HF'. rewrite lookup_singleton_eq. by eexists.
    + (* above it, nothing is allocated but the new node *)
      pose proof (ka_addToRBTree fuel (Some tr) x w Hal) as Hal'.
      apply (wlp_Ok _ _ _ _ _ Hal') in Hrun as Hal''.
      apply Hal''. rewrite (addToRBTree_next _ _ _ _ _ _ Hrun). destruct (cap w); lia.
Qed.
End frame.

(** ** From construction to teardown *)

Lemma height_le_length t : (height t ≤ length (addrs t))%nat.
Proof.
  induction t as [|c l IHl a d r IHr]; cbn; [done|].
  rewrite length_app. cbn. lia.
Qed.

Lemma newRBTree_run cmp ff w :
  newRBTree cmp ff w =
  match cap w with
  | O => Ok None w
  | S c => Ok (Some (next w))
              (mkWorld (nodes w) (<[next w := mkRBTree None cmp ff START_SIZE]> (trees w))
                       (Pos.succ (next w)) c (log w))
  end.
Proof.
  destruct (cap w) as [|c] eqn:Hc.
  - apply wp_eq. unfold newRBTree. apply wp_bind, wp_malloc_RBTree. rewrite Hc. by wp_run.
  - apply wp_eq. unfold newRBTree. apply wp_bind, wp_malloc_RBTree. rewrite Hc. wp_run.
    split; [done|]. unfold set_trees. cbn. by rewrite !insert_insert_eq.
Qed.

Section lifecycle.
Context (cmp : Z → Z → Z) (ff : Z) (Hcmp : Comparator cmp) (tr : positive) (w0 : World).

Lemma addToRBTree_apart fuel w t n x res w' :
  rbtree_inv cmp ff w tr t n → apart_from w0 w tr t →
  addToRBTree fuel (Some tr) x w = Ok res w' →
  ∃ t' n', rbtree_inv cmp ff w' tr t' n' ∧ apart_from w0 w' tr t'
           ∧ (length (addrs t') ≤ S (length (addrs t)))%nat.
Proof.
  intros Hinv (Hout & Hin & Htrees & Htr) Hrun.
  pose proof (addToRBTree_complete cmp ff Hcmp tr _ _ _ _ _ _ _ Hinv Hrun) as Hpost.
  pose proof (addToRBTree_frame cmp ff Hcmp tr _ _ _ _ _ _ _ Hinv Hrun) as Hframe.
  pose proof (preserves_Ok _ _ _ _ _ (addToRBTree_trees fuel tr x) Hrun) as Htrees'.
  unfold addToRBTree_post in Hpost.
  destruct (cap w) as [|c] eqn:Hc.
  { destruct Hpost as [_ ->]. exists t, n. split_and!; [done| |lia]. by split_and!. }
  destruct (insert_t cmp x (next w) t) as [t'|] eqn:Hins.
  - destruct Hpost as [_ Hinv']. exists t', (n + 1)%Z.
    pose proof Hinv as (_ & Ha & _ & Hal).
    destruct (insert_t_Some cmp Hcmp _ _ _ _ Ha Hins) as (_ & Hp & _).
    split_and!; [done| |by rewrite Hp].
    assert (nodes w !! next w = None) as Hfresh by (apply Hal; lia).
    split_and!.
    + intros a Ha'. rewrite Hp in Ha'. apply not_elem_of_cons in Ha' as [? ?].
      rewrite Hframe by done. by apply Hout.
    + intros a Ha'. rewrite Hp in Ha'. apply elem_of_cons in Ha' as [->|?]; [|by apply Hin].
      rewrite <- Hout; [done|]. destruct Hinv as ((_ & Hr & _) & _).
      by eapply heap_repr_fresh.
    + intros b Hb. rewrite Htrees' by done. by apply Htrees.
    + done.
  - destruct Hpost as (_ & es & _ & ->). exists t, n. split_and!; [| |lia].
    + eapply rbtree_inv_log_only; [exact Hinv|done|done|cbn; lia].
    + by split_and!.
Qed.

Lemma insert_all_apart fuel xs : ∀ w t n,
  rbtree_inv cmp ff w tr t n → apart_from w0 w tr t →
  (length (addrs t) + length xs < fuel)%nat →
  ∃ w' t' n', insert_all fuel (Some tr) xs w = Ok tt w'
              ∧ rbtree_inv cmp ff w' tr t' n' ∧ apart_from w0 w' tr t'
              ∧ (length (addrs t') ≤ length (addrs t) + length xs)%nat.
Proof.
  induction xs as [|x xs IH]; intros w t n Hinv Hap Hfuel; cbn [insert_all].
  { exists w, t, n. split_and!; [done..|lia]. }
  pose proof (height_le_length t) as Hh. cbn [length] in Hfuel.
  pose proof (addToRBTree_spec cmp ff Hcmp tr fuel w t n x Hinv ltac:(lia)) as Hwp.
  apply wp_Ok in Hwp as (res & w1 & Hrun & _).
  destruct (addToRBTree_apart _ _ _ _ _ _ _ Hinv Hap Hrun) as (t1 & n1 & Hinv1 & Hap1 & Hlen).
  destruct (IH w1 t1 n1 Hinv1 Hap1 ltac:(lia)) as (w' & t' & n' & Hrun' & ? & ? & ?).
  exists w', t', n'. split_and!; [|done..|cbn [length]; lia]. unfold bind. by rewrite Hrun.
Qed.
End lifecycle.

(** X1: creating a tree, inserting any elements and destroying the tree
    gives back every cell: the node store, the header store and the
    number of free cells are those of the start, whatever else the memory
    held.  When no cell is free, [newRBTree] returns NULL and changes
    nothing. *)
Theorem lifecycle_returns_all_memory cmp ff w0 xs fuel :
  Comparator cmp → alloc_ok w0 → (length xs < fuel)%nat →
  match cap w0 with
  | O => newRBTree cmp ff w0 = Ok None w0
  | S _ =>
    ∃ w1 w2 w3,
      newRBTree cmp ff w0 = Ok (Some (next w0)) w1
      ∧ insert_all fuel (Some (next w0)) xs w1 = Ok tt w2
      ∧ freeRBTree fuel (Some (next w0)) w2 = Ok tt w3
      ∧ nodes w3 = nodes w0 ∧ trees w3 = trees w0 ∧ cap w3 = cap w0
  end.
Proof.
  intros Hcmp Hal Hfuel. rewrite newRBTree_run.
  destruct (cap w0) as [|c] eqn:Hc; [done|].
  set (tr := next w0).
  set (w1 := mkWorld (nodes w0) (<[tr := mkRBTree None cmp ff START_SIZE]> (trees w0))
                     (Pos.succ tr) c (log w0)).
  assert (trees w0 !! tr = None) as Hfresh by (apply Hal; subst tr; lia).
  assert (rbtree_inv cmp ff w1 tr E 0) as Hinv1.
  { pose proof (newRBTree_spec cmp ff w0 Hal) as Hwp.
    apply wp_Ok in Hwp as (r & w & Hrun & Hpost).
    rewrite newRBTree_run, Hc in Hrun. injection Hrun as <- <-. apply Hpost. }
  assert (apart_from w0 w1 tr E) as Hap1.
  { split_and!; [done|by intros a ?%elem_of_nil| |done].
    intros b Hb. cbn. by rewrite lookup_insert_ne. }
  assert (cells w1 = cells w0) as Hc1.
  { unfold cells. cbn. rewrite Hc, map_size_insert_None by done. lia. }
  destruct (insert_all_apart cmp ff Hcmp tr w0 fuel xs w1 E 0 Hinv1 Hap1 ltac:(cbn; lia))
    as (w2 & t2 & n2 & Hrun2 & Hinv2 & Hap2 & Hlen).
  cbn [inorder length] in Hlen.
  pose proof (height_le_length t2) as Hh.
  destruct (freeRBTree_run cmp ff w2 tr t2 n2 fuel (proj1 Hinv2) ltac:(lia))
    as (w3 & Hrun3 & _ & Hn3 & Ht3).
  destruct (preserves_Ok _ _ _ _ _ (insert_all_cells fuel (Some tr) xs) Hrun2
              (proj2 (proj2 (proj2 Hinv1)))) as [Hal2 Hc2].
  destruct (preserves_Ok _ _ _ _ _ (freeRBTree_cells fuel (Some tr)) Hrun3 Hal2)
    as [Hal3 Hc3].
  destruct Hap2 as (Hout & Hin & Htrees & _).
  assert (nodes w3 = nodes w0) as En.
  { apply map_eq. intros a. rewrite Hn3. destruct (decide (a ∈ addrs t2)) as [Ha|Ha].
    - rewrite free_t_lookup_in by done. symmetry. by apply Hin.
    - rewrite free_t_lookup_notin by done. by apply Hout. }
  assert (trees w3 = trees w0) as Et.
  { apply map_eq. intros b. rewrite Ht3. destruct (decide (b = tr)) as [->|Hb].
    - by rewrite lookup_delete_eq.
    - rewrite lookup_delete_ne by done. by apply Htrees. }
  exists w1, w2, w3. split_and!; [done..|].
  unfold cells in *. rewrite En, Et in Hc3. lia.
Qed.

Lemma lifecycle_returns_all_memory_witness :
  ∃ w1 w2 w3,
    newRBTree subCompare 7 world0 = Ok (Some 1%positive) w1
    ∧ insert_all 4 (Some 1%positive) [10; 20; 30]%Z w1 = Ok tt w2
    ∧ freeRBTree 4 (Some 1%positive) w2 = Ok tt w3
    ∧ nodes w3 = nodes world0 ∧ trees w3 = trees world0 ∧ cap w3 = cap world0.
Proof.
  exact (lifecycle_returns_all_memory subCompare 7 world0 [10; 20; 30]%Z 4
           subCompare_ok alloc_ok_world0 ltac:(cbn; lia)).
Defined.

(** ** Two trees in one memory *)

Lemma alloc_ok_world_two : alloc_ok world_two.
Proof.
  assert (keeps_alloc two_trees) as Hka.
  { unfold two_trees.
    repeat first [ apply ka_newRBTree | apply ka_addToRBTree | apply ka_ret
                 | apply ka_bind; [|intros ?] ]. }
  apply (wlp_Ok _ _ _ tt world_two (Hka world0 alloc_ok_world0)).
  vm_compute; reflexivity.
Defined.

Lemma rbtree_inv_world_two :
  rbtree_inv subCompare 7 world_two 1 (T BLACK E 3 10 (T RED E 5 30 E)) 2.
Proof.
  split_and!.
  - split_and!; [vm_compute; reflexivity| |by apply (bool_decide_unpack _)].
    cbn. split_and!; try exact I; vm_compute; reflexivity.
  - repeat constructor.
  - split_and!; cbn; [done| |exists 1%nat; cbn; done].
    split_and!; try done.
  - apply alloc_ok_world_two.
Defined.

Lemma tree_at_world_two : tree_at subCompare 7 world_two 2 (T BLACK E 4 20 E) 1.
Proof.
  split_and!; [vm_compute; reflexivity| |by apply (bool_decide_unpack _)].
  cbn. split_and!; try exact I; vm_compute; reflexivity.
Defined.

(** X2: an insertion into one tree changes no cell that is not a node of
    that tree: every other cell in use keeps its content, and any other
    tree of the same memory, whose nodes are none of the first, is left
    exactly as it was (same header, same nodes, same links, colours and
    elements). *)
Theorem insertion_leaves_other_trees cmp1 ff1 tr1 t1 n1 cmp2 ff2 tr2 t2 n2 w fuel x res w' :
  Comparator cmp1 →
  rbtree_inv cmp1 ff1 w tr1 t1 n1 →
  tree_at cmp2 ff2 w tr2 t2 n2 →
  tr1 ≠ tr2 → (∀ a, a ∈ addrs t1 → a ∉ addrs t2) →
  addToRBTree fuel (Some tr1) x w = Ok res w' →
  tree_at cmp2 ff2 w' tr2 t2 n2
  ∧ ∀ a nd, a ∉ addrs t1 → nodes w !! a = Some nd → nodes w' !! a = Some nd.
Proof.
  intros Hcmp Hinv (Hroot & Hr & Hnd) Hne Hdisj Hrun.
  pose proof Hinv as (_ & _ & _ & Hal).
  assert (∀ a nd, a ∉ addrs t1 → nodes w !! a = Some nd → nodes w' !! a = Some nd)
    as Hframe.
  { intros a nd Ha Hn. rewrite <- Hn.
    apply (addToRBTree_frame cmp1 ff1 Hcmp tr1 _ _ _ _ _ _ _ Hinv Hrun); [done|].
    intros ->. destruct (Hal (next w) ltac:(lia)). congruence. }
  split; [|done]. split_and!; [| |done].
  - rewrite (preserves_Ok _ _ _ _ _ (addToRBTree_trees fuel tr1 x) Hrun) by done. done.
  - eapply heap_repr_ext; [|exact Hr]. intros a Ha.
    destruct (heap_repr_allocated _ _ _ _ Hr Ha) as [nd Hn]. rewrite Hn.
    apply Hframe; [|done]. intros Ha1. by apply (Hdisj a).
Qed.

Lemma insertion_leaves_other_trees_witness :
  tree_at subCompare 7
    (match addToRBTree 4 (Some 1%positive) 20 world_two with Ok _ w' => w' | _ => world0 end)
    2 (T BLACK E 4 20 E) 1
  ∧ ∀ a nd, a ∉ addrs (T BLACK E 3 10 (T RED E 5 30 E)) →
      nodes world_two !! a = Some nd →
      nodes (match addToRBTree 4 (Some 1%positive) 20 world_two with
             | Ok _ w' => w' | _ => world0 end) !! a = Some nd.
Proof.
  apply (insertion_leaves_other_trees subCompare 7 1 (T BLACK E 3 10 (T RED E 5 30 E)) 2
           subCompare 7 2 (T BLACK E 4 20 E) 1 world_two 4 20 SUCCESS).
  - exact subCompare_ok.
  - exact rbtree_inv_world_two.
  - exact tree_at_world_two.
  - discriminate.
  - intros a Ha Ha2. cbn in Ha, Ha2. apply list_elem_of_singleton in Ha2 as ->.
    revert Ha. by apply (bool_decide_unpack _).
  - vm_compute; reflexivity.
Defined.

(** ** The result of an insertion *)

(** X3: an insertion into a tree built by insertions succeeds exactly when
    a cell can be allocated and no stored element compares equal to the
    new one; it returns SUCCESS or FAILURE and nothing else; and whatever
    its outcome, the only callbacks it makes are comparisons: it never
    invokes the destructor. *)
Theorem insertion_succeeds_iff_new cmp ff tr w xs x :
  Comparator cmp →
  built cmp ff tr w xs →
  ∃ fuel0, ∀ fuel, (fuel0 ≤ fuel)%nat →
    ∃ res w' es,
      addToRBTree fuel (Some tr) x w = Ok res w'
      ∧ (res = SUCCESS ∨ res = FAILURE)
      ∧ (res = SUCCESS ↔ cap w ≠ 0%nat ∧ ∀ y, y ∈ xs → cmp x y ≠ 0%Z)
      ∧ log w' = es ++ log w ∧ Forall is_comp es.
Proof.
  intros Hcmp Hb.
  destruct (built_inv cmp ff Hcmp tr w xs Hb) as (t & Hinv & Hp).
  exists (S (height t)). intros fuel Hfuel.
  pose proof (addToRBTree_spec cmp ff Hcmp tr fuel w t _ x Hinv ltac:(lia)) as Hwp.
  apply wp_Ok in Hwp as (res & w' & Hrun & Hpost).
  destruct (preserves_Ok _ _ _ _ _ (addToRBTree_log fuel (Some tr) x) Hrun)
    as (es & Hes & Hlog).
  exists res, w', es. split_and!; [done| | |done|done].
  - unfold addToRBTree_post in Hpost. destruct (cap w); [right; apply Hpost|].
    destruct (insert_t cmp x (next w) t); [left|right]; apply Hpost.
  - unfold addToRBTree_post in Hpost. destruct (cap w) as [|c].
    { destruct Hpost as [-> _]. split; [done|]. by intros [? _]. }
    destruct (insert_t cmp x (next w) t) as [t'|] eqn:Hins.
    + destruct Hpost as [-> _]. split; [|done]. intros _. split; [done|].
      destruct Hinv as (_ & Ha & _).
      destruct (insert_t_Some cmp Hcmp _ _ _ _ Ha Hins) as (_ & _ & _ & Hne & _).
      intros y Hy. apply Hne. by rewrite Hp.
    + destruct Hpost as [-> _]. split; [done|]. intros [_ Hne].
      destruct (insert_t_None cmp _ _ _ Hins) as (y & Hy & Hxy).
      destruct (Hne y); [by rewrite <- Hp|done].
Qed.

Lemma insertion_succeeds_iff_new_witness :
  ∃ fuel0, ∀ fuel, (fuel0 ≤ fuel)%nat →
    ∃ res w' es,
      addToRBTree fuel (Some 1%positive) 25 (world_after [10; 20; 30]%Z) = Ok res w'
      ∧ (res = SUCCESS ∨ res = FAILURE)
      ∧ (res = SUCCESS ↔ cap (world_after [10; 20; 30]%Z) ≠ 0%nat
                          ∧ ∀ y, y ∈ [30; 20; 10]%Z → subCompare 25 y ≠ 0%Z)
      ∧ log w' = es ++ log (world_after [10; 20; 30]%Z) ∧ Forall is_comp es.
Proof.
  exact (insertion_succeeds_iff_new subCompare 7 1 _ _ 25 subCompare_ok built_10_20_30).
Defined.

(** ** The links between the nodes *)

Lemma reach_addrs m p a :
  reach m p a → ∀ par t, heap_repr m par t → root_of t = p → a ∈ addrs t.
Proof.
  induction 1 as [a nd Ha|a nd b Ha Hr IH|a nd b Ha Hr IH]; intros par t Ht Hroot.
  - destruct t as [|c l a' d r]; [done|]. injection Hroot as ->.
    cbn. apply elem_of_app. right. left.
  - destruct t as [|c l a' d r]; [done|]. injection Hroot as ->.
    destruct Ht as (Ha' & Hl & _). rewrite Ha in Ha'. injection Ha' as ->.
    cbn. apply elem_of_app. left. by eapply IH.
  - destruct t as [|c l a' d r]; [done|]. injection Hroot as ->.
    destruct Ht as (Ha' & _ & Hr'). rewrite Ha in Ha'. injection Ha' as ->.
    cbn. apply elem_of_app. right. right. by eapply IH.
Qed.

Lemma addrs_reach m t : ∀ par a, heap_repr m par t → a ∈ addrs t → reach m (root_of t) a.
Proof.
  induction t as [|c l IHl a' d r IHr]; intros par a; cbn.
  - by intros _ ?%elem_of_nil.
  - intros (Ha & Hl & Hr) [Hin|[->|Hin]%elem_of_cons]%elem_of_app.
    + eapply reach_left; [exact Ha|]. cbn. by eapply IHl.
    + by eapply reach_here.
    + eapply reach_right; [exact Ha|]. cbn. by eapply IHr.
Qed.

(** Every node of a tree sits in a context. *)
Lemma addrs_plug t a : ∀ k0,
  a ∈ addrs t → ∃ k c l d r, plug k0 t = plug k (T c l a d r).
Proof.
  induction t as [|c l IHl a' d r IHr]; intros k0; cbn.
  - by intros ?%elem_of_nil.
  - intros [Hin|[->|Hin]%elem_of_cons]%elem_of_app.
    + apply (IHl (CL c a' d k0 r)) in Hin. exact Hin.
    + by exists k0, c, l, d, r.
    + apply (IHr (CR c l a' d k0)) in Hin. exact Hin.
Qed.

Section links.
Context (cmp : Z → Z → Z) (ff : Z) (Hcmp : Comparator cmp) (tr : positive).

Lemma node_links w n k c l a d r :
  tree_at cmp ff w tr (plug k (T c l a d r)) n →
  ascending cmp (elems (plug k (T c l a d r))) →
  nodes w !! a = Some (mkNode (root_of l) (root_of r) (ctx_par k) d c)
  ∧ (ctx_par k = None ↔ root_of (plug k (T c l a d r)) = Some a)
  ∧ (∀ p, ctx_par k = Some p →
       ∃ np, nodes w !! p = Some np
             ∧ (left np = Some a ∧ right np ≠ Some a ∨ right np = Some a ∧ left np ≠ Some a))
  ∧ (∀ b, root_of l = Some b →
       ∃ nb, nodes w !! b = Some nb ∧ parent nb = Some a ∧ (cmp (data nb) d < 0)%Z)
  ∧ (∀ b, root_of r = Some b →
       ∃ nb, nodes w !! b = Some nb ∧ parent nb = Some a ∧ (cmp d (data nb) < 0)%Z).
Proof.
  intros Ht Ha. rewrite inorder_plug in Ha. pose proof Ht as Ht'. open_tree Ht'.
  split_and!.
  - done.
  - split.
    + destruct k; [done|done|done].
    + rewrite root_of_plug. cbn [root_of]. destruct k as [|pc pa pd up ps|pc ps pa pd up];
        [done|..]; cbn [ctx_root]; intros Hrt; exfalso; renorm;
        symmetry in Hrt; revert Hrt; apply ctx_root_neq; neq.
  - intros p Hp. destruct k as [|pc pa pd up ps|pc ps pa pd up]; [done|..];
      injection Hp as <-; renorm; eexists; (split; [eassumption|]); cbn.
    + left. split; [done|]. destruct ps; renorm; cbn; [done|]. intros [= ->]. done.
    + right. split; [done|]. destruct ps; renorm; cbn; [done|]. intros [= ->]. done.
  - intros b Hb. destruct l as [|lc ll la ld lr]; [done|]. injection Hb as ->. renorm.
    eexists. split; [eassumption|]. split; [done|]. cbn. done.
  - intros b Hb. destruct r as [|rc rl ra rd rr]; [done|]. injection Hb as ->. renorm.
    eexists. split; [eassumption|]. split; [done|]. cbn. done.
Qed.
End links.

(** X4: in a tree built by insertions the links are consistent.  Every
    node reachable from the root has no parent exactly when it is the
    root; otherwise its parent is in use and holds it as its left or its
    right child, not both.  Each child of a node is in use, points back to
    the node as its parent, and holds a smaller element when it is the
    left child, a greater one when it is the right child. *)
Theorem links_are_consistent cmp ff tr w xs rbt a :
  Comparator cmp →
  built cmp ff tr w xs →
  trees w !! tr = Some rbt →
  reach (nodes w) (root rbt) a →
  ∃ nd, nodes w !! a = Some nd
    ∧ (parent nd = None ↔ root rbt = Some a)
    ∧ (∀ p, parent nd = Some p →
         ∃ np, nodes w !! p = Some np
               ∧ (left np = Some a ∧ right np ≠ Some a
                  ∨ right np = Some a ∧ left np ≠ Some a))
    ∧ (∀ b, left nd = Some b →
         ∃ nb, nodes w !! b = Some nb ∧ parent nb = Some a
               ∧ (cmp (data nb) (data nd) < 0)%Z)
    ∧ (∀ b, right nd = Some b →
         ∃ nb, nodes w !! b = Some nb ∧ parent nb = Some a
               ∧ (cmp (data nd) (data nb) < 0)%Z).
Proof.
  intros Hcmp Hb Hrbt Hreach.
  destruct (built_inv cmp ff Hcmp tr w xs Hb) as (t & (Ht & Ha & _) & _).
  pose proof Ht as (Hroot & Hr & _).
  rewrite Hroot in Hrbt. injection Hrbt as <-. cbn [root] in *.
  pose proof (reach_addrs _ _ _ Hreach None t Hr eq_refl) as Hin.
  destruct (addrs_plug t a Top Hin) as (k & c & l & d & r & Hk). cbn [plug] in Hk.
  rewrite Hk in Ht, Ha |- *.
  destruct (node_links cmp ff tr w _ k c l a d r Ht Ha) as (Hn & Hp & Hpar & Hl & Hrr).
  eexists. split; [exact Hn|]. cbn [parent left right data]. done.
Qed.

Lemma reach_4_of_10_20_30 :
  reach (nodes (world_after [10; 20; 30]%Z)) (Some 3%positive) 4%positive.
Proof.
  eapply reach_right; [vm_compute; reflexivity|]. cbn.
  eapply reach_here. vm_compute; reflexivity.
Defined.

Lemma links_are_consistent_witness :
  ∃ nd, nodes (world_after [10; 20; 30]%Z) !! 4%positive = Some nd
    ∧ (parent nd = None ↔ Some 3%positive = Some 4%positive)
    ∧ (∀ p, parent nd = Some p →
         ∃ np, nodes (world_after [10; 20; 30]%Z) !! p = Some np
               ∧ (left np = Some 4%positive ∧ right np ≠ Some 4%positive
                  ∨ right np = Some 4%positive ∧ left np ≠ Some 4%positive))
    ∧ (∀ b, left nd = Some b →
         ∃ nb, nodes (world_after [10; 20; 30]%Z) !! b = Some nb
               ∧ parent nb = Some 4%positive
               ∧ (subCompare (data nb) (data nd) < 0)%Z)
    ∧ (∀ b, right nd = Some b →
         ∃ nb, nodes (world_after [10; 20; 30]%Z) !! b = Some nb
               ∧ parent nb = Some 4%positive
               ∧ (subCompare (data nd) (data nb) < 0)%Z).
Proof.
  apply (links_are_consistent subCompare 7 1 (world_after [10; 20; 30]%Z) [30; 20; 10]%Z
           (mkRBTree (Some 3%positive) subCompare 7 3) 4 subCompare_ok built_10_20_30).
  - vm_compute; reflexivity.
  - exact reach_4_of_10_20_30.
Defined.

(** ** The side of a node and the uncle *)

Section sides.
Context (cmp : Z → Z → Z) (ff : Z) (Hcmp : Comparator cmp) (tr : positive).

Lemma isRightChild_run w n k c l a d r :
  tree_at cmp ff w tr (plug k (T c l a d r)) n →
  ascending cmp (elems (plug k (T c l a d r))) →
  ∃ es, Forall is_comp es ∧ (length es ≤ 1)%nat ∧
    isRightChild cmp (Some a) w
    = Ok match k with Top => 0%Z | CL _ _ _ _ _ => LEFT_CHILD | CR _ _ _ _ _ => RIGHT_CHILD end
         (add_log es w).
Proof.
  intros Ht Ha. rewrite inorder_plug in Ha. open_tree Ht.
  destruct k as [|pc pa pd up ps|pc ps pa pd up]; renorm.
  - exists []. split_and!; [constructor|cbn; lia|]. apply wp_eq. unfold isRightChild. wp_run. by split.
  - destruct ps as [|sc sl sa sd sr]; renorm.
    + exists []. split_and!; [constructor|cbn; lia|]. apply wp_eq. unfold isRightChild.
      wp_run. by split.
    + exists [EvComp sd d]. split_and!; [by repeat constructor|cbn; lia|].
      apply wp_eq. unfold isRightChild. wp_run.
      rewrite decide_False by cmp_neq. wp_run. by split.
  - exists [EvComp d d]. split_and!; [by repeat constructor|cbn; lia|].
    apply wp_eq. unfold isRightChild. wp_run.
    rewrite decide_True by apply (cmp_refl cmp Hcmp). wp_run. by split.
Qed.
End sides.

(** X5: on a node of a tree built by insertions, [isRightChild] agrees
    with the links although it decides by comparing elements: it returns
    0 for the node without parent, RIGHT_CHILD when the parent's right
    pointer is the node, LEFT_CHILD when the parent's left pointer is.  It
    makes at most one comparison and changes nothing else. *)
Theorem isRightChild_agrees_with_links cmp ff tr w xs rbt a :
  Comparator cmp →
  built cmp ff tr w xs →
  trees w !! tr = Some rbt →
  reach (nodes w) (root rbt) a →
  ∃ side es nd,
    isRightChild cmp (Some a) w = Ok side (add_log es w)
    ∧ Forall is_comp es ∧ (length es ≤ 1)%nat
    ∧ nodes w !! a = Some nd
    ∧ match parent nd with
      | None => side = 0%Z
      | Some p =>
        ∃ np, nodes w !! p = Some np
              ∧ (right np = Some a ∧ left np ≠ Some a ∧ side = RIGHT_CHILD
                 ∨ left np = Some a ∧ right np ≠ Some a ∧ side = LEFT_CHILD)
      end.
Proof.
  intros Hcmp Hb Hrbt Hreach.
  destruct (built_inv cmp ff Hcmp tr w xs Hb) as (t & (Ht & Ha & _) & _).
  pose proof Ht as (Hroot & Hr & _).
  rewrite Hroot in Hrbt. injection Hrbt as <-. cbn [root] in *.
  pose proof (reach_addrs _ _ _ Hreach None t Hr eq_refl) as Hin.
  destruct (addrs_plug t a Top Hin) as (k & c & l & d & r & Hk). cbn [plug] in Hk.
  rewrite Hk in Ht, Ha.
  destruct (isRightChild_run cmp ff Hcmp tr w _ k c l a d r Ht Ha) as (es & Hes & Hlen & Hrun).
  destruct (node_links cmp ff tr w _ k c l a d r Ht Ha) as (Hn & _ & Hpar & _).
  eexists _, es, _. split_and!; [exact Hrun|done|done|exact Hn|]. cbn [parent].
  destruct k as [|pc pa pd up ps|pc ps pa pd up]; cbn [ctx_par]; [done|..].
  - destruct (Hpar pa eq_refl) as (np & Hnp & Hside). exists np. split; [done|].
    pose proof Ht as Ht'. open_tree Ht'. renorm.
    match goal with H : nodes w !! pa = Some _ |- _ => rewrite H in Hnp end.
    injection Hnp as <-. cbn in *. destruct Hside as [[_ ?]|[_ ?]]; [by right|done].
  - destruct (Hpar pa eq_refl) as (np & Hnp & Hside). exists np. split; [done|].
    pose proof Ht as Ht'. open_tree Ht'. renorm.
    match goal with H : nodes w !! pa = Some _ |- _ => rewrite H in Hnp end.
    injection Hnp as <-. cbn in *. destruct Hside as [[_ ?]|[_ ?]]; [done|by left].
Qed.

Lemma isRightChild_agrees_with_links_witness :
  ∃ side es nd,
    isRightChild subCompare (Some 4%positive) (world_after [10; 20; 30]%Z)
    = Ok side (add_log es (world_after [10; 20; 30]%Z))
    ∧ Forall is_comp es ∧ (length es ≤ 1)%nat
    ∧ nodes (world_after [10; 20; 30]%Z) !! 4%positive = Some nd
    ∧ match parent nd with
      | None => side = 0%Z
      | Some p =>
        ∃ np, nodes (world_after [10; 20; 30]%Z) !! p = Some np
              ∧ (right np = Some 4%positive ∧ left np ≠ Some 4%positive
                 ∧ side = RIGHT_CHILD
                 ∨ left np = Some 4%positive ∧ right np ≠ Some 4%positive
                   ∧ side = LEFT_CHILD)
      end.
Proof.
  apply (isRightChild_agrees_with_links subCompare 7 1 (world_after [10; 20; 30]%Z)
           [30; 20; 10]%Z (mkRBTree (Some 3%positive) subCompare 7 3) 4
           subCompare_ok built_10_20_30).
  - vm_compute; reflexivity.
  - exact reach_4_of_10_20_30.
Defined.

Lemma wp_of_run {A} (m : M A) w a w' (Q : A → World → Prop) :
  m w = Ok a w' → Q a w' → wp m w Q.
Proof. unfold wp. by intros ->. Qed.

Section uncle.
Context (cmp : Z → Z → Z) (ff : Z) (Hcmp : Comparator cmp) (tr : positive).

Lemma findUncle_run_left w n up gc ga gd u pc pl pa pd pr a :
  tree_at cmp ff w tr (plug (CL gc ga gd up u) (T pc pl pa pd pr)) n →
  ascending cmp (elems (plug (CL gc ga gd up u) (T pc pl pa pd pr))) →
  root_of pl = Some a ∨ root_of pr = Some a →
  ∃ es, Forall is_comp es ∧
    findUncle (Some a) (Some tr) w = Ok (root_of u) (add_log es w).
Proof.
  intros Ht Ha Hside.
  destruct (isRightChild_run cmp ff Hcmp tr w n _ _ _ _ _ _ Ht Ha) as (es & Hes & _ & Hrun).
  exists es. split; [done|]. open_tree Ht.
  apply wp_eq. unfold findUncle.
  destruct Hside as [Hs|Hs].
  - destruct pl as [|c l a' d r]; [done|]. injection Hs as ->. renorm. wp_run.
    eapply wp_of_run; [exact Hrun|]. wp_run. by split.
  - destruct pr as [|c l a' d r]; [done|]. injection Hs as ->. renorm. wp_run.
    eapply wp_of_run; [exact Hrun|]. wp_run. by split.
Qed.

Lemma findUncle_run_right w n up gc ga gd u pc pl pa pd pr a :
  tree_at cmp ff w tr (plug (CR gc u ga gd up) (T pc pl pa pd pr)) n →
  ascending cmp (elems (plug (CR gc u ga gd up) (T pc pl pa pd pr))) →
  root_of pl = Some a ∨ root_of pr = Some a →
  ∃ es, Forall is_comp es ∧
    findUncle (Some a) (Some tr) w = Ok (root_of u) (add_log es w).
Proof.
  intros Ht Ha Hside.
  destruct (isRightChild_run cmp ff Hcmp tr w n _ _ _ _ _ _ Ht Ha) as (es & Hes & _ & Hrun).
  exists es. split; [done|]. open_tree Ht.
  apply wp_eq. unfold findUncle.
  destruct Hside as [Hs|Hs].
  - destruct pl as [|c l a' d r]; [done|]. injection Hs as ->. renorm. wp_run.
    eapply wp_of_run; [exact Hrun|]. wp_run. by split.
  - destruct pr as [|c l a' d r]; [done|]. injection Hs as ->. renorm. wp_run.
    eapply wp_of_run; [exact Hrun|]. wp_run. by split.
Qed.
End uncle.

(** X6: on a node of a tree built by insertions that has a parent and a
    grandparent, [findUncle] returns the other child of the grandparent
    (NULL when there is none): its right pointer when the parent is its
    left child, its left pointer when the parent is its right child.  The
    call makes comparisons only and changes nothing else. *)
Theorem findUncle_returns_other_child cmp ff tr w xs rbt a nd p np g ng :
  Comparator cmp →
  built cmp ff tr w xs →
  trees w !! tr = Some rbt →
  reach (nodes w) (root rbt) a →
  nodes w !! a = Some nd → parent nd = Some p →
  nodes w !! p = Some np → parent np = Some g →
  nodes w !! g = Some ng →
  ∃ u es,
    findUncle (Some a) (Some tr) w = Ok u (add_log es w)
    ∧ Forall is_comp es
    ∧ (left ng = Some p ∧ u = right ng ∨ right ng = Some p ∧ u = left ng).
Proof.
  intros Hcmp Hb Hrbt Hreach.
  destruct (built_inv cmp ff Hcmp tr w xs Hb) as (t & (Ht & Ha & _) & _).
  pose proof Ht as (Hroot & Hr & _).
  rewrite Hroot in Hrbt. injection Hrbt as <-. cbn [root] in *.
  pose proof (reach_addrs _ _ _ Hreach None t Hr eq_refl) as Hin.
  destruct (addrs_plug t a Top Hin) as (k & c & l & d & r & Hk). cbn [plug] in Hk.
  rewrite Hk in Ht, Ha. clear Hk Hroot Hr Hin Hreach.
  intros Hnd Hp Hnp Hg Hng.
  pose proof Ht as Ht'. open_tree Ht'.
  match goal with H : nodes w !! a = Some _ |- _ => rewrite H in Hnd end.
  injection Hnd as <-. cbn [parent] in Hp.
  destruct k as [|pc pa pd up ps|pc ps pa pd up]; [done|..]; injection Hp as <-; renorm;
    (match goal with H : nodes w !! pa = Some _ |- _ => rewrite H in Hnp end);
    injection Hnp as <-; cbn [parent] in Hg;
    (destruct up as [|gc ga gd up u|gc u ga gd up]; [done|..]); injection Hg as <-; renorm;
    (match goal with H : nodes w !! ga = Some _ |- _ => rewrite H in Hng end);
    injection Hng as <-; cbn [left right].
  - destruct (findUncle_run_left cmp ff Hcmp tr w _ up gc ga gd u pc (T c l a d r) pa pd ps a
                Ht Ha ltac:(by left)) as (es & Hes & Hrun).
    exists (root_of u), es. split_and!; [done..|by left].
  - destruct (findUncle_run_right cmp ff Hcmp tr w _ up gc ga gd u pc (T c l a d r) pa pd ps a
                Ht Ha ltac:(by left)) as (es & Hes & Hrun).
    exists (root_of u), es. split_and!; [done..|by right].
  - destruct (findUncle_run_left cmp ff Hcmp tr w _ up gc ga gd u pc ps pa pd (T c l a d r) a
                Ht Ha ltac:(by right)) as (es & Hes & Hrun).
    exists (root_of u), es. split_and!; [done..|by left].
  - destruct (findUncle_run_right cmp ff Hcmp tr w _ up gc ga gd u pc ps pa pd (T c l a d r) a
                Ht Ha ltac:(by right)) as (es & Hes & Hrun).
    exists (root_of u), es. split_and!; [done..|by right].
Qed.

Lemma built_10_20_30_40 :
  built subCompare 7 1 (world_after [10; 20; 30; 40]%Z) [40; 30; 20; 10]%Z.
Proof.
  eapply (built_add _ _ _ (world_after [10; 20; 30]%Z) _ 4%nat).
  - exact built_10_20_30.
  - vm_compute; reflexivity.
Defined.

Lemma reach_5_of_10_20_30_40 :
  reach (nodes (world_after [10; 20; 30; 40]%Z)) (Some 3%positive) 5%positive.
Proof.
  eapply reach_right; [vm_compute; reflexivity|]. cbn.
  eapply reach_right; [vm_compute; reflexivity|]. cbn.
  eapply reach_here. vm_compute; reflexivity.
Defined.

Lemma findUncle_returns_other_child_witness :
  ∃ u es,
    findUncle (Some 5%positive) (Some 1%positive) (world_after [10; 20; 30; 40]%Z)
    = Ok u (add_log es (world_after [10; 20; 30; 40]%Z))
    ∧ Forall is_comp es
    ∧ (left (mkNode (Some 2%positive) (Some 4%positive) None 20 BLACK) = Some 4%positive
       ∧ u = right (mkNode (Some 2%positive) (Some 4%positive) None 20 BLACK)
       ∨ right (mkNode (Some 2%positive) (Some 4%positive) None 20 BLACK) = Some 4%positive
         ∧ u = left (mkNode (Some 2%positive) (Some 4%positive) None 20 BLACK)).
Proof.
  apply (findUncle_returns_other_child subCompare 7 1 (world_after [10; 20; 30; 40]%Z)
           [40; 30; 20; 10]%Z (mkRBTree (Some 3%positive) subCompare 7 4) 5
           (mkNode None None (Some 4%positive) 40 RED) 4
           (mkNode None (Some 5%positive) (Some 3%positive) 30 BLACK) 3
           (mkNode (Some 2%positive) (Some 4%positive) None 20 BLACK)
           subCompare_ok built_10_20_30_40).
  - vm_compute; reflexivity.
  - exact reach_5_of_10_20_30_40.
  - vm_compute; reflexivity.
  - reflexivity.
  - vm_compute; reflexivity.
  - reflexivity.
  - vm_compute; reflexivity.
Defined.

(** ** The rotations *)

Ltac concrete_tree_at :=
  split_and!; [vm_compute; reflexivity| |by apply (bool_decide_unpack _)];
  cbn; split_and!; try exact I; vm_compute; reflexivity.

Ltac concrete_ascending := cbn; repeat constructor.

(** X7: [leftLeftSwitch] rotates the parent above the grandparent: the
    grandparent becomes the right child of the parent and takes over the
    parent's former right subtree; the position of the pair in the tree
    (child of the great-grandparent on the same side, or root) and the
    in-order sequence of the elements are kept.  [rightRightSwitch],
    applied to the two nodes in swapped roles, undoes it. *)
Theorem straight_rotations_are_inverse cmp ff tr w n up gc pc pl pa pd pr ga gd u :
  Comparator cmp →
  tree_at cmp ff w tr (plug up (T gc (T pc pl pa pd pr) ga gd u)) n →
  ascending cmp (elems (plug up (T gc (T pc pl pa pd pr) ga gd u))) →
  ∃ w1 w2,
    leftLeftSwitch (Some pa) (Some ga) (Some tr) w = Ok tt w1
    ∧ tree_at cmp ff w1 tr (plug up (T pc pl pa pd (T gc pr ga gd u))) n
    ∧ elems (plug up (T pc pl pa pd (T gc pr ga gd u)))
      = elems (plug up (T gc (T pc pl pa pd pr) ga gd u))
    ∧ rightRightSwitch (Some ga) (Some pa) (Some tr) w1 = Ok tt w2
    ∧ tree_at cmp ff w2 tr (plug up (T gc (T pc pl pa pd pr) ga gd u)) n.
Proof.
  intros Hcmp Ht Ha.
  assert (elems (plug up (T pc pl pa pd (T gc pr ga gd u)))
          = elems (plug up (T gc (T pc pl pa pd pr) ga gd u))) as He.
  { rewrite !inorder_plug. list_norm. reflexivity. }
  assert (wp (leftLeftSwitch (Some pa) (Some ga) (Some tr)) w
            (λ _ w1, tree_at cmp ff w1 tr (plug up (T pc pl pa pd (T gc pr ga gd u))) n))
    as Hwp1.
  { eapply leftLeftSwitch_spec; [exact Hcmp|exact Ht|exact Ha|]. by intros w' Hw'. }
  apply wp_Ok in Hwp1 as ([] & w1 & Hrun1 & Ht1).
  assert (wp (rightRightSwitch (Some ga) (Some pa) (Some tr)) w1
            (λ _ w2, tree_at cmp ff w2 tr (plug up (T gc (T pc pl pa pd pr) ga gd u)) n))
    as Hwp2.
  { eapply rightRightSwitch_spec; [exact Hcmp|exact Ht1|by rewrite He|]. by intros w' Hw'. }
  apply wp_Ok in Hwp2 as ([] & w2 & Hrun2 & Ht2).
  exists w1, w2. done.
Qed.

Lemma straight_rotations_are_inverse_witness :
  ∃ w1 w2,
    leftLeftSwitch (Some 3%positive) (Some 2%positive) (Some 1%positive)
      (world_after [30; 10]%Z) = Ok tt w1
    ∧ tree_at subCompare 7 w1 1 (T RED E 3 10 (T BLACK E 2 30 E)) 2
    ∧ elems (T RED E 3 10 (T BLACK E 2 30 E)) = elems (T BLACK (T RED E 3 10 E) 2 30 E)
    ∧ rightRightSwitch (Some 2%positive) (Some 3%positive) (Some 1%positive) w1 = Ok tt w2
    ∧ tree_at subCompare 7 w2 1 (T BLACK (T RED E 3 10 E) 2 30 E) 2.
Proof.
  apply (straight_rotations_are_inverse subCompare 7 1 (world_after [30; 10]%Z) 2 Top
           BLACK RED E 3 10 E 2 30 E).
  - exact subCompare_ok.
  - concrete_tree_at.
  - concrete_ascending.
Defined.

(** X8: [leftRightSwitch] straightens a bent left branch: the node, right
    child of a parent that is the left child of the grandparent, takes the
    parent's place below the grandparent; the parent becomes its left
    child and takes over the node's former left subtree.  The in-order
    sequence of the elements is kept. *)
Theorem leftRightSwitch_straightens cmp ff tr w n up gc pc pl pa pd nc nl na nd nr ga gd u :
  tree_at cmp ff w tr (plug (CL gc ga gd up u) (T pc pl pa pd (T nc nl na nd nr))) n →
  ∃ w',
    leftRightSwitch (Some na) (Some pa) (Some ga) w = Ok tt w'
    ∧ tree_at cmp ff w' tr (plug (CL gc ga gd up u) (T nc (T pc pl pa pd nl) na nd nr)) n
    ∧ elems (plug (CL gc ga gd up u) (T nc (T pc pl pa pd nl) na nd nr))
      = elems (plug (CL gc ga gd up u) (T pc pl pa pd (T nc nl na nd nr))).
Proof.
  intros Ht.
  assert (wp (leftRightSwitch (Some na) (Some pa) (Some ga)) w
            (λ _ w1, tree_at cmp ff w1 tr
                       (plug (CL gc ga gd up u) (T nc (T pc pl pa pd nl) na nd nr)) n))
    as Hwp.
  { eapply leftRightSwitch_spec; [exact Ht|]. by intros w' Hw'. }
  apply wp_Ok in Hwp as ([] & w1 & Hrun1 & Ht1).
  exists w1. split_and!; [done..|].
  rewrite !inorder_plug. list_norm. reflexivity.
Qed.

Lemma leftRightSwitch_straightens_witness :
  ∃ w',
    leftRightSwitch (Some 4%positive) (Some 3%positive) (Some 2%positive) world_bent_left
    = Ok tt w'
    ∧ tree_at subCompare 7 w' 1 (T BLACK (T RED (T RED E 3 10 E) 4 20 E) 2 30 E) 2
    ∧ elems (T BLACK (T RED (T RED E 3 10 E) 4 20 E) 2 30 E)
      = elems (T BLACK (T RED E 3 10 (T RED E 4 20 E)) 2 30 E).
Proof.
  apply (leftRightSwitch_straightens subCompare 7 1 world_bent_left 2 Top
           BLACK RED E 3 10 RED E 4 20 E 2 30 E).
  concrete_tree_at.
Defined.

(** X9: [rightLeftSwitch] straightens a bent right branch: the node, left
    child of a parent that is the right child of the grandparent, takes
    the parent's place below the grandparent; the parent becomes its right
    child and takes over the node's former right subtree.  The in-order
    sequence of the elements is kept. *)
Theorem rightLeftSwitch_straightens cmp ff tr w n up gc pc pr pa pd nc nl na nd nr ga gd u :
  tree_at cmp ff w tr (plug (CR gc u ga gd up) (T pc (T nc nl na nd nr) pa pd pr)) n →
  ∃ w',
    rightLeftSwitch (Some na) (Some pa) (Some ga) w = Ok tt w'
    ∧ tree_at cmp ff w' tr (plug (CR gc u ga gd up) (T nc nl na nd (T pc nr pa pd pr))) n
    ∧ elems (plug (CR gc u ga gd up) (T nc nl na nd (T pc nr pa pd pr)))
      = elems (plug (CR gc u ga gd up) (T pc (T nc nl na nd nr) pa pd pr)).
Proof.
  intros Ht.
  assert (wp (rightLeftSwitch (Some na) (Some pa) (Some ga)) w
            (λ _ w1, tree_at cmp ff w1 tr
                       (plug (CR gc u ga gd up) (T nc nl na nd (T pc nr pa pd pr))) n))
    as Hwp.
  { eapply rightLeftSwitch_spec; [exact Ht|]. by intros w' Hw'. }
  apply wp_Ok in Hwp as ([] & w1 & Hrun1 & Ht1).
  exists w1. split_and!; [done..|].
  rewrite !inorder_plug. list_norm. reflexivity.
Qed.

Lemma rightLeftSwitch_straightens_witness :
  ∃ w',
    rightLeftSwitch (Some 4%positive) (Some 3%positive) (Some 2%positive) world_bent_right
    = Ok tt w'
    ∧ tree_at subCompare 7 w' 1 (T BLACK E 2 10 (T RED E 4 20 (T RED E 3 30 E))) 2
    ∧ elems (T BLACK E 2 10 (T RED E 4 20 (T RED E 3 30 E)))
      = elems (T BLACK E 2 10 (T RED (T RED E 4 20 E) 3 30 E)).
Proof.
  apply (rightLeftSwitch_straightens subCompare 7 1 world_bent_right 2 Top
           BLACK RED E 3 30 RED E 4 20 E 2 10 E).
  concrete_tree_at.
Defined.

(** ** The height of a red-black tree *)

Lemma bh_size t : ∀ n, bh t n → (2 ^ n ≤ length (elems t) + 1)%nat.
Proof.
  induction t as [|c l IHl a d r IHr]; intros n; cbn [bh inorder].
  - intros ->. cbn. lia.
  - rewrite length_app. cbn [length]. destruct c.
    + intros [Hl Hr]. specialize (IHl _ Hl). lia.
    + destruct n as [|n]; [done|]. intros [Hl Hr].
      specialize (IHl _ Hl). specialize (IHr _ Hr). rewrite Nat.pow_succ_r'. lia.
Qed.

Lemma bh_height t : ∀ n,
  no_red_red t → bh t n → (height t ≤ 2 * n + (if is_red t then 1 else 0))%nat.
Proof.
  induction t as [|c l IHl a d r IHr]; intros n; cbn [bh no_red_red height is_red].
  - intros _ ->. lia.
  - intros (Hc & Hnl & Hnr). destruct c.
    + intros [Hl Hr]. destruct (Hc eq_refl) as [Hbl Hbr].
      specialize (IHl _ Hnl Hl). specialize (IHr _ Hnr Hr).
      destruct l as [|[] ? ? ? ?]; destruct r as [|[] ? ? ? ?]; cbn in *; try done; lia.
    + destruct n as [|n]; [done|]. intros [Hl Hr].
      specialize (IHl _ Hnl Hl). specialize (IHr _ Hnr Hr).
      destruct (is_red l), (is_red r); lia.
Qed.

(** A red-black tree of [n] elements is at most [2 log2 (n + 1)] high. *)
Lemma is_redblack_height t :
  is_redblack t → (height t ≤ 2 * Nat.log2 (length (elems t) + 1))%nat.
Proof.
  intros (Hroot & Hnr & n & Hbh).
  pose proof (bh_size t n Hbh) as Hs. pose proof (bh_height t n Hnr Hbh) as Hh.
  assert (is_red t = false) as Hred.
  { destruct t as [|[] ? ? ? ?]; cbn in *; done. }
  rewrite Hred in Hh.
  apply Nat.log2_le_pow2 in Hs; lia.
Qed.

Section count.
Context (cmp : Z → Z → Z) (tr : positive).

(** The search compares at most once per level. *)
Lemma containsLoop_count x fuel : ∀ t par w rbt Q,
  (height t < fuel)%nat →
  heap_repr (nodes w) par t →
  trees w !! tr = Some rbt → compFunc rbt = cmp →
  (∀ es, Forall is_comp es → (length es ≤ height t)%nat →
         Q (contains_t cmp x t) (add_log es w)) →
  wp (containsLoop fuel (Some tr) (root_of t) x) w Q.
Proof.
  induction fuel as [|fuel IH]; intros t par w rbt Q Hfuel Hr Htr Hcf HQ; [lia|].
  cbn [containsLoop].
  destruct t as [|c l a d r]; cbn [root_of contains_t] in *.
  { wp_run. apply (HQ []); [constructor|cbn; lia]. }
  destruct Hr as (Ha & Hl & Hr). wp_run.
  revert HQ. destruct (decide (d = NULL)) as [Hd|Hd]; intros HQ.
  { wp_run. apply (HQ []); [constructor|cbn; lia]. }
  wp_run. rewrite Hcf.
  revert HQ. destruct (decide (cmp d x = 0%Z)) as [H0|H0]; intros HQ.
  { wp_run. apply (HQ [EvComp d x]); [comps|cbn; lia]. }
  revert HQ. destruct (decide (cmp d x > 0)%Z) as [Hgt|Hgt]; intros HQ.
  - wp_run. eapply (IH l); [cbn [height] in *; lia|exact Hl|exact Htr|exact Hcf|].
    intros es Hes Hlen. rewrite add_log_app. apply HQ.
    + apply Forall_app. split; [done|comps].
    + rewrite length_app. cbn [length height]. lia.
  - rewrite decide_True by lia.
    wp_run. eapply (IH r); [cbn [height] in *; lia|exact Hr|exact Htr|exact Hcf|].
    intros es Hes Hlen. rewrite add_log_app. apply HQ.
    + apply Forall_app. split; [done|comps].
    + rewrite length_app. cbn [length height]. lia.
Qed.
End count.

(** X10: a lookup in a tree built by [n] successful insertions makes at
    most [2 log2 (n + 1)] comparisons: the search loop goes round once per
    level, and a red-black tree of [n] elements has at most that many
    levels.  The call changes nothing but the log of comparator calls. *)
Theorem lookup_is_logarithmic cmp ff tr w xs y fuel :
  Comparator cmp →
  built cmp ff tr w xs →
  (2 * Nat.log2 (length xs + 1) < fuel)%nat →
  ∃ res es,
    containsRBTree fuel (Some tr) y w = Ok res (add_log es w)
    ∧ Forall is_comp es
    ∧ (length es ≤ 2 * Nat.log2 (length xs + 1))%nat.
Proof.
  intros Hcmp Hb Hfuel.
  destruct (built_inv cmp ff Hcmp tr w xs Hb) as (t & ((Hroot & Hr & _) & _ & Hrb & _) & Hp).
  pose proof (is_redblack_height t Hrb) as Hh. rewrite Hp in Hh.
  assert (wp (containsRBTree fuel (Some tr) y) w
            (λ res w', ∃ es, Forall is_comp es ∧ (length es ≤ height t)%nat
               ∧ w' = add_log es w)) as Hwp.
  { unfold containsRBTree. wp_run.
    destruct (decide (y = NULL)) as [Hy|Hy]; [wp_run; exists []; split_and!; [done|cbn; lia|done]|].
    wp_run. destruct t as [|c l a d r]; wp_run; [exists []; split_and!; [done|cbn; lia|done]|].
    eapply (containsLoop_count cmp tr y fuel (T c l a d r) None);
      [lia|exact Hr|exact Hroot|done|].
    intros es Hes Hlen. by exists es. }
  apply wp_Ok in Hwp as (res & w' & Hrun & es & Hes & Hlen & ->).
  exists res, es. split_and!; [done..|lia].
Qed.

Lemma lookup_is_logarithmic_witness :
  ∃ res es,
    containsRBTree 5 (Some 1%positive) 20 (world_after [10; 20; 30]%Z)
    = Ok res (add_log es (world_after [10; 20; 30]%Z))
    ∧ Forall is_comp es
    ∧ (length es ≤ 2 * Nat.log2 (length [30; 20; 10]%Z + 1))%nat.
Proof.
  apply (lookup_is_logarithmic subCompare 7 1 _ _ 20 5 subCompare_ok built_10_20_30).
  vm_compute. lia.
Defined.

(** X11: an insertion into a tree built by [n] successful insertions
    completes within a recursion depth of [2 log2 (n + 1) + 1], both for the
    descent of [addNewNode] and for the repair of [modifyNode]. *)
Theorem insertion_is_logarithmic cmp ff tr w xs x fuel :
  Comparator cmp →
  built cmp ff tr w xs →
  (2 * Nat.log2 (length xs + 1) < fuel)%nat →
  ∃ res w', addToRBTree fuel (Some tr) x w = Ok res w'.
Proof.
  intros Hcmp Hb Hfuel.
  destruct (built_inv cmp ff Hcmp tr w xs Hb) as (t & Hinv & Hp).
  pose proof (is_redblack_height t (proj1 (proj2 (proj2 Hinv)))) as Hh. rewrite Hp in Hh.
  pose proof (addToRBTree_spec cmp ff Hcmp tr fuel w t _ x Hinv ltac:(lia)) as Hwp.
  apply wp_Ok in Hwp as (res & w' & Hrun & _). eauto.
Qed.

Lemma insertion_is_logarithmic_witness :
  ∃ res w', addToRBTree 5 (Some 1%positive) 25 (world_after [10; 20; 30]%Z) = Ok res w'.
Proof.
  apply (insertion_is_logarithmic subCompare 7 1 _ _ 25 5 subCompare_ok built_10_20_30).
  vm_compute. lia.
Defined.

(** ** Where the elements live *)

Lemma cells_of_lookup m t : ∀ par a d,
  heap_repr m par t → (a, d) ∈ cells_of t → ∃ nd, m !! a = Some nd ∧ data nd = d.
Proof.
  induction t as [|c l IHl a' d' r IHr]; intros par a d; cbn.
  - by intros _ ?%elem_of_nil.
  - intros (Ha & Hl & Hr) [Hin|[[= -> ->]|Hin]%elem_of_cons]%elem_of_app; eauto.
Qed.

Lemma addrs_cells_of t a : a ∈ addrs t ↔ ∃ d, (a, d) ∈ cells_of t.
Proof.
  induction t as [|c l IHl a' d' r IHr]; cbn.
  - split; [by intros ?%elem_of_nil|by intros [? ?%elem_of_nil]].
  - rewrite elem_of_app, elem_of_cons, IHl, IHr. split.
    + intros [[d Hd]|[->|[d Hd]]].
      * exists d. apply elem_of_app. by left.
      * exists d'. apply elem_of_app. right. left.
      * exists d. apply elem_of_app. right. by right.
    + intros [d [Hd|[[= -> ->]|Hd]%elem_of_cons]%elem_of_app]; eauto.
Qed.

Lemma insert_t_cells cmp x a t t' :
  insert_t cmp x a t = Some t' → cells_of t' ≡ₚ (a, x) :: cells_of t.
Proof.
  unfold insert_t. destruct (descend cmp x Top t) as [k|] eqn:Hd; [|done].
  intros [= <-]. pose proof (descend_plug _ _ _ _ _ Hd) as Hp. cbn in Hp.
  rewrite (fixup_inorder _ (S (ctx_depth k))) by lia.
  rewrite <- Hp, !inorder_plug. cbn. by rewrite Permutation_middle.
Qed.

(** X12: a successful insertion moves no element.  The nodes of the tree
    afterwards are the nodes it had and the one cell handed out by the
    allocation; every former node still holds the element it held, and
    the new cell holds the new element. *)
Theorem insertion_keeps_elements_in_place cmp ff tr w xs x fuel w' :
  Comparator cmp →
  built cmp ff tr w xs →
  addToRBTree fuel (Some tr) x w = Ok SUCCESS w' →
  ∃ rbt rbt',
    trees w !! tr = Some rbt ∧ trees w' !! tr = Some rbt'
    ∧ (∀ a, reach (nodes w') (root rbt') a ↔ a = next w ∨ reach (nodes w) (root rbt) a)
    ∧ (∀ a nd, reach (nodes w) (root rbt) a → nodes w !! a = Some nd →
         ∃ nd', nodes w' !! a = Some nd' ∧ data nd' = data nd)
    ∧ (∃ nd, nodes w' !! next w = Some nd ∧ data nd = x)
    ∧ ¬ reach (nodes w) (root rbt) (next w).
Proof.
  intros Hcmp Hb Hrun.
  destruct (built_inv cmp ff Hcmp tr w xs Hb) as (t & Hinv & _).
  pose proof (addToRBTree_complete cmp ff Hcmp tr _ _ _ _ _ _ _ Hinv Hrun) as Hpost.
  unfold addToRBTree_post in Hpost.
  destruct (cap w); [by destruct Hpost|].
  destruct (insert_t cmp x (next w) t) as [t'|] eqn:Hins; [|by destruct Hpost].
  destruct Hpost as (_ & (Hroot' & Hr' & _) & _).
  destruct Hinv as ((Hroot & Hr & _) & Ha & _ & Hal).
  pose proof (insert_t_cells _ _ _ _ _ Hins) as Hcells.
  destruct (insert_t_Some cmp Hcmp _ _ _ _ Ha Hins) as (_ & Hp & _).
  assert (next w ∉ addrs t) as Hfresh.
  { eapply heap_repr_fresh; [exact Hr|]. apply Hal. lia. }
  eexists _, _. split_and!; [exact Hroot|exact Hroot'|..]; cbn [root].
  - intros a. split.
    + intros Hreach. pose proof (reach_addrs _ _ _ Hreach None t' Hr' eq_refl) as Hin.
      rewrite Hp in Hin. apply elem_of_cons in Hin as [->|Hin]; [by left|right].
      by eapply addrs_reach.
    + intros Hor. eapply addrs_reach; [exact Hr'|]. rewrite Hp.
      destruct Hor as [->|Hreach]; [left|right].
      by eapply reach_addrs.
  - intros a nd Hreach Hnd.
    pose proof (reach_addrs _ _ _ Hreach None t Hr eq_refl) as Hin.
    apply addrs_cells_of in Hin as [d Hd].
    destruct (cells_of_lookup _ _ _ _ _ Hr Hd) as (nd0 & Hnd0 & <-).
    rewrite Hnd in Hnd0. injection Hnd0 as <-.
    eapply cells_of_lookup; [exact Hr'|]. rewrite Hcells. by right.
  - eapply cells_of_lookup; [exact Hr'|]. rewrite Hcells. left.
  - intros Hreach. apply Hfresh. by eapply reach_addrs.
Qed.

Lemma insertion_keeps_elements_in_place_witness :
  ∃ rbt rbt',
    trees (world_after [10; 20; 30]%Z) !! 1%positive = Some rbt
    ∧ trees (world_after [10; 20; 30; 40]%Z) !! 1%positive = Some rbt'
    ∧ (∀ a, reach (nodes (world_after [10; 20; 30; 40]%Z)) (root rbt') a
            ↔ a = next (world_after [10; 20; 30]%Z)
              ∨ reach (nodes (world_after [10; 20; 30]%Z)) (root rbt) a)
    ∧ (∀ a nd, reach (nodes (world_after [10; 20; 30]%Z)) (root rbt) a →
         nodes (world_after [10; 20; 30]%Z) !! a = Some nd →
         ∃ nd', nodes (world_after [10; 20; 30; 40]%Z) !! a = Some nd' ∧ data nd' = data nd)
    ∧ (∃ nd, nodes (world_after [10; 20; 30; 40]%Z) !! next (world_after [10; 20; 30]%Z)
             = Some nd ∧ data nd = 40%Z)
    ∧ ¬ reach (nodes (world_after [10; 20; 30]%Z)) (root rbt)
          (next (world_after [10; 20; 30]%Z)).
Proof.
  apply (insertion_keeps_elements_in_place subCompare 7 1 (world_after [10; 20; 30]%Z)
           [30; 20; 10]%Z 40 4 (world_after [10; 20; 30; 40]%Z) subCompare_ok built_10_20_30).
  vm_compute; reflexivity.
Defined.

(** ** The order of the insertions *)

Lemma ascending_unique cmp l1 l2 :
  Comparator cmp → ascending cmp l1 → ascending cmp l2 → l1 ≡ₚ l2 → l1 = l2.
Proof.
  intros Hcmp. apply StronglySorted_unique_strong.
  intros x y _ _ Hxy Hyx. pose proof (cmp_antisym _ Hcmp x y). unfold lt_of in *. lia.
Qed.

(** X13: the traversal does not depend on the order of the insertions:
    two trees built with the same comparator from the same elements,
    inserted in any two orders, are traversed alike, whatever the
    visitor: same result, same final visitor state, same sequence of
    visited elements. *)
Theorem traversal_ignores_insertion_order {A} cmp ff1 tr1 w1 xs1 ff2 tr2 w2 xs2
    (func : ForEachFunc A) args :
  Comparator cmp →
  built cmp ff1 tr1 w1 xs1 → built cmp ff2 tr2 w2 xs2 →
  xs1 ≡ₚ xs2 → xs1 ≠ [] →
  ∃ res vs fuel0, ∀ fuel, (fuel0 ≤ fuel)%nat →
    forEachRBTree fuel (Some tr1) (Some func) args w1 = Ok res (visited vs w1)
    ∧ forEachRBTree fuel (Some tr2) (Some func) args w2 = Ok res (visited vs w2).
Proof.
  intros Hcmp Hb1 Hb2 Hperm Hne.
  destruct (built_inv cmp ff1 Hcmp tr1 w1 xs1 Hb1) as (t1 & (Ht1 & Ha1 & _) & Hp1).
  destruct (built_inv cmp ff2 Hcmp tr2 w2 xs2 Hb2) as (t2 & (Ht2 & Ha2 & _) & Hp2).
  assert (elems t1 = elems t2) as He.
  { apply (ascending_unique cmp); [done..|]. by rewrite Hp1, Hp2. }
  assert (t1 ≠ E) as Hne1.
  { intros ->. cbn in Hp1. by apply Permutation_nil_l in Hp1. }
  assert (t2 ≠ E) as Hne2.
  { intros ->. cbn in He. rewrite He in Hp1. by apply Permutation_nil_l in Hp1. }
  exists (run_visitor func (elems t1) args).1, (run_visitor func (elems t1) args).2,
         (height t1 `max` height t2).
  intros fuel Hfuel. split.
  - apply (forEachRBTree_run func cmp ff1 w1 tr1 t1 _ fuel args Ht1 Hne1). lia.
  - rewrite He. apply (forEachRBTree_run func cmp ff2 w2 tr2 t2 _ fuel args Ht2 Hne2). lia.
Qed.

Lemma built_30_10_20 :
  built subCompare 7 1 (world_after [30; 10; 20]%Z) [20; 10; 30]%Z.
Proof.
  eapply (built_add _ _ _ (world_after [30; 10]%Z) _ 4%nat).
  eapply (built_add _ _ _ (world_after [30]%Z) _ 4%nat).
  eapply (built_add _ _ _ (world_after []) _ 4%nat).
  apply built_empty.
  all: vm_compute; reflexivity.
Defined.

Lemma traversal_ignores_insertion_order_witness :
  ∃ res vs fuel0, ∀ fuel, (fuel0 ≤ fuel)%nat →
    forEachRBTree fuel (Some 1%positive) (Some until20) [] (world_after [10; 20; 30]%Z)
    = Ok res (visited vs (world_after [10; 20; 30]%Z))
    ∧ forEachRBTree fuel (Some 1%positive) (Some until20) [] (world_after [30; 10; 20]%Z)
      = Ok res (visited vs (world_after [30; 10; 20]%Z)).
Proof.
  apply (traversal_ignores_insertion_order subCompare 7 1 _ [30; 20; 10]%Z 7 1 _
           [20; 10; 30]%Z until20 [] subCompare_ok built_10_20_30 built_30_10_20).
  - by apply (bool_decide_unpack _).
  - discriminate.
Defined.

(** ** Absent arguments *)

(** X14: [containsRBTree], [forEachRBTree] and [freeRBTree] test their
    tree argument: on a NULL tree they return at once (FAILURE for the
    first two) and leave the memory untouched, and so does
    [forEachRBTree] on a NULL visitor and [containsRBTree] on a NULL
    element, none of them calling the comparator or the visitor.  [addToRBTree] does not test its tree: on
    NULL it returns FAILURE only when the allocation of the node fails,
    and otherwise dereferences NULL. *)
Theorem absent_arguments :
  (∀ fuel y w, containsRBTree fuel None y w = Ok FAILURE w)
  ∧ (∀ fuel tree w, containsRBTree fuel tree NULL w = Ok FAILURE w)
  ∧ (∀ A fuel (func : option (ForEachFunc A)) args w,
       forEachRBTree fuel None func args w = Ok (FAILURE, args) w)
  ∧ (∀ A fuel tree (args : A) w,
       forEachRBTree fuel tree None args w = Ok (FAILURE, args) w)
  ∧ (∀ fuel w, freeRBTree fuel None w = Ok tt w)
  ∧ (∀ fuel x w,
       addToRBTree fuel None x w
       = match cap w with O => Ok FAILURE w | S _ => Fault end).
Proof.
  split_and!.
  - done.
  - intros fuel tree w. unfold containsRBTree. by repeat case_decide.
  - done.
  - intros A fuel tree args w. unfold forEachRBTree. by destruct tree.
  - done.
  - intros fuel x w. rewrite addToRBTree_unfold. unfold bind. rewrite makeNewNode_run.
    by destruct (cap w).
Qed.

(** * Properties of Structs.c *)

(** ** Rules of the weakest precondition on the client memory *)

Lemma hwp_ret {A} (a : A) h Q : Q a h → hwp (hret a) h Q.
Proof. done. Qed.

Lemma hwp_bind {A B} (m : HM A) (f : A → HM B) h Q :
  hwp m h (λ a h', hwp (f a) h' Q) → hwp (hbind m f) h Q.
Proof. unfold hwp, hbind. by destruct (m h). Qed.

Lemma hwp_mono {A} (m : HM A) h (Q Q' : A → Heap → Prop) :
  hwp m h Q → (∀ a h', Q a h' → Q' a h') → hwp m h Q'.
Proof. unfold hwp. destruct (m h); auto. Qed.

Lemma hwp_Ok {A} (m : HM A) h Q : hwp m h Q → ∃ a h', m h = HOk a h' ∧ Q a h'.
Proof. unfold hwp. destruct (m h); [eauto|done..]. Qed.

Lemma hwp_eq {A} (m : HM A) h a h' : hwp m h (λ b h1, b = a ∧ h1 = h') → m h = HOk a h'.
Proof. unfold hwp. destruct (m h); [|done..]. by intros [-> ->]. Qed.

Lemma hwp_of_run {A} (m : HM A) h a h' (Q : A → Heap → Prop) :
  m h = HOk a h' → Q a h' → hwp m h Q.
Proof. unfold hwp. by intros ->. Qed.

Lemma hwp_vload {A} (f : Vector → A) p v h Q :
  vectors h !! p = Some v → Q (f v) h → hwp (vload f p) h Q.
Proof. unfold hwp, vload. by intros ->. Qed.

Lemma hwp_vstore f p v h Q :
  vectors h !! p = Some v →
  Q tt (mkHeap (<[p := f v]> (vectors h)) (doubles h) (hnext h) (hcap h)) →
  hwp (vstore f p) h Q.
Proof. unfold hwp, vstore. by intros ->. Qed.

Lemma hwp_dload a i xs x h Q :
  doubles h !! a = Some xs → xs !! i = Some x →
  Q x h → hwp (dload (Some a) (Z.of_nat i)) h Q.
Proof.
  unfold hwp, dload. intros -> Hx. rewrite decide_True by lia.
  by rewrite Nat2Z.id, Hx.
Qed.

Lemma hwp_dstore a i xs x h Q :
  doubles h !! a = Some xs → (i < length xs)%nat →
  Q tt (mkHeap (vectors h) (<[a := <[i := x]> xs]> (doubles h)) (hnext h) (hcap h)) →
  hwp (dstore (Some a) (Z.of_nat i) x) h Q.
Proof.
  unfold hwp, dstore. intros -> Hi. rewrite decide_True by lia. by rewrite Nat2Z.id.
Qed.

Ltac hwp_simpl :=
  cbn [vectors doubles hnext hcap len vector with_len with_vector fst snd].

Ltac hsolve_lookup :=
  hwp_simpl;
  repeat first [ rewrite lookup_insert_eq | rewrite lookup_insert_ne by neq ];
  first [ reflexivity | eassumption ].

Ltac hwp_if :=
  lazymatch goal with
  | |- hwp (if decide ?P then _ else _) _ _ =>
    first [ rewrite (decide_True (P:=P)) by (first [lia|psolve])
          | rewrite (decide_False (P:=P)) by (first [lia|psolve]) ]
  end.

Ltac hwp_step :=
  lazymatch goal with
  | |- hwp (hbind _ _) _ _ => apply hwp_bind
  | |- hwp (hret _) _ _ => apply hwp_ret
  | |- hwp (vload _ _) _ _ => eapply hwp_vload; [hsolve_lookup|]
  | |- hwp (vstore _ _) _ _ => eapply hwp_vstore; [hsolve_lookup|]
  | |- hwp (if decide _ then _ else _) _ _ => hwp_if
  end; hwp_simpl.

Ltac hwp_run := repeat hwp_step.

(** ** The comparison of two vectors *)

Lemma lookup_app_prefix {A} (xs rest : list A) i x :
  xs !! i = Some x → (xs ++ rest) !! i = Some x.
Proof. intros H. by apply lookup_app_l_Some. Qed.

Lemma vectorCompareLoop_spec fuel : ∀ h a b pa pb (xs ys px py : list double) ra rb Q,
  vectors h !! a = Some (mkVector (Z.of_nat (length (px ++ xs))) (Some pa)) →
  doubles h !! pa = Some ((px ++ xs) ++ ra) →
  vectors h !! b = Some (mkVector (Z.of_nat (length (py ++ ys))) (Some pb)) →
  doubles h !! pb = Some ((py ++ ys) ++ rb) →
  length px = length py →
  (length xs `min` length ys < fuel)%nat →
  Q (lex_loop xs ys) h →
  hwp (vectorCompareLoop fuel a b (Z.of_nat (length px))) h Q.
Proof.
  induction fuel as [|fuel IH]; intros h a b pa pb xs ys px py ra rb Q Ha Hpa Hb Hpb Hlen Hfuel HQ;
    [lia|].
  cbn [vectorCompareLoop]. hwp_run.
  rewrite !length_app in *.
  destruct ys as [|y ys].
  { rewrite decide_False by (cbn [length]; lia). hwp_run.
    by destruct xs. }
  rewrite decide_True by (cbn [length]; lia). hwp_run.
  destruct xs as [|x xs].
  { rewrite bool_decide_eq_false_2 by (cbn [length]; lia). by hwp_run. }
  rewrite bool_decide_eq_true_2 by (cbn [length]; lia). hwp_run.
  eapply hwp_dload; [exact Hpa| |].
  { apply lookup_app_prefix. by rewrite lookup_app_r, Nat.sub_diag by lia. }
  hwp_run.
  eapply hwp_dload; [exact Hpb| |].
  { apply lookup_app_prefix. rewrite Hlen. by rewrite lookup_app_r, Nat.sub_diag by lia. }
  cbn [lex_loop] in HQ.
  destruct (PrimFloat.ltb x y); [by hwp_run|].
  destruct (PrimFloat.ltb y x); [by hwp_run|].
  replace (Z.of_nat (length px) + 1)%Z with (Z.of_nat (length (px ++ [x]))) 
    by (rewrite length_app; cbn; lia).
  eapply (IH h a b pa pb xs ys (px ++ [x]) (py ++ [y]) ra rb).
  - rewrite Ha. do 3 f_equal. rewrite !length_app. cbn. lia.
  - rewrite Hpa. by rewrite <- !app_assoc.
  - rewrite Hb. do 3 f_equal. rewrite !length_app. cbn. lia.
  - rewrite Hpb. by rewrite <- !app_assoc.
  - rewrite !length_app. cbn. lia.
  - cbn [length] in Hfuel. lia.
  - done.
Qed.

(** ** The order of the doubles *)

Lemma SFcompare_key x y :
  x ≠ SpecFloat.S754_nan → y ≠ SpecFloat.S754_nan →
  ∃ c, SpecFloat.SFcompare x y = Some c ∧
    match c with
    | Lt => key_lt (sf_key x) (sf_key y)
    | Eq => sf_key x = sf_key y
    | Gt => key_lt (sf_key y) (sf_key x)
    end.
Proof.
  intros Hx Hy. unfold key_lt.
  destruct x as [sx|sx| |sx mx ex], y as [sy|sy| |sy my ey]; try done;
    cbn [SpecFloat.SFcompare sf_key];
    try (destruct sx); try (destruct sy); (eexists; split; [reflexivity|]); cbn; try lia;
    try done.
  - destruct (Z.compare_spec ex ey) as [->|?|?]; [|lia..].
    rewrite Pos.compare_cont_spec. cbn.
    destruct (Pos.compare_spec mx my) as [->|?|?]; cbn; [done|lia..].
  - destruct (Z.compare_spec ex ey) as [->|?|?]; [|lia..].
    rewrite Pos.compare_cont_spec. cbn.
    destruct (Pos.compare_spec mx my) as [->|?|?]; cbn; [done|lia..].
Qed.

Lemma sf_nan_dec (f : SpecFloat.spec_float) :
  f = SpecFloat.S754_nan ∨ f ≠ SpecFloat.S754_nan.
Proof. destruct f; auto. Qed.

Lemma is_number_spec x : is_number x ↔ FloatOps.Prim2SF x ≠ SpecFloat.S754_nan.
Proof.
  unfold is_number. rewrite FloatAxioms.eqb_spec. unfold SpecFloat.SFeqb. split.
  - intros H Hn. rewrite Hn in H. done.
  - intros Hn. destruct (SFcompare_key _ _ Hn Hn) as (c & -> & Hc).
    destruct c; [done|..]; unfold key_lt in Hc; lia.
Qed.

(** [x < y] on doubles: both are numbers, and [x] comes first. *)
Lemma ltb_key x y :
  PrimFloat.ltb x y = true ↔ is_number x ∧ is_number y ∧ key_lt (fkey x) (fkey y).
Proof.
  rewrite FloatAxioms.ltb_spec, !is_number_spec. unfold SpecFloat.SFltb, fkey.
  destruct (sf_nan_dec (FloatOps.Prim2SF x)) as [Hx|Hx].
  { rewrite Hx. cbn. split; [done|]. by intros [? _]. }
  destruct (sf_nan_dec (FloatOps.Prim2SF y)) as [Hy|Hy].
  { rewrite Hy. destruct (FloatOps.Prim2SF x); cbn; (split; [done|]); by intros (_ & ? & _). }
  destruct (SFcompare_key _ _ Hx Hy) as (c & -> & Hc). unfold key_lt in *.
  destruct c; (split; [try done|intros (_ & _ & ?)]); try done; try lia.
  rewrite Hc in *. lia.
Qed.

Lemma ltb_irrefl x : PrimFloat.ltb x x = false.
Proof.
  destruct (PrimFloat.ltb x x) eqn:H; [|done].
  apply ltb_key in H as (_ & _ & H). unfold key_lt in H. lia.
Qed.

Lemma ltb_trans x y z :
  PrimFloat.ltb x y = true → PrimFloat.ltb y z = true → PrimFloat.ltb x z = true.
Proof.
  rewrite !ltb_key. unfold key_lt. intros (? & ? & ?) (? & ? & ?). split_and!; [done..|lia].
Qed.

Lemma ltb_asym x y : PrimFloat.ltb x y = true → PrimFloat.ltb y x = false.
Proof.
  intros H. destruct (PrimFloat.ltb y x) eqn:H'; [|done].
  pose proof (ltb_trans _ _ _ H H') as Hxx. by rewrite ltb_irrefl in Hxx.
Qed.

(** Two numbers neither of which is below the other have the same place. *)
Lemma ltb_neither x y :
  is_number x → is_number y →
  PrimFloat.ltb x y = false → PrimFloat.ltb y x = false → fkey x = fkey y.
Proof.
  intros Hx Hy Hxy Hyx.
  pose proof (proj1 (is_number_spec x) Hx) as Hx'.
  pose proof (proj1 (is_number_spec y) Hy) as Hy'.
  destruct (SFcompare_key _ _ Hx' Hy') as (c & Hc & Hk).
  destruct c; [done|..].
  - assert (PrimFloat.ltb x y = true) as H by (apply ltb_key; done). congruence.
  - assert (PrimFloat.ltb y x = true) as H by (apply ltb_key; done). congruence.
Qed.

(** ** The order of the vectors *)

Lemma lex_nil_nil : lex [] [] = EQUAL.
Proof. done. Qed.

Lemma lex_nil_cons y ys : lex [] (y :: ys) = LESS.
Proof. unfold lex. cbn. by rewrite decide_True by lia. Qed.

Lemma lex_cons_nil x xs : lex (x :: xs) [] = GREATER.
Proof. unfold lex. cbn. rewrite decide_False by lia. by rewrite decide_True by lia. Qed.

Lemma lex_cons_cons x xs y ys :
  lex (x :: xs) (y :: ys)
  = if PrimFloat.ltb x y then LESS
    else if PrimFloat.ltb y x then GREATER
    else lex xs ys.
Proof.
  unfold lex. cbn [lex_loop].
  destruct (PrimFloat.ltb x y); [done|]. destruct (PrimFloat.ltb y x); [done|].
  destruct (lex_loop xs ys); [done|]. cbn [length].
  repeat case_decide; try done; lia.
Qed.

Lemma lex_range xs : ∀ ys, lex xs ys = LESS ∨ lex xs ys = EQUAL ∨ lex xs ys = GREATER.
Proof.
  induction xs as [|x xs IH]; intros [|y ys].
  - auto.
  - rewrite lex_nil_cons. auto.
  - rewrite lex_cons_nil. auto.
  - rewrite lex_cons_cons. destruct (PrimFloat.ltb x y); [auto|].
    destruct (PrimFloat.ltb y x); auto.
Qed.

(** Swapping the arguments swaps LESS and GREATER, whatever the doubles. *)
Lemma lex_antisym xs : ∀ ys, lex ys xs = (- lex xs ys)%Z.
Proof.
  induction xs as [|x xs IH]; intros [|y ys].
  - done.
  - by rewrite lex_nil_cons, lex_cons_nil.
  - by rewrite lex_nil_cons, lex_cons_nil.
  - rewrite !lex_cons_cons.
    destruct (PrimFloat.ltb x y) eqn:Hxy.
    { by rewrite (ltb_asym _ _ Hxy). }
    destruct (PrimFloat.ltb y x) eqn:Hyx; [done|]. apply IH.
Qed.

(** Turn the comparisons of numbers among the hypotheses into facts on
    their places. *)
Ltac key_facts :=
  repeat match goal with
  | H : PrimFloat.ltb ?a ?b = true |- _ => apply ltb_key in H as (_ & _ & H)
  | H1 : PrimFloat.ltb ?a ?b = false, H2 : PrimFloat.ltb ?b ?a = false,
    Ha : is_number ?a, Hb : is_number ?b |- _ =>
    pose proof (ltb_neither a b Ha Hb H1 H2); clear H1 H2
  end.

Ltac split_ltb :=
  repeat match goal with
  | |- context [PrimFloat.ltb ?a ?b] => destruct (PrimFloat.ltb a b) eqn:?
  end.

Lemma lex_trans xs : ∀ ys zs,
  Forall is_number xs → Forall is_number ys → Forall is_number zs →
  (lex xs ys < 0)%Z → (lex ys zs < 0)%Z → (lex xs zs < 0)%Z.
Proof.
  induction xs as [|x xs IH]; intros [|y ys] [|z zs] Hx Hy Hz;
    rewrite ?lex_nil_nil, ?lex_nil_cons, ?lex_cons_nil, ?lex_cons_cons; try done.
  apply Forall_cons in Hx as [Hx Hxs]. apply Forall_cons in Hy as [Hy Hys].
  apply Forall_cons in Hz as [Hz Hzs].
  split_ltb; try done; try (by apply IH); intros _ _; exfalso; key_facts;
    unfold key_lt in *;
    repeat match goal with H : fkey _ = fkey _ |- _ => rewrite H in * end; lia.
Qed.

Lemma lex_equiv xs : ∀ ys zs,
  Forall is_number xs → Forall is_number ys → Forall is_number zs →
  lex xs ys = 0%Z → (lex xs zs < 0)%Z → (lex ys zs < 0)%Z.
Proof.
  induction xs as [|x xs IH]; intros [|y ys] [|z zs] Hx Hy Hz;
    rewrite ?lex_nil_nil, ?lex_nil_cons, ?lex_cons_nil, ?lex_cons_cons; try done.
  apply Forall_cons in Hx as [Hx Hxs]. apply Forall_cons in Hy as [Hy Hys].
  apply Forall_cons in Hz as [Hz Hzs].
  split_ltb; try done; try (by apply IH); intros _ _; exfalso; key_facts;
    unfold key_lt in *;
    repeat match goal with H : fkey _ = fkey _ |- _ => rewrite H in * end; lia.
Qed.

Lemma lex_equiv_r xs : ∀ ys zs,
  Forall is_number xs → Forall is_number ys → Forall is_number zs →
  lex xs ys = 0%Z → (lex zs xs < 0)%Z → (lex zs ys < 0)%Z.
Proof.
  induction xs as [|x xs IH]; intros [|y ys] [|z zs] Hx Hy Hz;
    rewrite ?lex_nil_nil, ?lex_nil_cons, ?lex_cons_nil, ?lex_cons_cons; try done.
  apply Forall_cons in Hx as [Hx Hxs]. apply Forall_cons in Hy as [Hy Hys].
  apply Forall_cons in Hz as [Hz Hzs].
  split_ltb; try done; try (by apply IH); intros _ _; exfalso; key_facts;
    unfold key_lt in *;
    repeat match goal with H : fkey _ = fkey _ |- _ => rewrite H in * end; lia.
Qed.

(** Vectors compare equal exactly when they have the same length and no
    entry is below its counterpart. *)
Lemma lex_zero xs : ∀ ys,
  lex xs ys = 0%Z ↔
  Forall2 (λ x y, PrimFloat.ltb x y = false ∧ PrimFloat.ltb y x = false) xs ys.
Proof.
  induction xs as [|x xs IH]; intros [|y ys];
    rewrite ?lex_nil_nil, ?lex_nil_cons, ?lex_cons_nil, ?lex_cons_cons.
  - split; [constructor|done].
  - split; [done|]. intros H. inversion H.
  - split; [done|]. intros H. inversion H.
  - rewrite Forall2_cons. destruct (PrimFloat.ltb x y); [split; [done|by intros [[? ?] _]]|].
    destruct (PrimFloat.ltb y x); [split; [done|by intros [[? ?] _]]|].
    rewrite IH. tauto.
Qed.

Lemma vectorCompare1By1_run fuel h a b xs ys :
  vec_at h a xs → vec_at h b ys →
  (length xs `min` length ys < fuel)%nat →
  vectorCompare1By1 fuel a b h = HOk (lex xs ys) h.
Proof.
  intros (Hna & pa & ra & Ha & Hpa) (Hnb & pb & rb & Hb & Hpb) Hfuel.
  apply hwp_eq. unfold vectorCompare1By1.
  rewrite decide_False by tauto. hwp_run.
  rewrite bool_decide_eq_false_2 by done. hwp_run.
  eapply (vectorCompareLoop_spec fuel h a b pa pb xs ys [] [] ra rb); try done.
  unfold lex. destruct (lex_loop xs ys) as [r|]; hwp_run; [done|].
  destruct (decide (length xs < length ys)%nat).
  { rewrite decide_True by lia. by hwp_run. }
  rewrite decide_False by lia. hwp_run.
  destruct (decide (length ys < length xs)%nat).
  { rewrite decide_True by lia. by hwp_run. }
  rewrite decide_False by lia. by hwp_run.
Qed.

Lemma vec_at_heap0_10 : vec_at heap0 10 [d1; d1].
Proof. split; [done|]. exists 1%positive, []. split; vm_compute; reflexivity. Defined.

Lemma vec_at_heap0_20 : vec_at heap0 20 [d3].
Proof. split; [done|]. exists 2%positive, []. split; vm_compute; reflexivity. Defined.

Lemma vec_at_heap0_30 : vec_at heap0 30 [d2].
Proof. split; [done|]. exists 3%positive, []. split; vm_compute; reflexivity. Defined.

(** X15: on two vectors [vectorCompare1By1] compares entry by entry up to
    the shorter length, returning LESS or GREATER at the first index
    where one entry is below the other, and decides by the lengths when
    there is none (the shorter vector is the smaller).  It returns only
    -1, 0 or 1, reads without writing, and swapping the arguments negates
    the result, whatever the doubles.  It returns 0 exactly when the
    lengths agree and at no index one entry is below the other.  When one
    of the two pointers is NULL it returns 0, the value that stands for
    equal, without reading anything. *)
Theorem vectorCompare1By1_is_lexicographic fuel h a b xs ys :
  vec_at h a xs → vec_at h b ys →
  (length xs `min` length ys < fuel)%nat →
  vectorCompare1By1 fuel a b h = HOk (lex xs ys) h
  ∧ vectorCompare1By1 fuel b a h = HOk (- lex xs ys)%Z h
  ∧ (lex xs ys = LESS ∨ lex xs ys = EQUAL ∨ lex xs ys = GREATER)
  ∧ (lex xs ys = EQUAL ↔
     Forall2 (λ x y, PrimFloat.ltb x y = false ∧ PrimFloat.ltb y x = false) xs ys)
  ∧ (∀ pre x y xs' ys',
       xs = pre ++ x :: xs' → ys = pre ++ y :: ys' →
       (PrimFloat.ltb x y = true → lex xs ys = LESS)
       ∧ (PrimFloat.ltb y x = true → lex xs ys = GREATER))
  ∧ (∀ zs, ys = xs ++ zs → zs ≠ [] → Forall is_number xs → lex xs ys = LESS)
  ∧ vectorCompare1By1 fuel NULL b h = HOk FAILURE h
  ∧ vectorCompare1By1 fuel a NULL h = HOk FAILURE h.
Proof.
  intros Ha Hb Hfuel. split_and!.
  - by apply vectorCompare1By1_run.
  - rewrite <- lex_antisym. apply vectorCompare1By1_run; [done..|lia].
  - apply lex_range.
  - apply lex_zero.
  - intros pre x y xs' ys' -> ->. clear.
    induction pre as [|p pre IH]; cbn [app]; rewrite lex_cons_cons.
    + split.
      * by intros ->.
      * intros Hyx. by rewrite (ltb_asym _ _ Hyx), Hyx.
    + by rewrite ltb_irrefl.
  - intros zs -> Hzs Hnum. clear -Hzs Hnum.
    induction xs as [|x xs IH]; cbn [app].
    + destruct zs; [done|]. apply lex_nil_cons.
    + apply Forall_cons in Hnum as [_ Hnum]. rewrite lex_cons_cons, ltb_irrefl. by apply IH.
  - unfold vectorCompare1By1. rewrite decide_True; [done|by left].
  - unfold vectorCompare1By1. rewrite decide_True; [done|by right].
Qed.

Lemma vectorCompare1By1_is_lexicographic_witness :
  vectorCompare1By1 2 10 20 heap0 = HOk (lex [d1; d1] [d3]) heap0
  ∧ vectorCompare1By1 2 20 10 heap0 = HOk (- lex [d1; d1] [d3])%Z heap0
  ∧ (lex [d1; d1] [d3] = LESS ∨ lex [d1; d1] [d3] = EQUAL ∨ lex [d1; d1] [d3] = GREATER)
  ∧ (lex [d1; d1] [d3] = EQUAL ↔
     Forall2 (λ x y, PrimFloat.ltb x y = false ∧ PrimFloat.ltb y x = false) [d1; d1] [d3])
  ∧ (∀ pre x y xs' ys',
       [d1; d1] = pre ++ x :: xs' → [d3] = pre ++ y :: ys' →
       (PrimFloat.ltb x y = true → lex [d1; d1] [d3] = LESS)
       ∧ (PrimFloat.ltb y x = true → lex [d1; d1] [d3] = GREATER))
  ∧ (∀ zs, [d3] = [d1; d1] ++ zs → zs ≠ [] → Forall is_number [d1; d1] →
       lex [d1; d1] [d3] = LESS)
  ∧ vectorCompare1By1 2 NULL 20 heap0 = HOk FAILURE heap0
  ∧ vectorCompare1By1 2 10 NULL heap0 = HOk FAILURE heap0.
Proof.
  apply (vectorCompare1By1_is_lexicographic 2 heap0 10 20 [d1; d1] [d3]
           vec_at_heap0_10 vec_at_heap0_20).
  cbn. lia.
Defined.

(** X16: on vectors whose entries are all numbers, [vectorCompare1By1]
    is a consistent comparator: below is transitive, and two vectors that
    compare equal stand in the same relation to every third one.  With an
    entry that is not a number this fails: [1] and [2] both compare equal
    to the vector holding such an entry, and not to each other. *)
Theorem vectorCompare1By1_orders_numbers fuel h a b c xs ys zs :
  vec_at h a xs → vec_at h b ys → vec_at h c zs →
  Forall is_number xs → Forall is_number ys → Forall is_number zs →
  ((length xs `max` length ys) `max` length zs < fuel)%nat →
  ∃ rab rbc rac,
    vectorCompare1By1 fuel a b h = HOk rab h
    ∧ vectorCompare1By1 fuel b c h = HOk rbc h
    ∧ vectorCompare1By1 fuel a c h = HOk rac h
    ∧ ((rab < 0)%Z → (rbc < 0)%Z → (rac < 0)%Z)
    ∧ (rab = 0%Z → ((rac < 0)%Z ↔ (rbc < 0)%Z) ∧ (rac = 0%Z ↔ rbc = 0%Z))
    ∧ lex [d1] [dnan] = 0%Z ∧ lex [dnan] [d2] = 0%Z ∧ lex [d1] [d2] = LESS.
Proof.
  intros Ha Hb Hc Hx Hy Hz Hfuel.
  exists (lex xs ys), (lex ys zs), (lex xs zs). split_and!.
  - apply vectorCompare1By1_run; [done..|lia].
  - apply vectorCompare1By1_run; [done..|lia].
  - apply vectorCompare1By1_run; [done..|lia].
  - by apply lex_trans.
  - intros H0.
    assert (lex ys xs = 0%Z) as H0' by (rewrite lex_antisym; lia).
    assert ((lex xs zs < 0)%Z ↔ (lex ys zs < 0)%Z) as Hlt.
    { split; by apply lex_equiv. }
    assert ((lex zs xs < 0)%Z ↔ (lex zs ys < 0)%Z) as Hgt.
    { split; by apply lex_equiv_r. }
    split; [done|].
    rewrite (lex_antisym xs zs), (lex_antisym ys zs) in Hgt.
    destruct (lex_range xs zs) as [?|[?|?]], (lex_range ys zs) as [?|[?|?]];
      unfold LESS, EQUAL, GREATER in *; lia.
  - vm_compute; reflexivity.
  - vm_compute; reflexivity.
  - vm_compute; reflexivity.
Qed.

Lemma vectorCompare1By1_orders_numbers_witness :
  ∃ rab rbc rac,
    vectorCompare1By1 3 10 30 heap0 = HOk rab heap0
    ∧ vectorCompare1By1 3 30 20 heap0 = HOk rbc heap0
    ∧ vectorCompare1By1 3 10 20 heap0 = HOk rac heap0
    ∧ ((rab < 0)%Z → (rbc < 0)%Z → (rac < 0)%Z)
    ∧ (rab = 0%Z → ((rac < 0)%Z ↔ (rbc < 0)%Z) ∧ (rac = 0%Z ↔ rbc = 0%Z))
    ∧ lex [d1] [dnan] = 0%Z ∧ lex [dnan] [d2] = 0%Z ∧ lex [d1] [d2] = LESS.
Proof.
  apply (vectorCompare1By1_orders_numbers 3 heap0 10 30 20 [d1; d1] [d2] [d3]
           vec_at_heap0_10 vec_at_heap0_30 vec_at_heap0_20).
  - repeat constructor; vm_compute; reflexivity.
  - repeat constructor; vm_compute; reflexivity.
  - repeat constructor; vm_compute; reflexivity.
  - cbn. lia.
Defined.

(** ** The norm and the copy *)

Lemma calculateNormLoop_spec fuel : ∀ h p a (px xs rest : list double) norm Q,
  vectors h !! p = Some (mkVector (Z.of_nat (length (px ++ xs))) (Some a)) →
  doubles h !! a = Some ((px ++ xs) ++ rest) →
  (length xs < fuel)%nat →
  Q (norm2_from norm xs) h →
  hwp (calculateNormLoop fuel p (Z.of_nat (length px)) norm) h Q.
Proof.
  induction fuel as [|fuel IH]; intros h p a px xs rest norm Q Hp Ha Hfuel HQ; [lia|].
  cbn [calculateNormLoop]. hwp_run. rewrite length_app.
  destruct xs as [|x xs].
  { rewrite decide_False by (cbn [length]; lia). by hwp_run. }
  rewrite decide_True by (cbn [length]; lia). hwp_run.
  assert (((px ++ x :: xs) ++ rest) !! length px = Some x) as Hx.
  { apply lookup_app_prefix. by rewrite lookup_app_r, Nat.sub_diag by lia. }
  eapply hwp_dload; [exact Ha|exact Hx|]. hwp_run.
  eapply hwp_dload; [exact Ha|exact Hx|].
  replace (Z.of_nat (length px) + 1)%Z with (Z.of_nat (length (px ++ [x])))
    by (rewrite length_app; cbn; lia).
  eapply (IH h p a (px ++ [x]) xs rest).
  - rewrite Hp. do 3 f_equal. rewrite !length_app. cbn. lia.
  - rewrite Ha. by rewrite <- !app_assoc.
  - cbn [length] in Hfuel. lia.
  - exact HQ.
Qed.

Lemma calculateNorm_run fuel h p xs :
  vec_at h p xs → (length xs < fuel)%nat →
  calculateNorm fuel p h = HOk (norm2 xs) h.
Proof.
  intros (_ & a & rest & Hp & Ha) Hfuel. apply hwp_eq. unfold calculateNorm.
  by eapply (calculateNormLoop_spec fuel h p a [] xs rest).
Qed.

Lemma copyLargerLoop_spec fuel : ∀ h cur mx ac am lm (px xs rc marr : list double) Q,
  vectors h !! cur = Some (mkVector (Z.of_nat (length (px ++ xs))) (Some ac)) →
  doubles h !! ac = Some ((px ++ xs) ++ rc) →
  vectors h !! mx = Some (mkVector lm (Some am)) →
  doubles h !! am = Some marr →
  ac ≠ am →
  (length (px ++ xs) ≤ length marr)%nat →
  (length xs < fuel)%nat →
  Q tt (mkHeap (vectors h)
               (<[am := take (length px) marr ++ xs ++ drop (length (px ++ xs)) marr]>
                  (doubles h))
               (hnext h) (hcap h)) →
  hwp (copyLargerLoop fuel cur mx (Z.of_nat (length px))) h Q.
Proof.
  induction fuel as [|fuel IH]; intros h cur mx ac am lm px xs rc marr Q
    Hcur Hac Hmx Ham Hne Hlen Hfuel HQ; [lia|].
  cbn [copyLargerLoop]. hwp_run. rewrite length_app in *.
  destruct xs as [|x xs].
  { rewrite decide_False by (cbn [length]; lia). hwp_run.
    revert HQ. cbn [length app]. rewrite Nat.add_0_r, take_drop, insert_id by done.
    by destruct h. }
  rewrite decide_True by (cbn [length]; lia). hwp_run.
  assert (((px ++ x :: xs) ++ rc) !! length px = Some x) as Hx.
  { apply lookup_app_prefix. by rewrite lookup_app_r, Nat.sub_diag by lia. }
  eapply hwp_dload; [exact Hac|exact Hx|]. hwp_run.
  cbn [length] in Hlen, Hfuel.
  eapply hwp_dstore; [exact Ham|lia|].
  replace (Z.of_nat (length px) + 1)%Z with (Z.of_nat (length (px ++ [x])))
    by (rewrite length_app; cbn; lia).
  eapply (IH _ cur mx ac am lm (px ++ [x]) xs rc (<[length px := x]> marr)); hwp_simpl.
  - rewrite Hcur. do 3 f_equal. rewrite !length_app. cbn. lia.
  - rewrite lookup_insert_ne by done. rewrite Hac. by rewrite <- !app_assoc.
  - exact Hmx.
  - by rewrite lookup_insert_eq.
  - done.
  - rewrite length_insert, !length_app. cbn. lia.
  - lia.
  - revert HQ. rewrite insert_insert_eq.
    replace (take (length (px ++ [x])) (<[length px:=x]> marr) ++ xs
             ++ drop (length ((px ++ [x]) ++ xs)) (<[length px:=x]> marr))
      with (take (length px) marr ++ (x :: xs) ++ drop (length px + S (length xs)) marr);
      [done|].
    rewrite !length_app. cbn [length].
    replace (length px + 1)%nat with (S (length px)) by lia.
    rewrite (take_S_r _ _ x) by (apply list_lookup_insert_eq; lia).
    rewrite take_insert_ge by lia.
    rewrite drop_insert_lt by lia.
    rewrite <- !app_assoc. cbn. by rewrite Nat.add_succ_r.
Qed.

Lemma hwp_malloc_doubles n h c Q :
  hcap h = S c → (0 ≤ n)%Z →
  Q (Some (hnext h))
    (mkHeap (vectors h) (<[hnext h := replicate (Z.to_nat n) PrimFloat.zero]> (doubles h))
            (Pos.succ (hnext h)) c) →
  hwp (malloc_doubles n) h Q.
Proof. unfold hwp, malloc_doubles. intros -> Hn. by rewrite decide_False by lia. Qed.

Lemma hwp_realloc_doubles a n xs h c Q :
  doubles h !! a = Some xs → hcap h = S c → (0 < n)%Z →
  Q (Some (hnext h))
    (mkHeap (vectors h)
            (<[hnext h := take (Z.to_nat n) (xs ++ replicate (Z.to_nat n) PrimFloat.zero)]>
               (delete a (doubles h)))
            (Pos.succ (hnext h)) (hcap h)) →
  hwp (realloc_doubles (Some a) n) h Q.
Proof.
  unfold hwp, realloc_doubles. intros -> Hc Hn. rewrite Hc.
  rewrite decide_False by lia. rewrite decide_False by lia. by rewrite <- Hc.
Qed.

Lemma copyLarger_spec fuel h cur mx ac am lm (xs rc marr : list double) Q :
  cur ≠ mx →
  vectors h !! cur = Some (mkVector (Z.of_nat (length xs)) (Some ac)) →
  doubles h !! ac = Some (xs ++ rc) →
  vectors h !! mx = Some (mkVector lm (Some am)) →
  doubles h !! am = Some marr →
  ac ≠ am →
  (length xs ≤ length marr)%nat →
  (length xs < fuel)%nat →
  Q SUCCESS (mkHeap (<[mx := mkVector (Z.of_nat (length xs)) (Some am)]> (vectors h))
                    (<[am := xs ++ drop (length xs) marr]> (doubles h))
                    (hnext h) (hcap h)) →
  hwp (copyLarger fuel cur mx) h Q.
Proof.
  intros Hne Hcur Hac Hmx Ham Hneq Hlen Hfuel HQ.
  unfold copyLarger. hwp_run.
  eapply (copyLargerLoop_spec fuel _ cur mx ac am _ [] xs rc marr); hwp_simpl;
    [by rewrite lookup_insert_ne by done|done|by rewrite lookup_insert_eq|done|done|done|done|].
  hwp_run. exact HQ.
Qed.

Section keep.
Context (h0 : Heap) (mx : Z).

Lemma scratch_vec_at h best p xs :
  halloc_ok h0 → scratch h0 h mx best → vec_at h0 p xs →
  p ≠ mx ∧ vec_at h p xs.
Proof.
  intros Hal (Hmx & Hfresh & Hnext & Hbest) (Hp & a & rest & Hv & Ha).
  assert (p ≠ mx) as Hne by (intros ->; congruence).
  split; [done|]. split; [done|]. exists a, rest.
  destruct best as [ys|].
  - destruct Hbest as (am & Ham & -> & -> & _). split.
    + by rewrite lookup_insert_ne.
    + rewrite lookup_insert_ne; [done|]. intros <-.
      destruct (Hal am ltac:(lia)). congruence.
  - destruct Hbest as (-> & -> & _). split; [|done]. by rewrite lookup_insert_ne.
Qed.

Lemma scratch_best h ys : scratch h0 h mx (Some ys) → vec_at h mx ys.
Proof.
  intros (Hmx & _ & _ & am & _ & Hv & Hd & _). split; [done|]. exists am, [].
  rewrite Hv, Hd, !lookup_insert_eq, app_nil_r. done.
Qed.

Lemma copyIfNormIsLarger_step fuel h best p xs :
  halloc_ok h0 → halloc_ok h → scratch h0 h mx best → vec_at h0 p xs →
  (0 < length xs)%nat → (3 ≤ hcap h0)%nat →
  (length xs < fuel)%nat → (∀ ys, best = Some ys → (length ys < fuel)%nat) →
  ∃ h', copyIfNormIsLarger fuel p mx h = HOk SUCCESS h'
        ∧ scratch h0 h' mx (keep_larger best xs) ∧ halloc_ok h'.
Proof.
  intros Hal0 Hal Hs Hp Hlen Hcap Hfuel Hfuelb.
  destruct (scratch_vec_at h best p xs Hal0 Hs Hp) as (Hne & Hp').
  pose proof Hp as (Hpn & ac & rc & Hcur0 & Hac0).
  pose proof Hs as (Hmx & Hfresh & Hnext & Hbest).
  assert (ac < hnext h0)%positive as Hlt.
  { destruct (decide (ac < hnext h0)%positive) as [|Hge]; [done|].
    destruct (Hal0 ac ltac:(lia)). congruence. }
  assert (hwp (copyIfNormIsLarger fuel p mx) h
            (λ r h', r = SUCCESS ∧ scratch h0 h' mx (keep_larger best xs) ∧ halloc_ok h'))
    as Hwp; [|apply hwp_Ok in Hwp as (r & h' & Hrun & -> & ? & ?); eauto].
  unfold copyIfNormIsLarger. rewrite decide_False by tauto.
  destruct best as [ys|]; cbn [keep_larger].
  - (* a vector is kept already *)
    destruct Hbest as (am & Ham & Hv & Hd & Hc).
    assert (doubles h0 !! am = None) as Hamf by (apply Hal0; lia).
    assert (vectors h !! p = Some (mkVector (Z.of_nat (length xs)) (Some ac))) as Hcur
      by (by rewrite Hv, lookup_insert_ne).
    assert (doubles h !! ac = Some (xs ++ rc)) as Hac
      by (rewrite Hd, lookup_insert_ne by lia; done).
    hwp_run. eapply hwp_vload; [rewrite Hv; apply lookup_insert_eq|]. hwp_simpl.
    rewrite decide_False by done. hwp_run.
    eapply hwp_of_run; [by apply calculateNorm_run|]. hwp_run.
    eapply hwp_of_run; [apply calculateNorm_run; [by apply scratch_best|by apply Hfuelb]|].
    destruct (PrimFloat.ltb (norm2 ys) (norm2 xs)); [|by hwp_run].
    hwp_run. eapply hwp_vload; [rewrite Hv; apply lookup_insert_eq|]. hwp_run.
    destruct (hcap h) as [|c] eqn:Hch; [lia|].
    eapply hwp_realloc_doubles; [rewrite Hd; apply lookup_insert_eq|exact Hch|lia|].
    hwp_simpl. rewrite Nat2Z.id.
    eapply hwp_bind, hwp_vstore; [rewrite Hv; apply lookup_insert_eq|]. hwp_simpl.
    hwp_run.
    eapply (copyLarger_spec fuel _ p mx ac (hnext h) _ xs rc); hwp_simpl.
    + done.
    + by rewrite lookup_insert_ne by done.
    + rewrite lookup_insert_ne by lia. by rewrite lookup_delete_ne by lia.
    + by rewrite lookup_insert_eq.
    + by rewrite lookup_insert_eq.
    + lia.
    + rewrite length_take, length_app, length_replicate. lia.
    + done.
    + split; [done|]. split.
      * split_and!; [done|done|cbn; lia|]. exists (hnext h). cbn. split; [lia|split; [|split]].
        -- by rewrite !insert_insert_eq, Hv, insert_insert_eq.
        -- rewrite insert_insert_eq, Hd. rewrite delete_insert_eq, delete_id by done.
           f_equal. rewrite drop_ge; [by rewrite app_nil_r|].
           rewrite length_take, length_app, length_replicate. lia.
        -- lia.
      * intros x Hx. cbn in *. destruct (Hal x ltac:(lia)) as [Hvx Hdx]. split.
        -- rewrite !lookup_insert_ne; [done|..]; intros Heq; rewrite <- Heq in Hvx;
             rewrite Hv, lookup_insert_eq in Hvx; done.
        -- rewrite !lookup_insert_ne by lia. rewrite lookup_delete_ne; [done|]. lia.
  - (* the first vector *)
    destruct Hbest as (Hv & Hd & Hc).
    assert (vectors h !! p = Some (mkVector (Z.of_nat (length xs)) (Some ac))) as Hcur
      by (by rewrite Hv, lookup_insert_ne).
    assert (doubles h !! ac = Some (xs ++ rc)) as Hac by (by rewrite Hd).
    hwp_run. eapply hwp_vload; [rewrite Hv; apply lookup_insert_eq|]. hwp_simpl.
    rewrite decide_True by done. hwp_run.
    destruct (hcap h) as [|c] eqn:Hch; [lia|].
    eapply hwp_malloc_doubles; [exact Hch|lia|]. hwp_simpl. rewrite Nat2Z.id.
    eapply hwp_bind, hwp_vstore; [rewrite Hv; apply lookup_insert_eq|]. hwp_simpl.
    hwp_run.
    eapply (copyLarger_spec fuel _ p mx ac (hnext h) _ xs rc); hwp_simpl.
    + done.
    + by rewrite lookup_insert_ne by done.
    + by rewrite lookup_insert_ne by lia.
    + by rewrite lookup_insert_eq.
    + by rewrite lookup_insert_eq.
    + lia.
    + by rewrite length_replicate.
    + done.
    + split; [done|]. split.
      * split_and!; [done|done|cbn; lia|]. exists (hnext h). cbn. split; [lia|split; [|split]].
        -- by rewrite !insert_insert_eq, Hv, insert_insert_eq.
        -- rewrite insert_insert_eq, Hd. f_equal.
           rewrite drop_ge; [by rewrite app_nil_r|]. by rewrite length_replicate.
        -- lia.
      * intros x Hx. cbn in *. destruct (Hal x ltac:(lia)) as [Hvx Hdx]. split.
        -- rewrite !lookup_insert_ne; [done|..]; intros Heq; rewrite <- Heq in Hvx;
             rewrite Hv, lookup_insert_eq in Hvx; done.
        -- rewrite !lookup_insert_ne by lia. done.
Qed.
End keep.

Lemma run_visitor_keep fuel h0 mx : ∀ ds cs,
  halloc_ok h0 → (3 ≤ hcap h0)%nat → Forall2 (vec_at h0) ds cs →
  ∀ h best,
  Forall (λ xs, (0 < length xs < fuel)%nat) cs →
  halloc_ok h → scratch h0 h mx best →
  (∀ ys, best = Some ys → (length ys < fuel)%nat) →
  ∃ h', run_visitor (as_visitor (copyIfNormIsLarger fuel) mx) ds (HOk tt h)
        = (SUCCESS, HOk tt h', ds)
        ∧ scratch h0 h' mx (fold_left keep_larger cs best) ∧ halloc_ok h'.
Proof.
  intros ds cs Hal0 Hcap Hds.
  induction Hds as [|d xs ds cs Hd Hds IH]; intros h best Hcs Hal Hs Hb.
  - by exists h.
  - apply Forall_cons in Hcs as [[Hx Hxf] Hcs].
    destruct (copyIfNormIsLarger_step h0 mx fuel h best d xs)
      as (h1 & Hrun & Hs1 & Hal1); try done.
    destruct (IH h1 (keep_larger best xs)) as (h' & Hrun' & Hs' & Hal'); try done.
    { intros ys. destruct best as [zs|]; cbn.
      - destruct (PrimFloat.ltb _ _); intros [= <-]; [done|by apply Hb].
      - by intros [= <-]. }
    exists h'. cbn [run_visitor as_visitor fold_left]. rewrite Hrun. cbn.
    rewrite decide_False by done. by rewrite Hrun'.
Qed.

(** The vector kept is one of those seen, and none of them has a norm
    above its own. *)
Lemma max_norm_spec cs :
  cs ≠ [] →
  ∃ best, max_norm cs = Some best ∧ best ∈ cs
          ∧ ∀ xs, xs ∈ cs → PrimFloat.ltb (norm2 best) (norm2 xs) = false.
Proof.
  induction cs as [|xs cs IH] using rev_ind; [done|]. intros _.
  unfold max_norm in *. rewrite fold_left_app. cbn [fold_left].
  destruct (decide (cs = [])) as [->|Hne].
  { exists xs. cbn. split_and!; [done|by apply list_elem_of_singleton|].
    intros ys ->%list_elem_of_singleton. apply ltb_irrefl. }
  destruct (IH Hne) as (b & -> & Hin & Hmax). cbn [keep_larger].
  destruct (PrimFloat.ltb (norm2 b) (norm2 xs)) eqn:Hlt.
  - exists xs. split_and!; [done|apply elem_of_app; right; by apply list_elem_of_singleton|].
    intros ys [Hys| ->%list_elem_of_singleton]%elem_of_app; [|apply ltb_irrefl].
    destruct (PrimFloat.ltb (norm2 xs) (norm2 ys)) eqn:Hlt'; [|done].
    rewrite <- (Hmax ys Hys). symmetry. by eapply ltb_trans.
  - exists b. split_and!; [done|apply elem_of_app; by left|].
    intros ys [Hys| ->%list_elem_of_singleton]%elem_of_app; [by apply Hmax|done].
Qed.

Lemma malloc_Vector_scratch h0 c :
  halloc_ok h0 → hcap h0 = S c →
  ∃ h2, (let+ newVector := malloc_Vector in
         vstore (with_len 0) newVector ;;+ vstore (with_vector None) newVector ;;+
         hret newVector) h0 = HOk (Z.pos (hnext h0)) h2
        ∧ scratch h0 h2 (Z.pos (hnext h0)) None ∧ halloc_ok h2
        ∧ h2 = mkHeap (<[Z.pos (hnext h0) := mkVector 0 None]> (vectors h0)) (doubles h0)
                      (Pos.succ (hnext h0)) c.
Proof.
  intros Hal Hc.
  exists (mkHeap (<[Z.pos (hnext h0) := mkVector 0 None]> (vectors h0)) (doubles h0)
                 (Pos.succ (hnext h0)) c).
  split_and!; [|  | |reflexivity].
  - unfold hbind, malloc_Vector, vstore, hret. rewrite Hc. cbn.
    repeat (rewrite ?lookup_insert_eq, ?insert_insert_eq; cbn). done.
  - split_and!; cbn; [done|by apply Hal|lia|done|done|lia].
  - intros x Hx. cbn in *. destruct (Hal x ltac:(lia)). split; [|done].
    rewrite lookup_insert_ne; [done|]. intros [=]. lia.
Qed.

Lemma findMaxNormVectorInTree_unfold fuel tr w h0 c h2 :
  hcap h0 = S c →
  h2 = mkHeap (<[Z.pos (hnext h0) := mkVector 0 None]> (vectors h0)) (doubles h0)
              (Pos.succ (hnext h0)) c →
  findMaxNormVectorInTree fuel (Some tr) w h0
  = match forEachRBTree fuel (Some tr)
            (Some (as_visitor (copyIfNormIsLarger fuel) (Z.pos (hnext h0)))) (HOk tt h2) w with
    | Ok (r, HOk _ h3) w' =>
      if decide (r = 0)%Z then FOk NULL w' h3 else FOk (Z.pos (hnext h0)) w' h3
    | Ok (_, HFault) _ => FFault
    | Ok (_, HOutOfFuel) _ => FOutOfFuel
    | Fault => FFault
    | OutOfFuel => FOutOfFuel
    end.
Proof.
  intros Hc ->. unfold findMaxNormVectorInTree. rewrite decide_False by done.
  unfold malloc_Vector. rewrite Hc. rewrite decide_False by done.
  unfold hbind, vstore. cbn. repeat (rewrite ?lookup_insert_eq, ?insert_insert_eq; cbn).
  done.
Qed.

Lemma findMaxNormVectorInTree_run cmp ff w tr t n h0 cs fuel :
  tree_at cmp ff w tr t n → t ≠ E →
  Forall2 (vec_at h0) (elems t) cs →
  Forall (λ xs, (0 < length xs < fuel)%nat) cs →
  halloc_ok h0 → (3 ≤ hcap h0)%nat → (height t ≤ fuel)%nat →
  ∃ best h',
    findMaxNormVectorInTree fuel (Some tr) w h0
    = FOk (Z.pos (hnext h0)) (visited (elems t) w) h'
    ∧ max_norm cs = Some best
    ∧ scratch h0 h' (Z.pos (hnext h0)) (Some best) ∧ halloc_ok h'.
Proof.
  intros Ht Hne Hcs Hlen Hal Hcap Hfuel.
  destruct (hcap h0) as [|c] eqn:Hc; [lia|].
  destruct (malloc_Vector_scratch h0 c Hal Hc) as (h2 & _ & Hs & Hal2 & Hh2).
  rewrite (findMaxNormVectorInTree_unfold fuel tr w h0 c h2 Hc Hh2).
  rewrite (forEachRBTree_run _ cmp ff w tr t n fuel _ Ht Hne Hfuel).
  assert (3 ≤ hcap h0)%nat as Hcap0 by lia.
  destruct (run_visitor_keep fuel h0 (Z.pos (hnext h0)) (elems t) cs Hal Hcap0 Hcs
              h2 None Hlen Hal2 Hs) as (h' & -> & Hs' & Hal'); [done|].
  assert (cs ≠ []) as Hcne.
  { intros ->. apply Forall2_nil_inv_r in Hcs. destruct t; [done|].
    cbn in Hcs. by apply app_eq_nil in Hcs as [_ ?]. }
  destruct (max_norm_spec cs Hcne) as (best & Hbest & _).
  exists best, h'. cbn. rewrite decide_False by done.
  fold (max_norm cs) in Hs'. rewrite Hbest in Hs'. done.
Qed.

Lemma halloc_ok_heap0 : halloc_ok heap0.
Proof.
  intros x Hx. cbn in Hx. split; cbn.
  - rewrite !lookup_insert_ne by lia. apply lookup_singleton_ne. lia.
  - rewrite !lookup_insert_ne by lia. apply lookup_singleton_ne. lia.
Qed.

Lemma vec_at_keep h0 h mx best p xs :
  halloc_ok h0 → scratch h0 h mx best → vec_at h0 p xs → vec_at h p xs.
Proof. intros Hal Hs Hp. by destruct (scratch_vec_at h0 mx h best p xs Hal Hs Hp). Qed.

(** X17: on a tree that holds non-empty vectors, with three blocks of
    memory left, [findMaxNormVectorInTree] visits every element and
    returns a fresh vector that holds a copy of one of the stored
    vectors; no stored vector has a norm above that of the copy, and the
    stored vectors are as before. *)
Theorem findMaxNormVectorInTree_returns_largest cmp ff w tr t n h0 cs fuel :
  tree_at cmp ff w tr t n → t ≠ E →
  Forall2 (vec_at h0) (elems t) cs →
  Forall (λ xs, (0 < length xs < fuel)%nat) cs →
  halloc_ok h0 → (3 ≤ hcap h0)%nat → (height t ≤ fuel)%nat →
  ∃ best h',
    findMaxNormVectorInTree fuel (Some tr) w h0
    = FOk (Z.pos (hnext h0)) (visited (elems t) w) h'
    ∧ max_norm cs = Some best
    ∧ best ∈ cs
    ∧ (∀ xs, xs ∈ cs → PrimFloat.ltb (norm2 best) (norm2 xs) = false)
    ∧ vectors h0 !! Z.pos (hnext h0) = None
    ∧ vec_at h' (Z.pos (hnext h0)) best
    ∧ (∀ p xs, vec_at h0 p xs → vec_at h' p xs).
Proof.
  intros Ht Hne Hcs Hlen Hal Hcap Hfuel.
  destruct (findMaxNormVectorInTree_run cmp ff w tr t n h0 cs fuel Ht Hne Hcs Hlen Hal Hcap
              Hfuel) as (best & h' & Hrun & Hbest & Hs & Hal').
  assert (cs ≠ []) as Hcne by (intros ->; vm_compute in Hbest; discriminate).
  destruct (max_norm_spec cs Hcne) as (b & Hb & Hin & Hmax).
  assert (b = best) as -> by congruence.
  exists best, h'. split_and!; [done..| | |].
  - by apply Hal.
  - by eapply scratch_best.
  - intros p xs Hp. exact (vec_at_keep h0 h' _ _ p xs Hal Hs Hp).
Qed.

Lemma findMaxNormVectorInTree_returns_largest_witness :
  ∃ best h',
    findMaxNormVectorInTree 3 (Some 1%positive) (world_after [10; 20; 30]%Z) heap0
    = FOk 40 (visited [10; 20; 30]%Z (world_after [10; 20; 30]%Z)) h'
    ∧ max_norm [[d1; d1]; [d3]; [d2]] = Some best
    ∧ best ∈ [[d1; d1]; [d3]; [d2]]
    ∧ (∀ xs, xs ∈ [[d1; d1]; [d3]; [d2]] → PrimFloat.ltb (norm2 best) (norm2 xs) = false)
    ∧ vectors heap0 !! 40%Z = None
    ∧ vec_at h' 40 best
    ∧ (∀ p xs, vec_at heap0 p xs → vec_at h' p xs).
Proof.
  apply (findMaxNormVectorInTree_returns_largest subCompare 7 (world_after [10; 20; 30]%Z) 1
           (T BLACK (T RED E 2 10 E) 3 20 (T RED E 4 30 E)) 3 heap0
           [[d1; d1]; [d3]; [d2]] 3).
  - exact tree_at_10_20_30.
  - done.
  - cbn. constructor; [exact vec_at_heap0_10|].
    constructor; [exact vec_at_heap0_20|].
    constructor; [exact vec_at_heap0_30|]. constructor.
  - repeat constructor; cbn; lia.
  - exact halloc_ok_heap0.
  - cbn. lia.
  - cbn. lia.
Defined.

Lemma hwp_free_doubles a xs h Q :
  doubles h !! a = Some xs →
  Q tt (mkHeap (vectors h) (delete a (doubles h)) (hnext h) (S (hcap h))) →
  hwp (free_doubles (Some a)) h Q.
Proof. unfold hwp, free_doubles. by intros ->. Qed.

Lemma hwp_free_Vector p v h Q :
  p ≠ NULL → vectors h !! p = Some v →
  Q tt (mkHeap (delete p (vectors h)) (doubles h) (hnext h) (S (hcap h))) →
  hwp (free_Vector p) h Q.
Proof. unfold hwp, free_Vector. intros Hp ->. by rewrite decide_False by done. Qed.

Lemma freeVector_scratch h0 h mx best :
  halloc_ok h0 → scratch h0 h mx (Some best) →
  ∃ h', freeVector mx h = HOk tt h'
        ∧ vectors h' = vectors h0 ∧ doubles h' = doubles h0 ∧ hcap h' = hcap h0.
Proof.
  intros Hal (Hmx & Hfresh & Hnext & am & Ham & Hv & Hd & Hc).
  assert (doubles h0 !! am = None) as Hamf by (apply Hal; lia).
  assert (hwp (freeVector mx) h
            (λ _ h', vectors h' = vectors h0 ∧ doubles h' = doubles h0 ∧ hcap h' = hcap h0))
    as Hwp; [|apply hwp_Ok in Hwp as ([] & h' & ? & ?); eauto].
  unfold freeVector. rewrite decide_True by done.
  apply hwp_bind. eapply hwp_vload; [rewrite Hv; apply lookup_insert_eq|]. hwp_simpl.
  apply hwp_bind. rewrite decide_True by done.
  apply hwp_bind. eapply hwp_vload; [rewrite Hv; apply lookup_insert_eq|]. hwp_simpl.
  apply hwp_bind. eapply hwp_free_doubles; [rewrite Hd; apply lookup_insert_eq|].
  eapply hwp_vstore; [hwp_simpl; rewrite Hv; apply lookup_insert_eq|]. hwp_simpl.
  eapply hwp_free_Vector; [done|hwp_simpl; apply lookup_insert_eq|]. hwp_simpl.
  rewrite Hv, Hd, insert_insert_eq, !delete_insert_eq, !delete_id by done.
  split_and!; [done..|lia].
Qed.

(** X18: releasing the vector that [findMaxNormVectorInTree] returned
    with [freeVector] gives back both blocks: the stored vectors, the
    arrays and the memory left are those before the search. *)
Theorem findMaxNormVectorInTree_then_freeVector cmp ff w tr t n h0 cs fuel :
  tree_at cmp ff w tr t n → t ≠ E →
  Forall2 (vec_at h0) (elems t) cs →
  Forall (λ xs, (0 < length xs < fuel)%nat) cs →
  halloc_ok h0 → (3 ≤ hcap h0)%nat → (height t ≤ fuel)%nat →
  ∃ r w' h' h'',
    findMaxNormVectorInTree fuel (Some tr) w h0 = FOk r w' h'
    ∧ r ≠ NULL
    ∧ (S (S (hcap h')) = hcap h0)%nat
    ∧ freeVector r h' = HOk tt h''
    ∧ vectors h'' = vectors h0 ∧ doubles h'' = doubles h0 ∧ hcap h'' = hcap h0.
Proof.
  intros Ht Hne Hcs Hlen Hal Hcap Hfuel.
  destruct (findMaxNormVectorInTree_run cmp ff w tr t n h0 cs fuel Ht Hne Hcs Hlen Hal Hcap
              Hfuel) as (best & h' & Hrun & Hbest & Hs & Hal').
  destruct (freeVector_scratch h0 h' _ best Hal Hs) as (h'' & Hfree & ? & ? & ?).
  exists (Z.pos (hnext h0)), (visited (elems t) w), h', h''.
  split_and!; [done|done| |done..].
  by destruct Hs as (_ & _ & _ & am & _ & _ & _ & ?).
Qed.

Lemma findMaxNormVectorInTree_then_freeVector_witness :
  ∃ r w' h' h'',
    findMaxNormVectorInTree 3 (Some 1%positive) (world_after [10; 20; 30]%Z) heap0
    = FOk r w' h'
    ∧ r ≠ NULL
    ∧ (S (S (hcap h')) = hcap heap0)%nat
    ∧ freeVector r h' = HOk tt h''
    ∧ vectors h'' = vectors heap0 ∧ doubles h'' = doubles heap0 ∧ hcap h'' = hcap heap0.
Proof.
  apply (findMaxNormVectorInTree_then_freeVector subCompare 7 (world_after [10; 20; 30]%Z) 1
           (T BLACK (T RED E 2 10 E) 3 20 (T RED E 4 30 E)) 3 heap0
           [[d1; d1]; [d3]; [d2]] 3).
  - exact tree_at_10_20_30.
  - done.
  - cbn. constructor; [exact vec_at_heap0_10|].
    constructor; [exact vec_at_heap0_20|].
    constructor; [exact vec_at_heap0_30|]. constructor.
  - repeat constructor; cbn; lia.
  - exact halloc_ok_heap0.
  - cbn. lia.
  - cbn. lia.
Defined.

(** ** What a failed search leaves behind *)

Lemma still_allocated_refl h : still_allocated h h.
Proof. by intros p. Qed.

Lemma kv_ret {A} (a : A) : keeps_vectors (hret a).
Proof. intros h. apply still_allocated_refl. Qed.

Lemma kv_bind {A B} (m : HM A) (f : A → HM B) :
  keeps_vectors m → (∀ a, keeps_vectors (f a)) → keeps_vectors (hbind m f).
Proof.
  intros Hm Hf h. specialize (Hm h). unfold hwlp, hbind in *.
  destruct (m h) as [a h1| |]; [|done..].
  specialize (Hf a h1). unfold hwlp in Hf. destruct (f a h1); [|done..].
  intros p Hp. auto.
Qed.

Lemma kv_out_of_fuel {A} : keeps_vectors (@hout_of_fuel A).
Proof. by intros h. Qed.

Lemma kv_vload {A} (f : Vector → A) p : keeps_vectors (vload f p).
Proof. intros h. unfold hwlp, vload. destruct (vectors h !! p); [|done]. by intros q. Qed.

Lemma kv_vstore f p : keeps_vectors (vstore f p).
Proof.
  intros h. unfold hwlp, vstore. destruct (vectors h !! p) eqn:Hp; [|done].
  intros q Hq. cbn. destruct (decide (q = p)) as [->|Hne].
  - by rewrite lookup_insert_eq.
  - by rewrite lookup_insert_ne.
Qed.

Lemma kv_dload p i : keeps_vectors (dload p i).
Proof.
  intros h. unfold hwlp, dload. destruct p as [a|]; [|done].
  destruct (doubles h !! a) as [xs|]; [|done]. destruct (decide _); [|done].
  destruct (xs !! _); [|done]. by intros q.
Qed.

Lemma kv_dstore p i x : keeps_vectors (dstore p i x).
Proof.
  intros h. unfold hwlp, dstore. destruct p as [a|]; [|done].
  destruct (doubles h !! a) as [xs|]; [|done]. destruct (decide _); [|done]. by intros q.
Qed.

Lemma kv_malloc_doubles n : keeps_vectors (malloc_doubles n).
Proof.
  intros h. unfold hwlp, malloc_doubles. destruct (hcap h); [by intros q|].
  destruct (decide _); by intros q.
Qed.

Lemma kv_realloc_doubles p n : keeps_vectors (realloc_doubles p n).
Proof.
  intros h. destruct p as [a|]; [|apply kv_malloc_doubles].
  unfold hwlp, realloc_doubles. destruct (doubles h !! a); [|done].
  destruct (hcap h); [by intros q|]. repeat destruct (decide _); by intros q.
Qed.

Ltac kv_step :=
  first
    [ apply kv_ret | apply kv_out_of_fuel | apply kv_vload | apply kv_vstore
    | apply kv_dload | apply kv_dstore | apply kv_malloc_doubles | apply kv_realloc_doubles
    | assumption
    | apply kv_bind; [|intros ?]
    | match goal with
      | |- keeps_vectors (if ?c then _ else _) => destruct c
      end ].

Ltac kv := repeat kv_step.

Lemma kv_calculateNorm fuel p : keeps_vectors (calculateNorm fuel p).
Proof.
  unfold calculateNorm. generalize 0%Z PrimFloat.zero.
  induction fuel as [|fuel IH]; intros i norm; cbn [calculateNormLoop]; kv. apply IH.
Qed.

Lemma kv_copyLarger fuel cur mx : keeps_vectors (copyLarger fuel cur mx).
Proof.
  unfold copyLarger. kv. generalize 0%Z.
  induction fuel as [|fuel IH]; intros i; cbn [copyLargerLoop]; kv. apply IH.
Qed.

(** [copyIfNormIsLarger] releases no [Vector]. *)
Lemma kv_copyIfNormIsLarger fuel p mx : keeps_vectors (copyIfNormIsLarger fuel p mx).
Proof.
  unfold copyIfNormIsLarger.
  repeat first [apply kv_calculateNorm|apply kv_copyLarger|kv_step].
Qed.

Lemma as_visitor_allocated (f : Z → Z → HM Z) mx d s :
  (∀ d, keeps_vectors (f d mx)) →
  allocated_in mx s → allocated_in mx (as_visitor f mx d s).2.
Proof.
  intros Hf Hs. destruct s as [[] h| |]; cbn; [|done..].
  specialize (Hf d h). unfold hwlp in Hf. destruct (f d mx h); cbn; [|done..].
  by apply Hf.
Qed.

Lemma wlp_load_any {A} (f : Node → A) p w (Q : A → World → Prop) :
  (∀ v, Q v w) → wlp (load f p) w Q.
Proof.
  intros HQ. unfold wlp, load. destruct p as [a|]; [|done]. by destruct (nodes w !! a).
Qed.

(** Whatever the visitor keeps true of its [args], the traversal keeps. *)
Lemma forEachNode_inv {A} (func : ForEachFunc A) (I : A → Prop) :
  (∀ d s, I s → I (func d s).2) →
  ∀ fuel node args w, I args → wlp (forEachNode fuel node func args) w (λ r _, I r.2).
Proof.
  intros Hf. induction fuel as [|fuel IH]; intros node args w Hargs; [done|].
  cbn [forEachNode]. apply wlp_bind, wlp_load_any. intros nl.
  apply wlp_bind. apply wlp_mono with (Q := λ r _, I r.2).
  { destruct (decide _); [by apply IH|by apply wlp_ret]. }
  intros ra w1 Hra. destruct (decide (ra.1 = FAILURE)); [by apply wlp_ret|].
  apply wlp_bind, wlp_load_any. intros nd.
  apply wlp_bind. unfold call_func. apply wlp_bind. unfold wlp at 1, emit.
  apply wlp_ret. destruct (decide _); [apply wlp_ret; by apply Hf|].
  apply wlp_bind, wlp_load_any. intros nr.
  apply wlp_bind. apply wlp_mono with (Q := λ r _, I r.2).
  { destruct (decide _); [apply IH|apply wlp_ret]; by apply Hf. }
  intros rc w2 Hrc. destruct (decide _); by apply wlp_ret.
Qed.

Lemma forEachRBTree_inv {A} (func : ForEachFunc A) (I : A → Prop) fuel tr args w :
  (∀ d s, I s → I (func d s).2) → I args →
  wlp (forEachRBTree fuel (Some tr) (Some func) args) w (λ r _, I r.2).
Proof.
  intros Hf Hargs. unfold forEachRBTree. apply wlp_bind.
  unfold wlp at 1, tload. destruct (trees w !! tr); [|done].
  by apply forEachNode_inv.
Qed.

(** X19: whenever [findMaxNormVectorInTree] returns NULL after it has
    allocated its vector (the tree is given and a block of memory was
    left), that vector is still allocated: the block, which was unused
    before the call, is in use after it, and the caller has no pointer
    to it. *)
Theorem findMaxNormVectorInTree_leaks_on_failure fuel tr w h0 w' h' :
  halloc_ok h0 → hcap h0 ≠ 0%nat →
  findMaxNormVectorInTree fuel (Some tr) w h0 = FOk NULL w' h' →
  vectors h0 !! Z.pos (hnext h0) = None
  ∧ is_Some (vectors h' !! Z.pos (hnext h0)).
Proof.
  intros Hal Hcap Hrun. split; [by apply Hal|].
  destruct (hcap h0) as [|c] eqn:Hc; [done|].
  rewrite (findMaxNormVectorInTree_unfold fuel tr w h0 c _ Hc eq_refl) in Hrun.
  pose proof (forEachRBTree_inv (as_visitor (copyIfNormIsLarger fuel) (Z.pos (hnext h0)))
                (allocated_in (Z.pos (hnext h0))) fuel tr
                (HOk tt (mkHeap (<[Z.pos (hnext h0) := mkVector 0 None]> (vectors h0))
                                (doubles h0) (Pos.succ (hnext h0)) c)) w) as Hinv.
  unfold wlp in Hinv.
  destruct (forEachRBTree _ _ _ _ _) as [[r [[] h3| |]] w1| |]; try done.
  destruct (decide (r = 0%Z)); [|done]. injection Hrun as _ <-. apply Hinv.
  - intros d s. apply as_visitor_allocated. intros d'. apply kv_copyIfNormIsLarger.
  - cbn. by rewrite lookup_insert_eq.
Qed.

Lemma findMaxNormVectorInTree_leaks_on_failure_witness :
  vectors heap1 !! 40%Z = None
  ∧ is_Some (vectors (mkHeap (<[40%Z := mkVector 0 None]> (vectors heap1)) (doubles heap1)
                             41 0) !! 40%Z).
Proof.
  apply (findMaxNormVectorInTree_leaks_on_failure 3 1 (world_after [10; 20; 30]%Z) heap1
           (visited [10]%Z (world_after [10; 20; 30]%Z))
           (mkHeap (<[40%Z := mkVector 0 None]> (vectors heap1)) (doubles heap1) 41 0)).
  - intros x Hx. apply halloc_ok_heap0. exact Hx.
  - cbn. lia.
  - vm_compute. reflexivity.
Defined.

(** X20: on a tree without elements [findMaxNormVectorInTree] does not
    return: once its vector is allocated, the traversal it starts
    dereferences the NULL root.  Without a tree it returns NULL and
    leaves both memories as they are. *)
Theorem findMaxNormVectorInTree_crashes_on_empty_tree fuel tr rbt w h :
  trees w !! tr = Some rbt → root rbt = None → hcap h ≠ 0%nat →
  findMaxNormVectorInTree (S fuel) (Some tr) w h = FFault
  ∧ findMaxNormVectorInTree (S fuel) None w h = FOk NULL w h.
Proof.
  intros Htr Hroot Hcap. split; [|done].
  destruct (hcap h) as [|c] eqn:Hc; [done|].
  rewrite (findMaxNormVectorInTree_unfold (S fuel) tr w h c _ Hc eq_refl).
  unfold forEachRBTree, bind, tload. rewrite Htr, Hroot. done.
Qed.

Lemma findMaxNormVectorInTree_crashes_on_empty_tree_witness :
  findMaxNormVectorInTree 1 (Some 1%positive) (world_after []) heap0 = FFault
  ∧ findMaxNormVectorInTree 1 None (world_after []) heap0 = FOk NULL (world_after []) heap0.
Proof.
  apply (findMaxNormVectorInTree_crashes_on_empty_tree 0 1 (mkRBTree None subCompare 7 0)
           (world_after []) heap0).
  - vm_compute. reflexivity.
  - reflexivity.
  - cbn. lia.
Defined.

(** ** Entries that are not numbers *)

Lemma add_number x y : is_number (PrimFloat.add x y) → is_number x ∧ is_number y.
Proof.
  rewrite !is_number_spec, FloatAxioms.add_spec. intros H. split; intros Hn; apply H.
  - by rewrite Hn.
  - rewrite Hn. by destruct (FloatOps.Prim2SF x).
Qed.

Lemma mul_number x y : is_number (PrimFloat.mul x y) → is_number x ∧ is_number y.
Proof.
  rewrite !is_number_spec, FloatAxioms.mul_spec. intros H. split; intros Hn; apply H.
  - by rewrite Hn.
  - rewrite Hn. by destruct (FloatOps.Prim2SF x).
Qed.

Lemma norm2_from_number xs : ∀ norm,
  is_number (norm2_from norm xs) → is_number norm ∧ Forall is_number xs.
Proof.
  induction xs as [|x xs IH]; intros norm H; [by split|].
  cbn in H. apply IH in H as [[Hn Hx]%add_number Hxs].
  apply mul_number in Hx as [Hx _]. split; [done|]. by constructor.
Qed.

(** The norm of a vector is a number only if all its entries are. *)
Lemma norm2_number xs : is_number (norm2 xs) → Forall is_number xs.
Proof. intros H. by apply norm2_from_number in H as [_ ?]. Qed.

Lemma max_norm_first xs cs :
  ¬ Forall is_number xs → max_norm (xs :: cs) = Some xs.
Proof.
  intros Hxs. unfold max_norm. cbn [fold_left keep_larger].
  induction cs as [|ys cs IH]; [done|]. cbn [fold_left keep_larger].
  destruct (PrimFloat.ltb (norm2 xs) (norm2 ys)) eqn:Hlt; [|done].
  apply ltb_key in Hlt as [Hn _]. by apply norm2_number in Hn.
Qed.

Lemma max_norm_numbers xs cs best :
  max_norm (xs :: cs) = Some best → best = xs ∨ Forall is_number best.
Proof.
  unfold max_norm. cbn [fold_left keep_larger]. revert xs.
  induction cs as [|ys cs IH]; intros xs; cbn [fold_left keep_larger].
  { intros [= <-]. by left. }
  destruct (PrimFloat.ltb (norm2 xs) (norm2 ys)) eqn:Hlt; [|by apply IH].
  intros [->|?]%IH; [|by right].
  right. apply ltb_key in Hlt as (_ & Hn & _). by apply norm2_number.
Qed.

Lemma halloc_ok_heap_nan : halloc_ok heap_nan.
Proof.
  intros x Hx. cbn in Hx. split; cbn.
  - rewrite !lookup_insert_ne by lia. apply lookup_singleton_ne. lia.
  - rewrite !lookup_insert_ne by lia. apply lookup_singleton_ne. lia.
Qed.

(** X21: entries that are not numbers decide the search by their place.
    A vector with such an entry has a norm that is above no other and
    below no other: when it is the first element of the tree,
    [findMaxNormVectorInTree] returns a copy of it whatever the other
    vectors are, and when it is not the first, it is never the one
    returned. *)
Theorem findMaxNormVectorInTree_not_a_number cmp ff w tr t n h0 xs cs fuel :
  tree_at cmp ff w tr t n → t ≠ E →
  Forall2 (vec_at h0) (elems t) (xs :: cs) →
  Forall (λ xs, (0 < length xs < fuel)%nat) (xs :: cs) →
  halloc_ok h0 → (3 ≤ hcap h0)%nat → (height t ≤ fuel)%nat →
  ∃ best h',
    findMaxNormVectorInTree fuel (Some tr) w h0
    = FOk (Z.pos (hnext h0)) (visited (elems t) w) h'
    ∧ vec_at h' (Z.pos (hnext h0)) best
    ∧ (best = xs ∨ Forall is_number best)
    ∧ (¬ Forall is_number xs → best = xs).
Proof.
  intros Ht Hne Hcs Hlen Hal Hcap Hfuel.
  destruct (findMaxNormVectorInTree_run cmp ff w tr t n h0 (xs :: cs) fuel Ht Hne Hcs Hlen Hal
              Hcap Hfuel) as (best & h' & Hrun & Hbest & Hs & Hal').
  exists best, h'. split_and!; [done|by eapply scratch_best|by apply (max_norm_numbers xs cs)|].
  intros Hxs. rewrite (max_norm_first xs cs Hxs) in Hbest. congruence.
Qed.

Lemma findMaxNormVectorInTree_not_a_number_witness :
  ∃ best h',
    findMaxNormVectorInTree 3 (Some 1%positive) (world_after [10; 20; 30]%Z) heap_nan
    = FOk 40 (visited [10; 20; 30]%Z (world_after [10; 20; 30]%Z)) h'
    ∧ vec_at h' 40 best
    ∧ (best = [dnan; d1] ∨ Forall is_number best)
    ∧ (¬ Forall is_number [dnan; d1] → best = [dnan; d1]).
Proof.
  apply (findMaxNormVectorInTree_not_a_number subCompare 7 (world_after [10; 20; 30]%Z) 1
           (T BLACK (T RED E 2 10 E) 3 20 (T RED E 4 30 E)) 3 heap_nan
           [dnan; d1] [[d3]; [d2]] 3).
  - exact tree_at_10_20_30.
  - done.
  - cbn. constructor; [|constructor; [|constructor; [|constructor]]];
      (split; [done|]); eexists _, []; split; vm_compute; reflexivity.
  - repeat constructor; cbn; lia.
  - exact halloc_ok_heap_nan.
  - cbn. lia.
  - cbn. lia.
Defined.

(** ** Collecting the strings of a tree *)





